(** * agent-cli coordinator: lock manager and task server

    A shallow embedding of [dist/server/LockManager.js],
    [dist/server/TaskServer.js] and the configuration loader of
    [src/shared/config.ts], and the properties of the coordinator that
    follow from (or fail on) that code.

    Conventions of the embedding.
    - JavaScript numbers that hold millisecond timestamps, durations and
      counters are integers [Z].
    - [Date.now()] is an input: every operation takes the instant [now] at
      which it runs.  An operation is synchronous up to its first [await],
      and all in-memory mutations of the operations modelled here happen
      before that point, so one reading per operation is used.
    - The [Map] of locks and the objects [state.agents] / [state.tasks]
      are finite maps keyed by strings ([gmap string _]).  Iteration order
      of a [gmap] is not the insertion order of JavaScript; every function
      below whose result depends on the order says so.
    - Objects are mutated in place in the source.  Here every mutation is
      written back into the map it is reachable from, which is the same
      thing because no object is reachable from two keys.
    - Persisting the server state ([StateManager.writeState]) and
      emitting events do not touch the in-memory state and are left out,
      and writing the state is taken to succeed; [saveLocks] is kept as
      the mirror of the lock table on disk.  The messages that
      [handleAgentMessage] puts into an inbox
      ([FileMessageQueue.sendToAgent]) are given by a function of their
      own, [handleAgentMessage_sent], beside the one that gives the state.
    - The agent id and the task id that an operation takes as its
      arguments are ordinary keys: none is the name of a member of
      [Object.prototype].  The ids of a [dependsOn] list come from the
      caller of [createTask] unchecked and may be any strings: the lookup
      of a dependency finds the member of [Object.prototype] of that name
      when no task has it ([isBlocker]). *)

From Stdlib Require Import ZArith Ascii.
From stdpp Require Import gmap strings list fin_maps.

#[local] Open Scope Z_scope.

(** ** Node's [path] module, as far as [normalizePath] needs it *)

Class PathApi := {
  isAbsolute : string → bool;
  relative : string → string → string;
}.

(** ** JavaScript truthiness of the values the code tests *)

(** [s || null] for [s : string | null | undefined]: the string when it
    is truthy, that is neither absent nor empty.  [if (s) ...] is a match
    on it. *)
Definition truthy (o : option string) : option string :=
  match o with
  | Some s => if String.eqb s EmptyString then None else Some s
  | None => None
  end.

(** [s || d] *)
Definition string_or (o : option string) (d : string) : string :=
  default d (truthy o).

(** [n || d] for [n : number | undefined]: undefined and 0 select [d]. *)
Definition number_or (o : option Z) (d : Z) : Z :=
  match o with
  | Some n => if n =? 0 then d else n
  | None => d
  end.

(** [n ?? d]: only undefined selects [d]. *)
Definition number_nullish (o : option Z) (d : Z) : Z :=
  match o with
  | Some n => n
  | None => d
  end.

(** [a.length > 0]; [a.length === 0] is its negation. *)
Definition nonempty {A} (l : list A) : bool :=
  match l with
  | [] => false
  | _ :: _ => true
  end.

(** The names of the members of [Object.prototype].  [obj[key]] on a
    plain object without an own property [key] is the member of that
    name, a function or (for [__proto__]) an object, hence truthy, and
    [undefined] for every other key. *)
Definition isPrototypeName (key : string) : bool :=
  bool_decide
    (key ∈ ["constructor"; "__defineGetter__"; "__defineSetter__"; "hasOwnProperty";
            "__lookupGetter__"; "__lookupSetter__"; "isPrototypeOf";
            "propertyIsEnumerable"; "toString"; "valueOf"; "__proto__";
            "toLocaleString"]).

(** [a.indexOf(x)] followed by [a.splice(index, 1)] when [index > -1]:
    the first occurrence of [x] is removed. *)
Fixpoint remove_first (x : string) (l : list string) : list string :=
  match l with
  | [] => []
  | y :: l' => if decide (y = x) then l' else y :: remove_first x l'
  end.

(** ** Data model ([dist/shared/types.d.ts]) *)

Inductive LockType := read | write | exclusive.

#[global] Instance LockType_eq_dec : EqDecision LockType.
Proof. solve_decision. Defined.

Module FileLock.
Record t := mk {
  path : string;
  agentId : string;
  taskId : string;
  lockedAt : Z;
  expiresAt : Z;
  lockType : LockType;
}.

Definition set_expiresAt (v : Z) (l : t) : t :=
  mk (path l) (agentId l) (taskId l) (lockedAt l) v (lockType l).
End FileLock.

#[global] Instance FileLock_eq_dec : EqDecision FileLock.t.
Proof. solve_decision. Defined.

Module LockRequest.
Record t := mk {
  agentId : string;
  taskId : string;
  paths : list string;
  lockType : LockType;
  timeoutMs : option Z;
}.
End LockRequest.

Module Conflict.
Record t := mk {
  path : string;
  heldBy : string;
}.
End Conflict.

Module LockResult.
Record t := mk {
  success : bool;
  acquired : list string;
  failed : list string;
  conflicts : option (list Conflict.t);
}.
End LockResult.

(** ** LockManager ([dist/server/LockManager.js]) *)

Module LockManager.

(** [locks] is the in-memory [Map]; [disk] is the content of
    [locks/active.json] as last written by [saveLocks]. *)
Record t := mk {
  locks : gmap string FileLock.t;
  disk : gmap string FileLock.t;
  projectPath : string;
  defaultTimeout : Z;
}.

Definition set_locks (m : gmap string FileLock.t) (lm : t) : t :=
  mk m (disk lm) (projectPath lm) (defaultTimeout lm).

(** [saveLocks]: the file mirrors the table. *)
Definition saveLocks (lm : t) : t :=
  mk (locks lm) (locks lm) (projectPath lm) (defaultTimeout lm).

(** [if (n > 0) this.saveLocks()] *)
Definition saveLocks_if (b : bool) (lm : t) : t :=
  if b then saveLocks lm else lm.

(** [isCompatibleLock]: only read/read is compatible. *)
Definition isCompatibleLock (existing requested : LockType) : bool :=
  match existing, requested with
  | read, read => true
  | _, _ => false
  end.

(** The test of [cleanExpiredLocks] and [isLocked]: [now > lock.expiresAt]. *)
Definition expired (now : Z) (l : FileLock.t) : Prop :=
  now > FileLock.expiresAt l.

#[global] Instance expired_dec now l : Decision (expired now l).
Proof. unfold expired. apply _. Defined.

(** The table after the loop of [cleanExpiredLocks]. *)
Definition sweep (now : Z) (m : gmap string FileLock.t) : gmap string FileLock.t :=
  filter (λ kv, ¬ expired now kv.2) m.

(** [cleanExpiredLocks]: returns the number of evicted locks. *)
Definition cleanExpiredLocks (lm : t) (now : Z) : Z * t :=
  let m' := sweep now (locks lm) in
  let cleaned := Z.of_nat (size (locks lm)) - Z.of_nat (size m') in
  (cleaned, saveLocks_if (bool_decide (cleaned > 0)) (set_locks m' lm)).

(** [loadLocks], given the parsed content of [active.json]: only locks
    with [Date.now() < lock.expiresAt] are loaded, keyed by [lock.path]. *)
Definition loadLocks (lm : t) (data : list FileLock.t) (now : Z) : t :=
  set_locks
    (foldl (λ m lock,
              if bool_decide (now < FileLock.expiresAt lock)
              then <[FileLock.path lock := lock]> m else m)
           (locks lm) data)
    lm.

Section with_paths.
Context `{PathApi}.

(** [normalizePath] *)
Definition normalizePath (lm : t) (filePath : string) : string :=
  if isAbsolute filePath then relative (projectPath lm) filePath else filePath.

(** The lock written by [acquireLocks] for one granted path. *)
Definition newLock (lm : t) (request : LockRequest.t) (now : Z)
    (normalizedPath : string) : FileLock.t :=
  FileLock.mk normalizedPath (LockRequest.agentId request)
    (LockRequest.taskId request) now
    (now + number_or (LockRequest.timeoutMs request) (defaultTimeout lm))
    (LockRequest.lockType request).

(** The refusal test of [acquireLocks]: a lock of another agent that
    is not compatible with the requested type. *)
Definition refuses (request : LockRequest.t) (existingLock : option FileLock.t) : bool :=
  match existingLock with
  | Some l =>
      bool_decide (FileLock.agentId l ≠ LockRequest.agentId request)
      && negb (isCompatibleLock (FileLock.lockType l) (LockRequest.lockType request))
  | None => false
  end.

(** Loop state of [acquireLocks]: table, [acquired], [failed], [conflicts]. *)
Definition AcquireAcc : Type :=
  gmap string FileLock.t * list string * list string * list Conflict.t.

(** One iteration of [for (const filePath of request.paths)]. *)
Definition acquireStep (lm : t) (request : LockRequest.t) (now : Z)
    (acc : AcquireAcc) (filePath : string) : AcquireAcc :=
  let '(m, acquired, failed, conflicts) := acc in
  let normalizedPath := normalizePath lm filePath in
  let existingLock := m !! normalizedPath in
  match existingLock with
  | Some l =>
      if refuses request existingLock
      then (m, acquired, failed ++ [filePath],
            conflicts ++ [Conflict.mk filePath (FileLock.agentId l)])
      else (<[normalizedPath := newLock lm request now normalizedPath]> m,
            acquired ++ [filePath], failed, conflicts)
  | None =>
      (<[normalizedPath := newLock lm request now normalizedPath]> m,
       acquired ++ [filePath], failed, conflicts)
  end.

(** [acquireLocks] *)
Definition acquireLocks (lm : t) (request : LockRequest.t) (now : Z)
    : LockResult.t * t :=
  let lm1 := (cleanExpiredLocks lm now).2 in
  let '(m, acquired, failed, conflicts) :=
    foldl (acquireStep lm1 request now) (locks lm1, [], [], [])
          (LockRequest.paths request) in
  let lm2 := saveLocks_if (nonempty acquired) (set_locks m lm1) in
  (LockResult.mk (negb (nonempty failed)) acquired failed
     (if nonempty conflicts then Some conflicts else None),
   lm2).

(** One iteration of the loop of [releaseLocks]. *)
Definition releaseStep (lm : t) (agentId : string)
    (acc : gmap string FileLock.t * list string) (filePath : string)
    : gmap string FileLock.t * list string :=
  let '(m, released) := acc in
  let normalizedPath := normalizePath lm filePath in
  match m !! normalizedPath with
  | Some lock =>
      if bool_decide (FileLock.agentId lock = agentId)
      then (delete normalizedPath m, released ++ [filePath])
      else (m, released)
  | None => (m, released)
  end.

(** [releaseLocks] *)
Definition releaseLocks (lm : t) (agentId : string) (paths : list string)
    : list string * t :=
  let '(m, released) := foldl (releaseStep lm agentId) (locks lm, []) paths in
  (released, saveLocks_if (nonempty released) (set_locks m lm)).

(** [isLocked]: an expired entry is deleted (without [saveLocks]). *)
Definition isLocked (lm : t) (filePath : string) (now : Z) : bool * t :=
  let normalizedPath := normalizePath lm filePath in
  match locks lm !! normalizedPath with
  | None => (false, lm)
  | Some lock =>
      if bool_decide (now > FileLock.expiresAt lock)
      then (false, set_locks (delete normalizedPath (locks lm)) lm)
      else (true, lm)
  end.

(** [getLock] *)
Definition getLock (lm : t) (filePath : string) : option FileLock.t :=
  locks lm !! normalizePath lm filePath.

(** [extendLock] *)
Definition extendLock (lm : t) (agentId filePath : string) (additionalMs : Z)
    : bool * t :=
  let normalizedPath := normalizePath lm filePath in
  match locks lm !! normalizedPath with
  | Some lock =>
      if bool_decide (FileLock.agentId lock ≠ agentId) then (false, lm)
      else (true,
            saveLocks
              (set_locks
                 (<[normalizedPath :=
                      FileLock.set_expiresAt (FileLock.expiresAt lock + additionalMs) lock]>
                    (locks lm)) lm))
  | None => (false, lm)
  end.

(** The loop of [checkConflicts] over the swept table. *)
Definition conflictsOf (lm : t) (agentId : string) (paths : list string)
    : list Conflict.t :=
  omap (λ filePath,
          match locks lm !! normalizePath lm filePath with
          | Some lock =>
              if bool_decide (FileLock.agentId lock ≠ agentId)
              then Some (Conflict.mk filePath (FileLock.agentId lock))
              else None
          | None => None
          end) paths.

(** [checkConflicts]: sweeps first, then lists every requested path
    held by another agent, whatever the lock types. *)
Definition checkConflicts (lm : t) (agentId : string) (paths : list string)
    (now : Z) : list Conflict.t * t :=
  let lm1 := (cleanExpiredLocks lm now).2 in
  (conflictsOf lm1 agentId paths, lm1).

(** [forceRelease] *)
Definition forceRelease (lm : t) (filePath : string) : bool * t :=
  let normalizedPath := normalizePath lm filePath in
  match locks lm !! normalizedPath with
  | Some _ => (true, saveLocks (set_locks (delete normalizedPath (locks lm)) lm))
  | None => (false, lm)
  end.
End with_paths.

(** The table after the loop of [releaseAllLocks]. *)
Definition dropAgent (agentId : string) (m : gmap string FileLock.t)
    : gmap string FileLock.t :=
  filter (λ kv, FileLock.agentId kv.2 ≠ agentId) m.

(** The table after the loop of [releaseTaskLocks]. *)
Definition dropTask (taskId : string) (m : gmap string FileLock.t)
    : gmap string FileLock.t :=
  filter (λ kv, FileLock.taskId kv.2 ≠ taskId) m.

(** Keys removed by a bulk release, in the order [gmap] lists them (the
    source lists them in insertion order). *)
Definition removedKeys (m m' : gmap string FileLock.t) : list string :=
  (map_to_list (filter (λ kv, m' !! kv.1 = None) m)).*1.

(** [releaseAllLocks] *)
Definition releaseAllLocks (lm : t) (agentId : string) : list string * t :=
  let m' := dropAgent agentId (locks lm) in
  let released := removedKeys (locks lm) m' in
  (released, saveLocks_if (nonempty released) (set_locks m' lm)).

(** [releaseTaskLocks] *)
Definition releaseTaskLocks (lm : t) (taskId : string) : list string * t :=
  let m' := dropTask taskId (locks lm) in
  let released := removedKeys (locks lm) m' in
  (released, saveLocks_if (nonempty released) (set_locks m' lm)).

(** [getAllLocks]: sweeps, then lists the values (in [gmap] order). *)
Definition getAllLocks (lm : t) (now : Z) : list FileLock.t * t :=
  let lm1 := (cleanExpiredLocks lm now).2 in
  ((map_to_list (locks lm1)).*2, lm1).

(** [getAgentLocks] *)
Definition getAgentLocks (lm : t) (agentId : string) : list FileLock.t :=
  filter (λ lock, FileLock.agentId lock = agentId) (map_to_list (locks lm)).*2.

End LockManager.

(** ** Tasks and agents ([dist/shared/types.d.ts]) *)

Inductive TaskStatus := pending | assigned | in_progress | completed | failed | cancelled.
Inductive TaskPriority := critical | high | normal | low.
Inductive AgentStatus := idle | working | blocked | error | offline.

#[global] Instance TaskStatus_eq_dec : EqDecision TaskStatus.
Proof. solve_decision. Defined.
#[global] Instance TaskPriority_eq_dec : EqDecision TaskPriority.
Proof. solve_decision. Defined.
#[global] Instance AgentStatus_eq_dec : EqDecision AgentStatus.
Proof. solve_decision. Defined.

(** The statuses the state machine never leaves by design of the spec. *)
Definition terminal (s : TaskStatus) : bool :=
  match s with
  | completed | failed | cancelled => true
  | _ => false
  end.

Module TaskResult.
Record t := mk {
  success : bool;
  summary : string;
  filesModified : list string;
  filesCreated : list string;
  filesDeleted : list string;
}.
End TaskResult.

(** The fields of [Task] the coordinator reads or writes, and the ones it
    copies from the creation options. *)
Module Task.
Record t := mk {
  id : string;
  title : string;
  description : string;
  priority : TaskPriority;
  status : TaskStatus;
  assignedAgent : option string;
  assignedAt : option Z;
  createdAt : Z;
  startedAt : option Z;
  completedAt : option Z;
  actualMinutes : option Z;
  attempts : Z;
  maxAttempts : Z;
  targetFiles : option (list string);
  targetDirectories : option (list string);
  dependsOn : option (list string);
  blockedBy : option (list string);
  branch : option string;
  baseBranch : option string;
  result : option TaskResult.t;
  error : option string;
  tags : option (list string);
}.

Definition set_status (v : TaskStatus) (x : t) : t :=
  mk (id x) (title x) (description x) (priority x) v (assignedAgent x)
    (assignedAt x) (createdAt x) (startedAt x) (completedAt x)
    (actualMinutes x) (attempts x) (maxAttempts x) (targetFiles x)
    (targetDirectories x) (dependsOn x) (blockedBy x) (branch x)
    (baseBranch x) (result x) (error x) (tags x).

Definition set_assignedAgent (v : option string) (x : t) : t :=
  mk (id x) (title x) (description x) (priority x) (status x) v
    (assignedAt x) (createdAt x) (startedAt x) (completedAt x)
    (actualMinutes x) (attempts x) (maxAttempts x) (targetFiles x)
    (targetDirectories x) (dependsOn x) (blockedBy x) (branch x)
    (baseBranch x) (result x) (error x) (tags x).

Definition set_assignedAt (v : option Z) (x : t) : t :=
  mk (id x) (title x) (description x) (priority x) (status x)
    (assignedAgent x) v (createdAt x) (startedAt x) (completedAt x)
    (actualMinutes x) (attempts x) (maxAttempts x) (targetFiles x)
    (targetDirectories x) (dependsOn x) (blockedBy x) (branch x)
    (baseBranch x) (result x) (error x) (tags x).

Definition set_startedAt (v : option Z) (x : t) : t :=
  mk (id x) (title x) (description x) (priority x) (status x)
    (assignedAgent x) (assignedAt x) (createdAt x) v (completedAt x)
    (actualMinutes x) (attempts x) (maxAttempts x) (targetFiles x)
    (targetDirectories x) (dependsOn x) (blockedBy x) (branch x)
    (baseBranch x) (result x) (error x) (tags x).

Definition set_completedAt (v : option Z) (x : t) : t :=
  mk (id x) (title x) (description x) (priority x) (status x)
    (assignedAgent x) (assignedAt x) (createdAt x) (startedAt x) v
    (actualMinutes x) (attempts x) (maxAttempts x) (targetFiles x)
    (targetDirectories x) (dependsOn x) (blockedBy x) (branch x)
    (baseBranch x) (result x) (error x) (tags x).

Definition set_actualMinutes (v : option Z) (x : t) : t :=
  mk (id x) (title x) (description x) (priority x) (status x)
    (assignedAgent x) (assignedAt x) (createdAt x) (startedAt x)
    (completedAt x) v (attempts x) (maxAttempts x) (targetFiles x)
    (targetDirectories x) (dependsOn x) (blockedBy x) (branch x)
    (baseBranch x) (result x) (error x) (tags x).

Definition set_attempts (v : Z) (x : t) : t :=
  mk (id x) (title x) (description x) (priority x) (status x)
    (assignedAgent x) (assignedAt x) (createdAt x) (startedAt x)
    (completedAt x) (actualMinutes x) v (maxAttempts x) (targetFiles x)
    (targetDirectories x) (dependsOn x) (blockedBy x) (branch x)
    (baseBranch x) (result x) (error x) (tags x).

Definition set_blockedBy (v : option (list string)) (x : t) : t :=
  mk (id x) (title x) (description x) (priority x) (status x)
    (assignedAgent x) (assignedAt x) (createdAt x) (startedAt x)
    (completedAt x) (actualMinutes x) (attempts x) (maxAttempts x)
    (targetFiles x) (targetDirectories x) (dependsOn x) v (branch x)
    (baseBranch x) (result x) (error x) (tags x).

Definition set_branch (v : option string) (x : t) : t :=
  mk (id x) (title x) (description x) (priority x) (status x)
    (assignedAgent x) (assignedAt x) (createdAt x) (startedAt x)
    (completedAt x) (actualMinutes x) (attempts x) (maxAttempts x)
    (targetFiles x) (targetDirectories x) (dependsOn x) (blockedBy x) v
    (baseBranch x) (result x) (error x) (tags x).

Definition set_baseBranch (v : option string) (x : t) : t :=
  mk (id x) (title x) (description x) (priority x) (status x)
    (assignedAgent x) (assignedAt x) (createdAt x) (startedAt x)
    (completedAt x) (actualMinutes x) (attempts x) (maxAttempts x)
    (targetFiles x) (targetDirectories x) (dependsOn x) (blockedBy x)
    (branch x) v (result x) (error x) (tags x).

Definition set_result (v : option TaskResult.t) (x : t) : t :=
  mk (id x) (title x) (description x) (priority x) (status x)
    (assignedAgent x) (assignedAt x) (createdAt x) (startedAt x)
    (completedAt x) (actualMinutes x) (attempts x) (maxAttempts x)
    (targetFiles x) (targetDirectories x) (dependsOn x) (blockedBy x)
    (branch x) (baseBranch x) v (error x) (tags x).

Definition set_error (v : option string) (x : t) : t :=
  mk (id x) (title x) (description x) (priority x) (status x)
    (assignedAgent x) (assignedAt x) (createdAt x) (startedAt x)
    (completedAt x) (actualMinutes x) (attempts x) (maxAttempts x)
    (targetFiles x) (targetDirectories x) (dependsOn x) (blockedBy x)
    (branch x) (baseBranch x) (result x) v (tags x).
End Task.

Module AgentInfo.
Record t := mk {
  id : string;
  name : string;
  status : AgentStatus;
  currentTask : option string;
  workingBranch : option string;
  workingDirectory : string;
  startedAt : Z;
  lastHeartbeat : Z;
  completedTasks : Z;
  failedTasks : Z;
  capabilities : list string;
}.

Definition set_status (v : AgentStatus) (x : t) : t :=
  mk (id x) (name x) v (currentTask x) (workingBranch x)
    (workingDirectory x) (startedAt x) (lastHeartbeat x) (completedTasks x)
    (failedTasks x) (capabilities x).

Definition set_currentTask (v : option string) (x : t) : t :=
  mk (id x) (name x) (status x) v (workingBranch x) (workingDirectory x)
    (startedAt x) (lastHeartbeat x) (completedTasks x) (failedTasks x)
    (capabilities x).

Definition set_workingBranch (v : option string) (x : t) : t :=
  mk (id x) (name x) (status x) (currentTask x) v (workingDirectory x)
    (startedAt x) (lastHeartbeat x) (completedTasks x) (failedTasks x)
    (capabilities x).

Definition set_lastHeartbeat (v : Z) (x : t) : t :=
  mk (id x) (name x) (status x) (currentTask x) (workingBranch x)
    (workingDirectory x) (startedAt x) v (completedTasks x) (failedTasks x)
    (capabilities x).

Definition set_completedTasks (v : Z) (x : t) : t :=
  mk (id x) (name x) (status x) (currentTask x) (workingBranch x)
    (workingDirectory x) (startedAt x) (lastHeartbeat x) v (failedTasks x)
    (capabilities x).

Definition set_failedTasks (v : Z) (x : t) : t :=
  mk (id x) (name x) (status x) (currentTask x) (workingBranch x)
    (workingDirectory x) (startedAt x) (lastHeartbeat x) (completedTasks x)
    v (capabilities x).
End AgentInfo.

(** The argument [info] of [registerAgent]. *)
Module AgentRegistration.
Record t := mk {
  name : option string;
  workingDirectory : option string;
  capabilities : option (list string);
}.
End AgentRegistration.

Module TaskCreateOptions.
Record t := mk {
  title : string;
  description : option string;
  priority : option TaskPriority;
  files : option (list string);
  directories : option (list string);
  dependsOn : option (list string);
  tags : option (list string);
}.
End TaskCreateOptions.

Module ServerConfig.
Record t := mk {
  projectPath : string;
  maxAgents : Z;
  heartbeatInterval : Z;
  heartbeatTimeout : Z;
  lockTimeout : Z;
  taskTimeout : Z;
  autoAssign : bool;
  gitIntegration : bool;
  branchPrefix : string;
}.

(** [DEFAULT_CONFIG] of [src/shared/config.ts], for a given working
    directory. *)
Definition DEFAULT_CONFIG (cwd : string) : t :=
  mk cwd 10 5000 30000 300000 3600000 true true "agent/".
End ServerConfig.

(** ** Messages from agents ([Message] with its typed payload) *)

Inductive MessageBody :=
  | AGENT_HEARTBEAT (status : option AgentStatus) (progress : option Z)
  | TASK_UPDATE (taskId : string)
  | TASK_COMPLETE (taskId : string) (result : TaskResult.t)
  | TASK_FAILED (taskId : string) (error : string)
  | LOCK_REQUEST (request : LockRequest.t)
  | LOCK_RELEASE (paths : list string)
  | AGENT_DISCONNECT
  | OTHER_MESSAGE.

Module Message.
Record t := mk {
  id : string;
  timestamp : Z;
  source : string;
  body : MessageBody;
}.
End Message.

(** ** Messages to agents

    [sendToAgent(inbox, createMessage(type, 'server', payload, target,
    correlationId))]: the message written into the inbox of an agent, as
    far as the caller fixes it; [createMessage] adds an id and a
    timestamp of its own. *)

Inductive OutboundBody :=
  | LOCK_RESPONSE (result : LockResult.t).

Module Outbound.
Record t := mk {
  inbox : string;
  body : OutboundBody;
  target : option string;
  correlationId : option string;
}.
End Outbound.

(** ** TaskServer ([dist/server/TaskServer.js]) *)

Module TaskServer.

(** [state] (agents, tasks, queue, history), [config] and the lock
    manager.  [state.locks] is created empty and never used. *)
Record t := mk {
  config : ServerConfig.t;
  agents : gmap string AgentInfo.t;
  tasks : gmap string Task.t;
  taskQueue : list string;
  completedTasks : list string;
  lockManager : LockManager.t;
}.

Definition set_agents (v : gmap string AgentInfo.t) (s : t) : t :=
  mk (config s) v (tasks s) (taskQueue s) (completedTasks s) (lockManager s).
Definition set_tasks (v : gmap string Task.t) (s : t) : t :=
  mk (config s) (agents s) v (taskQueue s) (completedTasks s) (lockManager s).
Definition set_taskQueue (v : list string) (s : t) : t :=
  mk (config s) (agents s) (tasks s) v (completedTasks s) (lockManager s).
Definition set_completedTasks (v : list string) (s : t) : t :=
  mk (config s) (agents s) (tasks s) (taskQueue s) v (lockManager s).
Definition set_lockManager (v : LockManager.t) (s : t) : t :=
  mk (config s) (agents s) (tasks s) (taskQueue s) (completedTasks s) v.

(** The constructor with [createInitialState], [active.json] absent. *)
Definition new_ (config : ServerConfig.t) : t :=
  mk config ∅ ∅ [] []
     (LockManager.mk ∅ ∅ (ServerConfig.projectPath config)
        (ServerConfig.lockTimeout config)).

(** The test of both dependency filters, [dep && dep.status !==
    'completed'] for [dep = this.state.tasks[depId]].  [state.tasks] is a
    plain object: when no task is stored under [depId], [dep] is the
    member of [Object.prototype] of that name, if there is one, and such
    a member has no [status]. *)
Definition isBlocker (tasks : gmap string Task.t) (depId : string) : bool :=
  match tasks !! depId with
  | Some dep => bool_decide (Task.status dep ≠ completed)
  | None => isPrototypeName depId
  end.

(** [registerAgent] *)
Definition registerAgent (s : t) (agentId : string) (info : AgentRegistration.t)
    (now : Z) : AgentInfo.t * t :=
  let agent :=
    AgentInfo.mk agentId
      (string_or (AgentRegistration.name info) agentId)
      idle None None
      (string_or (AgentRegistration.workingDirectory info)
         (ServerConfig.projectPath (config s)))
      now now 0 0
      (default [] (AgentRegistration.capabilities info)) in
  (agent, set_agents (<[agentId := agent]> (agents s)) s).

(** [updateHeartbeat] *)
Definition updateHeartbeat (s : t) (agentId : string) (status : option AgentStatus)
    (now : Z) : t :=
  match agents s !! agentId with
  | None => s
  | Some agent =>
      let agent1 := AgentInfo.set_lastHeartbeat now agent in
      let agent2 :=
        match status with
        | Some st =>
            if bool_decide (st ≠ AgentInfo.status agent1)
            then AgentInfo.set_status st agent1 else agent1
        | None => agent1
        end in
      set_agents (<[agentId := agent2]> (agents s)) s
  end.

(** [createTask]; [taskId] is the value returned by [generateTaskId()]. *)
Definition createTask (s : t) (taskId : string) (options : TaskCreateOptions.t)
    (now : Z) : Task.t * t :=
  let blockedBy :=
    match TaskCreateOptions.dependsOn options with
    | Some deps =>
        let blockers := filter (λ depId, isBlocker (tasks s) depId) deps in
        if nonempty blockers then Some blockers else None
    | None => None
    end in
  let task :=
    Task.mk taskId (TaskCreateOptions.title options)
      (string_or (TaskCreateOptions.description options) EmptyString)
      (default normal (TaskCreateOptions.priority options))
      pending None None now None None None 0 3
      (TaskCreateOptions.files options)
      (TaskCreateOptions.directories options)
      (TaskCreateOptions.dependsOn options)
      blockedBy None None None None
      (TaskCreateOptions.tags options) in
  (task,
   set_taskQueue (taskQueue s ++ [taskId])
     (set_tasks (<[taskId := task]> (tasks s)) s)).

(** [unblockDependentTasks] *)
Definition unblockDependentTasks (completedTaskId : string)
    (tasks : gmap string Task.t) : gmap string Task.t :=
  (λ task,
     match Task.blockedBy task with
     | Some b => Task.set_blockedBy (Some (remove_first completedTaskId b)) task
     | None => task
     end) <$> tasks.

(** [startTask] *)
Definition startTask (s : t) (taskId agentId : string) (now : Z) : t :=
  match tasks s !! taskId with
  | None => s
  | Some task =>
      if bool_decide (Task.assignedAgent task ≠ Some agentId) then s
      else
        set_tasks
          (<[taskId := Task.set_startedAt (Some now) (Task.set_status in_progress task)]>
             (tasks s)) s
  end.

(** [unassignTask] *)
Definition unassignTask (s : t) (taskId : string) : t :=
  match tasks s !! taskId with
  | None => s
  | Some task =>
      let agentId := Task.assignedAgent task in
      let lm := (LockManager.releaseTaskLocks (lockManager s) taskId).2 in
      let task' :=
        Task.set_assignedAt None
          (Task.set_assignedAgent None (Task.set_status pending task)) in
      let agents' :=
        match truthy agentId with
        | Some assignee =>
            match agents s !! assignee with
            | Some agent =>
                if bool_decide (AgentInfo.currentTask agent = Some taskId)
                then <[assignee :=
                         AgentInfo.set_workingBranch None
                           (AgentInfo.set_currentTask None
                              (AgentInfo.set_status idle agent))]> (agents s)
                else agents s
            | None => agents s
            end
        | None => agents s
        end in
      mk (config s) agents' (<[taskId := task']> (tasks s))
         (taskId :: taskQueue s) (completedTasks s) lm
  end.

(** [Math.round((completedAt - startedAt) / 60000)] on integers. *)
Definition minutesBetween (startedAt completedAt : Z) : Z :=
  (completedAt - startedAt + 30000) `div` 60000.

(** [completeTask] *)
Definition completeTask (s : t) (taskId agentId : string) (result : TaskResult.t)
    (now : Z) : t :=
  match tasks s !! taskId with
  | None => s
  | Some task =>
      if bool_decide (Task.assignedAgent task ≠ Some agentId) then s
      else
        let task1 :=
          Task.set_result (Some result)
            (Task.set_completedAt (Some now) (Task.set_status completed task)) in
        let task2 :=
          match Task.startedAt task1 with
          | Some started =>
              if started =? 0 then task1
              else Task.set_actualMinutes (Some (minutesBetween started now)) task1
          | None => task1
          end in
        let lm := (LockManager.releaseTaskLocks (lockManager s) taskId).2 in
        let agents' :=
          match agents s !! agentId with
          | Some agent =>
              <[agentId :=
                  AgentInfo.set_completedTasks (AgentInfo.completedTasks agent + 1)
                    (AgentInfo.set_workingBranch None
                       (AgentInfo.set_currentTask None
                          (AgentInfo.set_status idle agent)))]> (agents s)
          | None => agents s
          end in
        mk (config s) agents'
           (unblockDependentTasks taskId (<[taskId := task2]> (tasks s)))
           (taskQueue s) (completedTasks s ++ [taskId]) lm
  end.

(** [failTask] *)
Definition failTask (s : t) (taskId agentId : string) (error : string)
    (now : Z) : t :=
  match tasks s !! taskId with
  | None => s
  | Some task =>
      if bool_decide (Task.assignedAgent task ≠ Some agentId) then s
      else
        let lm := (LockManager.releaseTaskLocks (lockManager s) taskId).2 in
        let retry := bool_decide (Task.attempts task < Task.maxAttempts task) in
        let task' :=
          if retry then
            Task.set_error (Some error)
              (Task.set_assignedAt None
                 (Task.set_assignedAgent None (Task.set_status pending task)))
          else
            Task.set_error (Some error)
              (Task.set_completedAt (Some now) (Task.set_status failed task)) in
        let queue' := if retry then taskId :: taskQueue s else taskQueue s in
        let agents' :=
          match agents s !! agentId with
          | Some agent =>
              <[agentId :=
                  AgentInfo.set_failedTasks (AgentInfo.failedTasks agent + 1)
                    (AgentInfo.set_workingBranch None
                       (AgentInfo.set_currentTask None
                          (AgentInfo.set_status idle agent)))]> (agents s)
          | None => agents s
          end in
        mk (config s) agents' (<[taskId := task']> (tasks s)) queue'
           (completedTasks s) lm
  end.

(** [getPendingTasks] *)
Definition getPendingTasks (s : t) : list Task.t :=
  filter (λ task, Task.status task = pending)
         (omap (λ id, tasks s !! id) (taskQueue s)).

Section with_paths.
Context `{PathApi}.

(** The dependency gate of [assignTask]: [None] when the task is still
    blocked, otherwise the task with [blockedBy] reset to the empty
    list if it was non-empty. *)
Definition passDependencies (s : t) (task : Task.t) : option Task.t :=
  match Task.blockedBy task with
  | Some b =>
      if nonempty b then
        let stillBlocked := filter (λ depId, isBlocker (tasks s) depId) b in
        if nonempty stillBlocked then None
        else Some (Task.set_blockedBy (Some []) task)
      else Some task
  | None => Some task
  end.

(** [if (task.targetFiles) conflicts = checkConflicts(agentId, task.targetFiles)] *)
Definition fileConflicts (lm : LockManager.t) (task : Task.t) (agentId : string)
    (now : Z) : list Conflict.t * LockManager.t :=
  match Task.targetFiles task with
  | Some files => LockManager.checkConflicts lm agentId files now
  | None => ([], lm)
  end.

(** The writes to the task under "Assign the task", with the branch
    names when git integration is on. *)
Definition markAssigned (config : ServerConfig.t) (task : Task.t)
    (taskId agentId : string) (now : Z) : Task.t :=
  let task' :=
    Task.set_attempts (Task.attempts task + 1)
      (Task.set_assignedAt (Some now)
         (Task.set_assignedAgent (Some agentId)
            (Task.set_status assigned task))) in
  if ServerConfig.gitIntegration config then
    Task.set_baseBranch (Some "main")
      (Task.set_branch
         (Some (ServerConfig.branchPrefix config +:+ agentId +:+ "/" +:+ taskId))
         task')
  else task'.

(** The writes to the agent under "Update agent". *)
Definition markWorking (agent : AgentInfo.t) (taskId : string) (task : Task.t)
    : AgentInfo.t :=
  AgentInfo.set_workingBranch (truthy (Task.branch task))
    (AgentInfo.set_currentTask (Some taskId)
       (AgentInfo.set_status working agent)).

(** [if (task.targetFiles) acquireLocks({agentId, taskId, paths, lockType: 'write'})] *)
Definition lockTargetFiles (lm : LockManager.t) (task : Task.t)
    (taskId agentId : string) (now : Z) : LockManager.t :=
  match Task.targetFiles task with
  | Some files =>
      (LockManager.acquireLocks lm
         (LockRequest.mk agentId taskId files write None) now).2
  | None => lm
  end.

(** [assignTask] *)
Definition assignTask (s : t) (taskId agentId : string) (now : Z)
    : option Task.t * t :=
  match tasks s !! taskId, agents s !! agentId with
  | Some task, Some agent =>
      if bool_decide (Task.status task ≠ pending) then (None, s)
      else if bool_decide (AgentInfo.status agent ≠ idle) then (None, s)
      else
        match passDependencies s task with
        | None => (None, s)
        | Some task1 =>
            let checked := fileConflicts (lockManager s) task1 agentId now in
            if nonempty checked.1 then
              (None,
               mk (config s) (agents s) (<[taskId := task1]> (tasks s))
                  (taskQueue s) (completedTasks s) checked.2)
            else
              let task2 := markAssigned (config s) task1 taskId agentId now in
              (Some task2,
               mk (config s) (<[agentId := markWorking agent taskId task2]> (agents s))
                  (<[taskId := task2]> (tasks s))
                  (remove_first taskId (taskQueue s)) (completedTasks s)
                  (lockTargetFiles checked.2 task2 taskId agentId now))
        end
  | _, _ => (None, s)
  end.

(** [unregisterAgent] *)
Definition unregisterAgent (s : t) (agentId : string) : t :=
  match agents s !! agentId with
  | None => s
  | Some agent =>
      let s1 :=
        set_lockManager (LockManager.releaseAllLocks (lockManager s) agentId).2 s in
      let s2 :=
        match truthy (AgentInfo.currentTask agent) with
        | Some taskId => unassignTask s1 taskId
        | None => s1
        end in
      set_agents (delete agentId (agents s2)) s2
  end.

(** [handleAgentMessage]: the switch on [message.type].  The envelope
    [id] is not read. *)
Definition handleAgentMessage (s : t) (agentId : string) (message : Message.t)
    (now : Z) : t :=
  match Message.body message with
  | AGENT_HEARTBEAT status progress => updateHeartbeat s agentId status now
  | TASK_UPDATE _ => s
  | TASK_COMPLETE taskId result => completeTask s taskId agentId result now
  | TASK_FAILED taskId err => failTask s taskId agentId err now
  | LOCK_REQUEST request =>
      set_lockManager (LockManager.acquireLocks (lockManager s) request now).2 s
  | LOCK_RELEASE paths =>
      set_lockManager (LockManager.releaseLocks (lockManager s) agentId paths).2 s
  | AGENT_DISCONNECT => unregisterAgent s agentId
  | OTHER_MESSAGE => s
  end.

(** What [handleAgentMessage] sends: the answer to a [LOCK_REQUEST]
    goes into the inbox of the sender, with the id of the envelope as
    its [correlationId]; no other branch sends a message. *)
Definition handleAgentMessage_sent (s : t) (agentId : string) (message : Message.t)
    (now : Z) : list Outbound.t :=
  match Message.body message with
  | LOCK_REQUEST request =>
      let lockResult := (LockManager.acquireLocks (lockManager s) request now).1 in
      [Outbound.mk agentId (LOCK_RESPONSE lockResult) (Some agentId)
         (Some (Message.id message))]
  | _ => []
  end.

(** The body of the loop of [checkAgentHeartbeats] for the agent stored
    under [key].  [unassignTask] is called without [await]; its writes to
    the state all precede its first [await], so they are done when the
    call returns. *)
Definition heartbeatStep (now : Z) (s : t) (key : string) : t :=
  match agents s !! key with
  | None => s
  | Some agent =>
      let timeSinceHeartbeat := now - AgentInfo.lastHeartbeat agent in
      if bool_decide (timeSinceHeartbeat > ServerConfig.heartbeatTimeout (config s))
      then
        let s1 :=
          set_agents (<[key := AgentInfo.set_status offline agent]> (agents s)) s in
        let s2 :=
          match truthy (AgentInfo.currentTask agent) with
          | Some taskId => unassignTask s1 taskId
          | None => s1
          end in
        set_lockManager
          (LockManager.releaseAllLocks (lockManager s2) (AgentInfo.id agent)).2 s2
      else s
  end.

(** [checkAgentHeartbeats], visiting the agents in the order [keys]
    ([Object.values] yields insertion order, which the map does not
    record). *)
Definition checkAgentHeartbeats_in (keys : list string) (s : t) (now : Z) : t :=
  foldl (heartbeatStep now) s keys.

(** [checkAgentHeartbeats] in the order the map lists its keys. *)
Definition checkAgentHeartbeats (s : t) (now : Z) : t :=
  checkAgentHeartbeats_in (map_to_list (agents s)).*1 s now.

(** The body of the loop of [cleanupDisconnectedAgents] for the entry
    stored under [agentId]: an agent silent for more than five minutes
    is deleted and the locks held in its name are released. *)
Definition cleanupStep (now : Z) (s : t) (agentId : string) : t :=
  match agents s !! agentId with
  | None => s
  | Some agent =>
      let timeSinceHeartbeat := now - AgentInfo.lastHeartbeat agent in
      if bool_decide (timeSinceHeartbeat > 300000) then
        let s1 := set_agents (delete agentId (agents s)) s in
        set_lockManager (LockManager.releaseAllLocks (lockManager s1) agentId).2 s1
      else s
  end.

(** [cleanupDisconnectedAgents], visiting the entries in the order [keys]
    ([Object.entries] yields insertion order, which the map does not
    record). *)
Definition cleanupDisconnectedAgents_in (keys : list string) (s : t) (now : Z) : t :=
  foldl (cleanupStep now) s keys.

(** [cleanupDisconnectedAgents] in the order the map lists its keys. *)
Definition cleanupDisconnectedAgents (s : t) (now : Z) : t :=
  cleanupDisconnectedAgents_in (map_to_list (agents s)).*1 s now.

(** ** The auto-assignment pass *)

(** [priorityOrder] *)
Definition priorityOrder (p : TaskPriority) : Z :=
  match p with
  | critical => 0
  | high => 1
  | normal => 2
  | low => 3
  end.

(** [Array.prototype.sort] with the comparator [(a, b) => rank a - rank b]
    is a stable sort; here as an insertion sort that puts each element
    behind the elements of at most its rank. *)
Fixpoint insertByRank (rank : string → Z) (x : string) (l : list string) : list string :=
  match l with
  | [] => [x]
  | y :: l' =>
      if bool_decide (rank y ≤ rank x) then y :: insertByRank rank x l'
      else x :: y :: l'
  end.

Definition sortByRank (rank : string → Z) (l : list string) : list string :=
  foldl (λ acc x, insertByRank rank x acc) [] l.

(** The entries of the queue that [getPendingTasks] keeps, as ids: the
    array it returns holds the task objects stored under these ids, which
    are the objects of the state, not copies. *)
Definition pendingKeys (s : t) : list string :=
  filter (λ id, Task.status <$> tasks s !! id = Some pending) (taskQueue s).

(** The rank of the task stored under an id. *)
Definition taskRank (s : t) (key : string) : Z :=
  match tasks s !! key with
  | Some task => priorityOrder (Task.priority task)
  | None => 0
  end.

(** [getIdleAgents], as the keys of the idle agents among [agentKeys]
    ([Object.values] order). *)
Definition idleAgentKeys (agentKeys : list string) (s : t) : list string :=
  filter (λ key, AgentInfo.status <$> agents s !! key = Some idle) agentKeys.

(** [task.blockedBy && task.blockedBy.length > 0] *)
Definition hasBlockers (task : Task.t) : bool :=
  match Task.blockedBy task with
  | Some b => nonempty b
  | None => false
  end.

(** The inner loop of [autoAssignTasks] for one agent: [before] holds the
    entries of [pendingTasks] already passed over and [rest] the entries
    from index [i] on.  [clock n] is the time of the [n]-th call of
    [assignTask] in the pass.  The result is the number of calls made so
    far, the state and [pendingTasks] after the loop.  An id without a
    task cannot occur, tasks never being deleted; it is passed over. *)
Fixpoint tryTasks (clock : nat → Z) (agentId : string) (n : nat) (s : t)
    (before rest : list string) : nat * t * list string :=
  match rest with
  | [] => (n, s, before)
  | key :: rest' =>
      match tasks s !! key with
      | None => tryTasks clock agentId n s (before ++ [key]) rest'
      | Some task =>
          if hasBlockers task then tryTasks clock agentId n s (before ++ [key]) rest'
          else
            let out := assignTask s (Task.id task) agentId (clock n) in
            match out.1 with
            | Some _ => (S n, out.2, before ++ rest')
            | None => tryTasks clock agentId (S n) out.2 (before ++ [key]) rest'
            end
      end
  end.

(** One round of the outer loop: nothing happens once [pendingTasks] is
    empty ([break]). *)
Definition autoAssignStep (clock : nat → Z) (acc : nat * t * list string)
    (agentKey : string) : nat * t * list string :=
  let '(n, s, pendingTasks) := acc in
  match pendingTasks with
  | [] => acc
  | _ :: _ =>
      match agents s !! agentKey with
      | Some agent => tryTasks clock (AgentInfo.id agent) n s [] pendingTasks
      | None => acc
      end
  end.

(** [autoAssignTasks], the agents being listed in the order [agentKeys].
    No other operation runs between its steps. *)
Definition autoAssignTasks_in (agentKeys : list string) (clock : nat → Z) (s : t) : t :=
  let idleAgents := idleAgentKeys agentKeys s in
  let pendingTasks := sortByRank (taskRank s) (pendingKeys s) in
  (foldl (autoAssignStep clock) (0%nat, s, pendingTasks) idleAgents).1.2.
End with_paths.

End TaskServer.

(** * Vocabulary of the properties *)

(** The status of the task stored under [id], if any. *)
Definition statusOf (s : TaskServer.t) (id : string) : option TaskStatus :=
  Task.status <$> TaskServer.tasks s !! id.

Section vocabulary.
Context `{PathApi}.
Implicit Types (lm : LockManager.t) (m : gmap string FileLock.t).
Implicit Types (req : LockRequest.t) (now : Z) (p k : string).
Implicit Types (s : TaskServer.t) (tid aid : string).

(** A path is turned down when the table it is checked against holds an
    incompatible lock of another agent under its normalized form. *)
Definition turnedDown lm req m p : Prop :=
  LockManager.refuses req (m !! LockManager.normalizePath lm p).

#[global] Instance turnedDown_dec lm req m p : Decision (turnedDown lm req m p).
Proof. unfold turnedDown. apply _. Defined.

(** The table after granting every path of [ps]. *)
Definition grantAll lm req now m (ps : list string) : gmap string FileLock.t :=
  foldl (λ m' p,
           <[LockManager.normalizePath lm p :=
               LockManager.newLock lm req now (LockManager.normalizePath lm p)]> m')
        m ps.

(** The conflict descriptor recorded for a path that is turned down. *)
Definition conflictOf lm m p : option Conflict.t :=
  (λ l, Conflict.mk p (FileLock.agentId l)) <$> m !! LockManager.normalizePath lm p.

(** The refusals of [assignTask] that are decided before the target
    files are looked at: unknown task or agent, task not pending, agent
    not idle, unmet dependency. *)
Definition refusedEarly s tid aid : Prop :=
  match TaskServer.tasks s !! tid, TaskServer.agents s !! aid with
  | Some task, Some agent =>
      Task.status task ≠ pending
      ∨ AgentInfo.status agent ≠ idle
      ∨ TaskServer.passDependencies s task = None
  | _, _ => True
  end.

(** The envelopes whose second handling is absorbed: those of the
    types that change nothing or undo nothing when repeated, a
    [TASK_FAILED] unless it comes from the assignee of a task that is
    out of attempts, a [TASK_COMPLETE] that does not come from the
    assignee of the task, and a heartbeat of an unregistered sender. *)
Definition absorbedOnRepeat s aid (message : Message.t) : Prop :=
  match Message.body message with
  | TASK_UPDATE _ | LOCK_RELEASE _ | AGENT_DISCONNECT | OTHER_MESSAGE => True
  | TASK_FAILED tid _ =>
      ∀ task, TaskServer.tasks s !! tid = Some task →
              Task.assignedAgent task = Some aid →
              Task.attempts task < Task.maxAttempts task
  | TASK_COMPLETE tid _ =>
      ∀ task, TaskServer.tasks s !! tid = Some task →
              Task.assignedAgent task ≠ Some aid
  | AGENT_HEARTBEAT _ _ => TaskServer.agents s !! aid = None
  | LOCK_REQUEST _ => False
  end.

(** [this.state.tasks[d]] is truthy: a task is stored under [d], or [d]
    names a member of [Object.prototype]. *)
Definition hasEntry (m : gmap string Task.t) (d : string) : Prop :=
  is_Some (m !! d) ∨ isPrototypeName d = true.

(** The envelopes that cannot move a completed task to another status:
    all but a [TASK_FAILED] that names a completed task. *)
Definition sparesCompleted s (body : MessageBody) : Prop :=
  match body with
  | TASK_FAILED tid _ => statusOf s tid ≠ Some completed
  | _ => True
  end.

(** States reached from a fresh coordinator by the operations of the
    server, in any order and with any arguments, where
    - agents register under a non-empty id,
    - a task is created under a fresh id (as [generateTaskId] gives),
      each id of its [dependsOn] being found in [state.tasks],
    - [startTask], [failTask] and [unassignTask], called directly or
      through a [TASK_FAILED] envelope, are not applied to a completed
      task. *)
Inductive reachable : TaskServer.t → Prop :=
| reach_new config :
    reachable (TaskServer.new_ config)
| reach_registerAgent s aid info now :
    reachable s → aid ≠ EmptyString →
    reachable (TaskServer.registerAgent s aid info now).2
| reach_unregisterAgent s aid :
    reachable s → reachable (TaskServer.unregisterAgent s aid)
| reach_updateHeartbeat s aid status now :
    reachable s → reachable (TaskServer.updateHeartbeat s aid status now)
| reach_createTask s tid options now :
    reachable s →
    TaskServer.tasks s !! tid = None →
    (∀ deps d, TaskCreateOptions.dependsOn options = Some deps → d ∈ deps →
               hasEntry (TaskServer.tasks s) d) →
    reachable (TaskServer.createTask s tid options now).2
| reach_assignTask s tid aid now :
    reachable s → reachable (TaskServer.assignTask s tid aid now).2
| reach_startTask s tid aid now :
    reachable s → statusOf s tid ≠ Some completed →
    reachable (TaskServer.startTask s tid aid now)
| reach_completeTask s tid aid result now :
    reachable s → reachable (TaskServer.completeTask s tid aid result now)
| reach_failTask s tid aid err now :
    reachable s → statusOf s tid ≠ Some completed →
    reachable (TaskServer.failTask s tid aid err now)
| reach_unassignTask s tid :
    reachable s → statusOf s tid ≠ Some completed →
    reachable (TaskServer.unassignTask s tid)
| reach_message s aid message now :
    reachable s → sparesCompleted s (Message.body message) →
    reachable (TaskServer.handleAgentMessage s aid message now)
| reach_checkAgentHeartbeats s keys now :
    reachable s → reachable (TaskServer.checkAgentHeartbeats_in keys s now)
| reach_cleanupDisconnectedAgents s keys now :
    reachable s → reachable (TaskServer.cleanupDisconnectedAgents_in keys s now)
| reach_autoAssignTasks s agentKeys clock :
    reachable s → reachable (TaskServer.autoAssignTasks_in agentKeys clock s).

(** The invariant behind the gate: a pending task has no assignee, and
    each dependency of a task names a completed task or, while the task
    is pending, is found in [state.tasks] and listed in its
    [blockedBy]. *)
Definition gated (m : gmap string Task.t) : Prop :=
  ∀ id task, m !! id = Some task →
    (Task.status task = pending → Task.assignedAgent task = None)
    ∧ ∀ deps d, Task.dependsOn task = Some deps → d ∈ deps →
        Task.status <$> m !! d = Some completed
        ∨ (hasEntry m d ∧ Task.status task = pending
           ∧ ∃ b, Task.blockedBy task = Some b ∧ d ∈ b).

(** The current task of an agent, if it has one, is assigned to it and
    not completed. *)
Definition heldBy (m : gmap string Task.t) (a : string) (agent : AgentInfo.t) : Prop :=
  ∀ tid, truthy (AgentInfo.currentTask agent) = Some tid →
         ∃ task, m !! tid = Some task
                 ∧ Task.assignedAgent task = Some a
                 ∧ Task.status task ≠ completed.

Definition held s : Prop :=
  map_Forall (heldBy (TaskServer.tasks s)) (TaskServer.agents s).

(** What the operations of [reachable] maintain. *)
Definition coherent s : Prop :=
  gated (TaskServer.tasks s)
  ∧ held s
  ∧ TaskServer.agents s !! EmptyString = None.
End vocabulary.

(** ** A concrete [path] module for the examples

    POSIX [path.isAbsolute] tests the first character.  [path.relative]
    belongs to Node, not to this repository; the instance below covers a
    target below the root (the root and a slash are stripped).  Every
    example in this file uses relative paths, for which [normalizePath]
    does not call it. *)

Definition posix_isAbsolute (p : string) : bool :=
  match p with
  | String "/"%char _ => true
  | _ => false
  end.

Fixpoint strip_prefix (pre s : string) : option string :=
  match pre, s with
  | EmptyString, _ => Some s
  | String a pre', String b s' =>
      if Ascii.eqb a b then strip_prefix pre' s' else None
  | String _ _, EmptyString => None
  end.

Definition posix_relative_below (from to : string) : string :=
  default to (strip_prefix (from +:+ "/") to).

Definition posix : PathApi :=
  {| isAbsolute := posix_isAbsolute; relative := posix_relative_below |}.

(** ** Inputs of the concrete runs *)

Section example_inputs.
#[local] Existing Instance posix.

(** B holds a write lock on [y] until 5000. *)
Definition lockB_y : FileLock.t := FileLock.mk "y" "B" "tB" 0 5000 write.

Definition lm_B_y : LockManager.t :=
  LockManager.mk {["y" := lockB_y]} {["y" := lockB_y]} "/proj" 300000.

(** A asks for write locks on [x] and [y]. *)
Definition reqA_xy : LockRequest.t := LockRequest.mk "A" "tA" ["x"; "y"] write None.

(** A read lock of B on [x]; A asks to read [x] as well. *)
Definition lockB_x_read : FileLock.t := FileLock.mk "x" "B" "tB" 0 5000 read.

Definition lm_B_reads_x : LockManager.t :=
  LockManager.mk {["x" := lockB_x_read]} {["x" := lockB_x_read]} "/proj" 300000.

Definition reqA_read_x : LockRequest.t := LockRequest.mk "A" "tA" ["x"] read (Some 60000).

Definition cfg : ServerConfig.t := ServerConfig.DEFAULT_CONFIG "/proj".

Definition noInfo : AgentRegistration.t := AgentRegistration.mk None None None.

Definition result0 : TaskResult.t := TaskResult.mk true "done" [] [] [].

(** One agent, one task on file [x], assigned at time 2, completed at 10. *)
Definition st_A : TaskServer.t :=
  (TaskServer.registerAgent (TaskServer.new_ cfg) "A1" noInfo 0).2.

Definition optX : TaskCreateOptions.t :=
  TaskCreateOptions.mk "X" None None (Some ["x"]) None None None.

Definition st_t1 : TaskServer.t := (TaskServer.createTask st_A "t1" optX 1).2.

Definition st_assigned : TaskServer.t := (TaskServer.assignTask st_t1 "t1" "A1" 2).2.

Definition st_done : TaskServer.t := TaskServer.completeTask st_assigned "t1" "A1" result0 10.

Definition msg_complete : Message.t :=
  Message.mk "1700000000000-abc" 5 "A1" (TASK_COMPLETE "t1" result0).

Definition msg_failed : Message.t :=
  Message.mk "1700000000001-abd" 6 "A1" (TASK_FAILED "t1" "boom").

(** A task that depends on an id no task has. *)
Definition optGhost : TaskCreateOptions.t :=
  TaskCreateOptions.mk "C" None None None None (Some ["ghost"]) None.

Definition st_ghost : TaskServer.t :=
  TaskServer.completeTask
    (TaskServer.assignTask (TaskServer.createTask st_A "c1" optGhost 1).2 "c1" "A1" 2).2
    "c1" "A1" result0 3.

(** [p], then [c] depending on [p]; both run to completion in order. *)
Definition optP : TaskCreateOptions.t :=
  TaskCreateOptions.mk "P" None None None None None None.

Definition optC : TaskCreateOptions.t :=
  TaskCreateOptions.mk "C" None None None None (Some ["p"]) None.

Definition st_p : TaskServer.t := (TaskServer.createTask st_A "p" optP 1).2.

Definition st_pc : TaskServer.t := (TaskServer.createTask st_p "c" optC 2).2.

Definition st_pc_done : TaskServer.t :=
  TaskServer.completeTask
    (TaskServer.assignTask
       (TaskServer.completeTask (TaskServer.assignTask st_pc "p" "A1" 3).2 "p" "A1" result0 4)
       "c" "A1" 5).2
    "c" "A1" result0 6.

(** An agent registered under the empty id takes [p] and loses it by
    [unassignTask], which does not reset an assignee whose id is falsy;
    B then completes [p] and [c], and the heartbeat check finds the agent
    silent with [p] still as its current task. *)
Definition st_nameless : TaskServer.t :=
  let s1 := (TaskServer.registerAgent (TaskServer.new_ cfg) EmptyString noInfo 0).2 in
  let s2 := (TaskServer.createTask s1 "p" optP 1).2 in
  let s3 := TaskServer.unassignTask (TaskServer.assignTask s2 "p" EmptyString 2).2 "p" in
  let s4 := (TaskServer.registerAgent s3 "B" noInfo 3).2 in
  let s5 := TaskServer.completeTask (TaskServer.assignTask s4 "p" "B" 4).2 "p" "B" result0 5 in
  let s6 := (TaskServer.createTask s5 "c" optC 6).2 in
  let s7 := TaskServer.completeTask (TaskServer.assignTask s6 "c" "B" 7).2 "c" "B" result0 8 in
  TaskServer.checkAgentHeartbeats_in [EmptyString] s7 100000.


(** B takes a short lock on [y] and a default lock on [x]; then a task
    on [x] is created. *)
Definition st_B_locks : TaskServer.t :=
  let s1 := (TaskServer.registerAgent st_A "B" noInfo 0).2 in
  let s2 :=
    TaskServer.handleAgentMessage s1 "B"
      (Message.mk "m1" 0 "B" (LOCK_REQUEST (LockRequest.mk "B" "tB" ["y"] write (Some 10))))
      0 in
  let s3 :=
    TaskServer.handleAgentMessage s2 "B"
      (Message.mk "m2" 0 "B" (LOCK_REQUEST (LockRequest.mk "B" "tB" ["x"] write None)))
      0 in
  (TaskServer.createTask s3 "t1" optX 1).2.
End example_inputs.

(** * Configuration ([src/shared/config.ts]) *)

(** [parseInt] with one argument; [None] is [NaN].  Of the function
    itself only [parseInt('')], which is [NaN], is used. *)
Class NumberApi := {
  parseInt : string → option Z;
  parseInt_empty : parseInt EmptyString = None;
}.

(** A [Partial<ServerConfig>]: what a configuration file may give, its
    fields being of the declared types. *)
Module PartialConfig.
Record t := mk {
  projectPath : option string;
  maxAgents : option Z;
  heartbeatInterval : option Z;
  heartbeatTimeout : option Z;
  lockTimeout : option Z;
  taskTimeout : option Z;
  autoAssign : option bool;
  gitIntegration : option bool;
  branchPrefix : option string;
  stateFile : option string;
  logFile : option string;
}.

(** [{ ...fileConfig, projectPath: root }] *)
Definition set_projectPath (v : option string) (c : t) : t :=
  mk v (maxAgents c) (heartbeatInterval c) (heartbeatTimeout c) (lockTimeout c)
     (taskTimeout c) (autoAssign c) (gitIntegration c) (branchPrefix c)
     (stateFile c) (logFile c).
End PartialConfig.

Module Config.

(** The [ServerConfig] of [config.ts]: the fields the task server reads
    and the names of the two files. *)
Record t := mk {
  server : ServerConfig.t;
  stateFile : string;
  logFile : string;
}.

Section with_numbers.
Context `{NumberApi}.

(** [parseInt(process.env.NAME || '')] *)
Definition envNumber (env : gmap string string) (name : string) : option Z :=
  parseInt (string_or (env !! name) EmptyString).

(** [loadConfigFromEnv], [process.env] and [process.cwd()] being inputs.
    A field that the literal does not list after the two spreads is the
    one of [baseConfig] when it has one and the default otherwise. *)
Definition loadConfigFromEnv (cwd : string) (env : gmap string string)
    (baseConfig : PartialConfig.t) : t :=
  let d := ServerConfig.DEFAULT_CONFIG cwd in
  mk (ServerConfig.mk
        (string_or (env !! "AGENT_PROJECT_PATH")
           (string_or (PartialConfig.projectPath baseConfig)
              (ServerConfig.projectPath d)))
        (number_or (envNumber env "AGENT_MAX_AGENTS")
           (number_or (PartialConfig.maxAgents baseConfig) (ServerConfig.maxAgents d)))
        (number_or (envNumber env "AGENT_HEARTBEAT_INTERVAL")
           (ServerConfig.heartbeatInterval d))
        (number_or (envNumber env "AGENT_HEARTBEAT_TIMEOUT")
           (ServerConfig.heartbeatTimeout d))
        (default (ServerConfig.lockTimeout d) (PartialConfig.lockTimeout baseConfig))
        (default (ServerConfig.taskTimeout d) (PartialConfig.taskTimeout baseConfig))
        (bool_decide (env !! "AGENT_AUTO_ASSIGN" ≠ Some "false"))
        (bool_decide (env !! "AGENT_GIT_INTEGRATION" ≠ Some "false"))
        (string_or (env !! "AGENT_BRANCH_PREFIX") (ServerConfig.branchPrefix d)))
     (default ".agent-coordinator/state.json" (PartialConfig.stateFile baseConfig))
     (default ".agent-coordinator/coordinator.log" (PartialConfig.logFile baseConfig)).

(** [loadConfig]: [found] is what [findProjectRoot()] returns and
    [fileConfig] what [loadConfigFromFile] reads under the root. *)
Definition loadConfig (cwd : string) (env : gmap string string)
    (projectPath : option string) (found : string)
    (fileConfig : string → PartialConfig.t) : t :=
  let root := string_or projectPath found in
  loadConfigFromEnv cwd env (PartialConfig.set_projectPath (Some root) (fileConfig root)).
End with_numbers.

End Config.

(** ** [parseInt] on ASCII strings

    Leading white space, a sign, the prefix [0x] and the longest run of
    digits of the radix, as the language defines it; exact, where
    JavaScript rounds beyond 2^53. *)

Definition isWhite (c : ascii) : bool :=
  let n := N_of_ascii c in
  ((9 <=? n) && (n <=? 13) || (n =? 32))%N.

Fixpoint trimStart (s : string) : string :=
  match s with
  | String c s' => if isWhite c then trimStart s' else s
  | EmptyString => EmptyString
  end.

Definition digitValue (radix : N) (c : ascii) : option N :=
  let n := N_of_ascii c in
  let v :=
    if ((48 <=? n) && (n <=? 57))%N then Some (n - 48)%N
    else if ((97 <=? n) && (n <=? 122))%N then Some (n - 87)%N
    else if ((65 <=? n) && (n <=? 90))%N then Some (n - 55)%N
    else None in
  match v with
  | Some d => if (d <? radix)%N then Some d else None
  | None => None
  end.

Fixpoint digitsValue (radix : N) (s : string) (acc : option N) : option N :=
  match s with
  | String c s' =>
      match digitValue radix c with
      | Some d => digitsValue radix s' (Some (default 0 acc * radix + d)%N)
      | None => acc
      end
  | EmptyString => acc
  end.

Definition parseIntAscii (s : string) : option Z :=
  let s1 := trimStart s in
  let signed :=
    match s1 with
    | String c r =>
        if Ascii.eqb c "-" then (true, r)
        else if Ascii.eqb c "+" then (false, r)
        else (false, s1)
    | EmptyString => (false, s1)
    end in
  let based :=
    match signed.2 with
    | String c (String x r) =>
        if Ascii.eqb c "0" && (Ascii.eqb x "x" || Ascii.eqb x "X") then (16%N, r)
        else (10%N, signed.2)
    | _ => (10%N, signed.2)
    end in
  match digitsValue based.1 based.2 None with
  | Some n => Some (if signed.1 then - Z.of_N n else Z.of_N n)
  | None => None
  end.

Definition asciiNumbers : NumberApi :=
  {| parseInt := parseIntAscii; parseInt_empty := eq_refl |}.

(** * Vocabulary of the further properties *)

(** Every lock is stored under its own [path] field. *)
Definition keyed (m : gmap string FileLock.t) : Prop :=
  ∀ k l, m !! k = Some l → FileLock.path l = k.

(** A list of task ids is in the order of a rank when no entry is
    followed by one of a smaller rank. *)
Fixpoint rankSorted (rank : string → Z) (l : list string) : Prop :=
  match l with
  | [] => True
  | x :: l' => Forall (λ y, rank x ≤ rank y) l' ∧ rankSorted rank l'
  end.

(** The entries of a list of task ids whose task has no blocker left
    ([blockedBy] absent or empty): the ones the auto-assignment pass
    tries to hand out. *)
Definition eligibleKeys (s : TaskServer.t) (l : list string) : list string :=
  filter (λ k, TaskServer.hasBlockers <$> TaskServer.tasks s !! k = Some false) l.

(** A pending task without target files, stored under its own id. *)
Definition plainPending (s : TaskServer.t) (k : string) : Prop :=
  ∃ task, TaskServer.tasks s !! k = Some task
          ∧ Task.id task = k
          ∧ Task.status task = pending
          ∧ Task.targetFiles task = None.

(** An idle agent, stored under its own id. *)
Definition idleAt (s : TaskServer.t) (a : string) : Prop :=
  ∃ agent, TaskServer.agents s !! a = Some agent
           ∧ AgentInfo.id agent = a
           ∧ AgentInfo.status agent = idle.

(** Task [k] is assigned to agent [a], who is working on it. *)
Definition assignedTo (s : TaskServer.t) (k a : string) : Prop :=
  ∃ task agent, TaskServer.tasks s !! k = Some task
                ∧ Task.status task = assigned
                ∧ Task.assignedAgent task = Some a
                ∧ TaskServer.agents s !! a = Some agent
                ∧ AgentInfo.status agent = working
                ∧ AgentInfo.currentTask agent = Some k.

(** ** Well-formed states *)

(** A task stored under [k] carries [k] as its id and the three
    attempts of [createTask], and is blocked only by dependencies. *)
Definition taskOk (k : string) (task : Task.t) : Prop :=
  Task.id task = k
  ∧ Task.maxAttempts task = 3
  ∧ 0 ≤ Task.attempts task
  ∧ ∀ b d, Task.blockedBy task = Some b → d ∈ b →
           ∃ deps, Task.dependsOn task = Some deps ∧ d ∈ deps.

(** An agent stored under [a] carries [a] as its id, and its current
    task, if any, exists. *)
Definition agentOk (m : gmap string Task.t) (a : string) (agent : AgentInfo.t) : Prop :=
  AgentInfo.id agent = a
  ∧ 0 ≤ AgentInfo.completedTasks agent
  ∧ 0 ≤ AgentInfo.failedTasks agent
  ∧ ∀ tid, AgentInfo.currentTask agent = Some tid → is_Some (m !! tid).

(** Every entry of a list of ids names a task. *)
Definition namesTasks (l : list string) (m : gmap string Task.t) : Prop :=
  ∀ k, k ∈ l → is_Some (m !! k).

(** The lock manager of a server with configuration [config]. *)
Definition managerOk (config : ServerConfig.t) (lm : LockManager.t) : Prop :=
  keyed (LockManager.locks lm)
  ∧ LockManager.projectPath lm = ServerConfig.projectPath config
  ∧ LockManager.defaultTimeout lm = ServerConfig.lockTimeout config.

Definition wellFormed (s : TaskServer.t) : Prop :=
  map_Forall taskOk (TaskServer.tasks s)
  ∧ map_Forall (agentOk (TaskServer.tasks s)) (TaskServer.agents s)
  ∧ namesTasks (TaskServer.taskQueue s) (TaskServer.tasks s)
  ∧ namesTasks (TaskServer.completedTasks s) (TaskServer.tasks s)
  ∧ managerOk (TaskServer.config s) (TaskServer.lockManager s).

Section runs.
Context `{PathApi}.

(** The states a coordinator goes through: a fresh one, and the result
    of any operation on one of them, with any arguments. *)
Inductive run : TaskServer.t → Prop :=
| run_new config :
    run (TaskServer.new_ config)
| run_registerAgent s aid info now :
    run s → run (TaskServer.registerAgent s aid info now).2
| run_unregisterAgent s aid :
    run s → run (TaskServer.unregisterAgent s aid)
| run_updateHeartbeat s aid status now :
    run s → run (TaskServer.updateHeartbeat s aid status now)
| run_createTask s tid options now :
    run s → run (TaskServer.createTask s tid options now).2
| run_assignTask s tid aid now :
    run s → run (TaskServer.assignTask s tid aid now).2
| run_startTask s tid aid now :
    run s → run (TaskServer.startTask s tid aid now)
| run_completeTask s tid aid result now :
    run s → run (TaskServer.completeTask s tid aid result now)
| run_failTask s tid aid err now :
    run s → run (TaskServer.failTask s tid aid err now)
| run_unassignTask s tid :
    run s → run (TaskServer.unassignTask s tid)
| run_message s aid message now :
    run s → run (TaskServer.handleAgentMessage s aid message now)
| run_checkAgentHeartbeats s keys now :
    run s → run (TaskServer.checkAgentHeartbeats_in keys s now)
| run_cleanupDisconnectedAgents s keys now :
    run s → run (TaskServer.cleanupDisconnectedAgents_in keys s now)
| run_autoAssignTasks s agentKeys clock :
    run s → run (TaskServer.autoAssignTasks_in agentKeys clock s).
End runs.

(** ** Inputs of the further concrete runs *)

Section more_example_inputs.
#[local] Existing Instance posix.

(** A holds a write lock on [x] until 5000 beside B's lock on [y]. *)
Definition lockA_x : FileLock.t := FileLock.mk "x" "A" "tA" 0 5000 write.

Definition lm_A_x_B_y : LockManager.t :=
  LockManager.mk {["x" := lockA_x; "y" := lockB_y]} ∅ "/proj" 300000.
(** Two idle agents; a low task, a high task that waits for it and a
    critical task, queued in this order. *)
Definition st_two_agents : TaskServer.t :=
  (TaskServer.registerAgent st_A "A2" noInfo 0).2.

Definition optLow : TaskCreateOptions.t :=
  TaskCreateOptions.mk "L" None (Some low) None None None None.

Definition optAfterLow : TaskCreateOptions.t :=
  TaskCreateOptions.mk "D" None (Some high) None None (Some ["lo"]) None.

Definition optCritical : TaskCreateOptions.t :=
  TaskCreateOptions.mk "K" None (Some critical) None None None None.

Definition st_three_tasks : TaskServer.t :=
  (TaskServer.createTask
     (TaskServer.createTask
        (TaskServer.createTask st_two_agents "lo" optLow 1).2 "dep" optAfterLow 2).2
     "hi" optCritical 3).2.

(** A task that depends on the pending [p], on an id that no task has
    and on the name of a member of [Object.prototype]. *)
Definition optMixed : TaskCreateOptions.t :=
  TaskCreateOptions.mk "M" None None None None (Some ["p"; "ghost"; "constructor"]) None.

(** A1 asks for a lock on [z] in the name of B and its task. *)
Definition msg_lock_for_B : Message.t :=
  Message.mk "1700000000002-abe" 7 "A1"
    (LOCK_REQUEST (LockRequest.mk "B" "tB" ["z"] write None)).

(** The [n]-th call of [assignTask] in a pass runs at time [10 + n]. *)
Definition clock10 (n : nat) : Z := 10 + Z.of_nat n.

(** A configuration file that sets what [loadConfigFromEnv] does not
    read from it, and an environment that sets the number of agents. *)
Definition fileHeartbeat : PartialConfig.t :=
  PartialConfig.mk None (Some 4) (Some 1) (Some 2) (Some 1000) None (Some false)
    (Some false) (Some "wip/") None None.

Definition fileBare : PartialConfig.t :=
  PartialConfig.mk None (Some 4) None None (Some 1000) None None None None None None.

Definition envAgents : gmap string string := {["AGENT_MAX_AGENTS" := "16"]}.
End more_example_inputs.

(** * Lock manager: what the loops compute *)

Section lock_manager_facts.
Context `{PathApi}.
Implicit Types (lm : LockManager.t) (m : gmap string FileLock.t).
Implicit Types (req : LockRequest.t) (now : Z) (p k : string).

Lemma lookup_sweep now m k l :
  LockManager.sweep now m !! k = Some l ↔ m !! k = Some l ∧ now ≤ FileLock.expiresAt l.
Proof.
  unfold LockManager.sweep, LockManager.expired.
  rewrite map_lookup_filter_Some. simpl. intuition lia.
Qed.

Lemma lookup_sweep_None now m k :
  LockManager.sweep now m !! k = None ↔
  ∀ l, m !! k = Some l → now > FileLock.expiresAt l.
Proof.
  unfold LockManager.sweep, LockManager.expired.
  rewrite map_lookup_filter_None. simpl. split.
  - intros [Hn | Hall] l Hl; [congruence|].
    specialize (Hall l Hl). lia.
  - intros Hall. destruct (m !! k) as [l|] eqn:Hk; [right | by left].
    intros l' [= <-]. specialize (Hall l eq_refl). lia.
Qed.

Lemma sweep_id now m :
  (∀ k l, m !! k = Some l → now ≤ FileLock.expiresAt l) →
  LockManager.sweep now m = m.
Proof.
  intros Hlive. apply map_eq. intros k.
  destruct (m !! k) as [l|] eqn:Hk.
  - apply lookup_sweep. eauto.
  - apply lookup_sweep_None. intros l. congruence.
Qed.

Lemma cleanExpiredLocks_locks lm now :
  LockManager.locks (LockManager.cleanExpiredLocks lm now).2
  = LockManager.sweep now (LockManager.locks lm).
Proof.
  unfold LockManager.cleanExpiredLocks, LockManager.saveLocks_if. simpl.
  by case_bool_decide.
Qed.

Lemma cleanExpiredLocks_projectPath lm now :
  LockManager.projectPath (LockManager.cleanExpiredLocks lm now).2
  = LockManager.projectPath lm.
Proof.
  unfold LockManager.cleanExpiredLocks, LockManager.saveLocks_if. simpl.
  by case_bool_decide.
Qed.

Lemma cleanExpiredLocks_defaultTimeout lm now :
  LockManager.defaultTimeout (LockManager.cleanExpiredLocks lm now).2
  = LockManager.defaultTimeout lm.
Proof.
  unfold LockManager.cleanExpiredLocks, LockManager.saveLocks_if. simpl.
  by case_bool_decide.
Qed.

(** Sweeping a table none of whose locks has expired changes nothing,
    not even the file on disk. *)
Lemma cleanExpiredLocks_id lm now :
  (∀ k l, LockManager.locks lm !! k = Some l → now ≤ FileLock.expiresAt l) →
  (LockManager.cleanExpiredLocks lm now).2 = lm.
Proof.
  intros Hlive. unfold LockManager.cleanExpiredLocks.
  rewrite (sweep_id _ _ Hlive). simpl.
  rewrite bool_decide_eq_false_2 by lia. by destruct lm.
Qed.

Lemma normalizePath_ext lm lm' p :
  LockManager.projectPath lm' = LockManager.projectPath lm →
  LockManager.normalizePath lm' p = LockManager.normalizePath lm p.
Proof. unfold LockManager.normalizePath. by intros ->. Qed.

Lemma lookup_grantAll lm req now m ps k :
  grantAll lm req now m ps !! k
  = if decide (k ∈ LockManager.normalizePath lm <$> ps)
    then Some (LockManager.newLock lm req now k)
    else m !! k.
Proof.
  unfold grantAll. revert m. induction ps as [|q ps IH]; intros m.
  - by rewrite decide_False by apply not_elem_of_nil.
  - cbn [foldl]. rewrite IH, fmap_cons.
    destruct (decide (k ∈ LockManager.normalizePath lm <$> ps)) as [Hin|Hout].
    + rewrite decide_True; [done | by right].
    + destruct (decide (k = LockManager.normalizePath lm q)) as [->|Hne].
      * rewrite lookup_insert_eq. rewrite decide_True; [done | by left].
      * rewrite lookup_insert_ne by done.
        rewrite decide_False; [done|].
        rewrite elem_of_cons. tauto.
Qed.

Lemma refuses_newLock lm req now k :
  LockManager.refuses req (Some (LockManager.newLock lm req now k)) = false.
Proof.
  unfold LockManager.refuses. simpl.
  by rewrite bool_decide_eq_false_2 by (intros Hne; by apply Hne).
Qed.

(** Granting paths that are not turned down does not change which paths
    are turned down. *)
Lemma refuses_grantAll lm req now m ps k :
  (∀ q, q ∈ ps → ¬ turnedDown lm req m q) →
  LockManager.refuses req (grantAll lm req now m ps !! k)
  = LockManager.refuses req (m !! k).
Proof.
  intros Hok. rewrite lookup_grantAll. case_decide as Hin; [|done].
  rewrite refuses_newLock.
  apply list_elem_of_fmap in Hin as (q & -> & Hq).
  specialize (Hok q Hq). unfold turnedDown in Hok.
  by destruct (LockManager.refuses req (m !! LockManager.normalizePath lm q)).
Qed.

(** The loop of [acquireLocks] in closed form. *)
Lemma acquire_loop lm req now m ps :
  foldl (LockManager.acquireStep lm req now) (m, [], [], []) ps
  = (grantAll lm req now m (filter (λ p, ¬ turnedDown lm req m p) ps),
     filter (λ p, ¬ turnedDown lm req m p) ps,
     filter (turnedDown lm req m) ps,
     omap (conflictOf lm m) (filter (turnedDown lm req m) ps)).
Proof.
  induction ps as [|x ps IH] using rev_ind; [done|].
  rewrite foldl_app, IH. simpl.
  rewrite !filter_app, omap_app. simpl.
  set (ok := filter (λ p, ¬ turnedDown lm req m p) ps).
  assert (Hok : ∀ q, q ∈ ok → ¬ turnedDown lm req m q).
  { intros q Hq. by apply list_elem_of_filter in Hq as [? _]. }
  pose proof (refuses_grantAll lm req now m ok (LockManager.normalizePath lm x) Hok) as Href.
  rewrite !filter_cons, !filter_nil.
  destruct (decide (turnedDown lm req m x)) as [Hx|Hx].
  - rewrite decide_False by tauto.
    unfold turnedDown in Hx. apply Is_true_true in Hx.
    rewrite Hx in Href.
    destruct (grantAll lm req now m ok !! LockManager.normalizePath lm x)
      as [l|] eqn:Hl; [|done].
    rewrite Href. simpl. rewrite !app_nil_r.
    assert (m !! LockManager.normalizePath lm x = Some l) as Hm.
    { rewrite lookup_grantAll in Hl. case_decide as Hin; [|done].
      apply list_elem_of_fmap in Hin as (q & Hq & Hin).
      specialize (Hok q Hin). unfold turnedDown in Hok.
      rewrite <- Hq, Hx in Hok. by destruct Hok. }
    unfold conflictOf. by rewrite Hm.
  - rewrite decide_True by done.
    unfold turnedDown in Hx. apply Is_true_false in Hx.
    rewrite Hx in Href. simpl. rewrite !app_nil_r.
    assert (grantAll lm req now m (ok ++ [x])
            = <[LockManager.normalizePath lm x :=
                  LockManager.newLock lm req now (LockManager.normalizePath lm x)]>
                (grantAll lm req now m ok)) as ->.
    { unfold grantAll. by rewrite foldl_app. }
    rewrite Href.
    by destruct (grantAll lm req now m ok !! LockManager.normalizePath lm x).
Qed.

(** [acquireLocks] in closed form, over the swept table. *)
Lemma acquireLocks_unfold lm req now :
  let m0 := LockManager.sweep now (LockManager.locks lm) in
  let ok := filter (λ p, ¬ turnedDown lm req m0 p) (LockRequest.paths req) in
  let ko := filter (turnedDown lm req m0) (LockRequest.paths req) in
  let cs := omap (conflictOf lm m0) ko in
  LockManager.acquireLocks lm req now
  = (LockResult.mk (negb (nonempty ko)) ok ko (if nonempty cs then Some cs else None),
     LockManager.saveLocks_if (nonempty ok)
       (LockManager.set_locks (grantAll lm req now m0 ok)
          (LockManager.cleanExpiredLocks lm now).2)).
Proof.
  intros m0 ok ko cs. unfold LockManager.acquireLocks.
  rewrite acquire_loop, cleanExpiredLocks_locks. fold m0.
  unfold LockManager.cleanExpiredLocks, LockManager.saveLocks_if.
  by case_bool_decide.
Qed.

Lemma acquireLocks_locks lm req now :
  LockManager.locks (LockManager.acquireLocks lm req now).2
  = grantAll lm req now (LockManager.sweep now (LockManager.locks lm))
      (LockResult.acquired (LockManager.acquireLocks lm req now).1).
Proof.
  rewrite acquireLocks_unfold. simpl.
  unfold LockManager.saveLocks_if. by destruct (nonempty _).
Qed.

Lemma acquireLocks_projectPath lm req now :
  LockManager.projectPath (LockManager.acquireLocks lm req now).2
  = LockManager.projectPath lm.
Proof.
  rewrite acquireLocks_unfold. simpl.
  unfold LockManager.saveLocks_if. destruct (nonempty _); simpl;
    apply cleanExpiredLocks_projectPath.
Qed.

(** A path that is turned down keeps the lock that turned it down. *)
Lemma grantAll_turnedDown lm req now m ps p :
  (∀ q, q ∈ ps → ¬ turnedDown lm req m q) →
  turnedDown lm req m p →
  grantAll lm req now m ps !! LockManager.normalizePath lm p
  = m !! LockManager.normalizePath lm p.
Proof.
  intros Hok Hp. rewrite lookup_grantAll. case_decide as Hin; [|done].
  apply list_elem_of_fmap in Hin as (q & Hq & Hin).
  destruct (Hok q Hin). unfold turnedDown in *. by rewrite <- Hq.
Qed.

Lemma turnedDown_inv lm req m p :
  turnedDown lm req m p →
  ∃ l, m !! LockManager.normalizePath lm p = Some l
       ∧ FileLock.agentId l ≠ LockRequest.agentId req
       ∧ LockManager.isCompatibleLock (FileLock.lockType l) (LockRequest.lockType req)
         = false.
Proof.
  unfold turnedDown, LockManager.refuses.
  destruct (m !! LockManager.normalizePath lm p) as [l|]; [|done].
  intros [Ha Hc]%andb_prop_elim. exists l. split; [done|]. split.
  - by apply bool_decide_unpack in Ha.
  - by apply negb_prop_elim, Is_true_false in Hc.
Qed.

(** The loop of [releaseLocks]: exactly the requested keys that the agent
    owns disappear. *)
Lemma release_loop_lookup lm a ps m rel k :
  (foldl (LockManager.releaseStep lm a) (m, rel) ps).1 !! k
  = match m !! k with
    | Some l =>
        if decide (k ∈ LockManager.normalizePath lm <$> ps ∧ FileLock.agentId l = a)
        then None else Some l
    | None => None
    end.
Proof.
  revert m rel. induction ps as [|x ps IH]; intros m rel.
  - simpl. by destruct (m !! k).
  - cbn [foldl]. rewrite fmap_cons. unfold LockManager.releaseStep at 2.
    destruct (m !! LockManager.normalizePath lm x) as [lx|] eqn:Hx.
    + case_bool_decide as Hown.
      * rewrite IH.
        destruct (decide (k = LockManager.normalizePath lm x)) as [->|Hne].
        -- rewrite lookup_delete_eq, Hx.
           rewrite decide_True; [done|]. split; [by left | done].
        -- rewrite lookup_delete_ne by done.
           destruct (m !! k) as [l|]; [|done].
           apply decide_ext. rewrite elem_of_cons. tauto.
      * rewrite IH. destruct (m !! k) as [l|] eqn:Hk; [|done].
        apply decide_ext. rewrite elem_of_cons.
        split; [tauto|]. intros [[->|Hin] Ha]; [|tauto].
        congruence.
    + rewrite IH. destruct (m !! k) as [l|] eqn:Hk; [|done].
      apply decide_ext. rewrite elem_of_cons.
      split; [tauto|]. intros [[->|Hin] Ha]; [|tauto].
      congruence.
Qed.

Lemma releaseLocks_locks lm a ps :
  LockManager.locks (LockManager.releaseLocks lm a ps).2
  = (foldl (LockManager.releaseStep lm a) (LockManager.locks lm, []) ps).1.
Proof.
  unfold LockManager.releaseLocks.
  destruct (foldl _ _ ps) as [m rel]. simpl.
  unfold LockManager.saveLocks_if. by destruct (nonempty rel).
Qed.
End lock_manager_facts.

(** * Lock manager: properties *)

Section lock_manager_properties.
Context `{PathApi}.
Implicit Types (lm : LockManager.t) (req : LockRequest.t) (now : Z) (p k : string).

(** What [acquireLocks] does with one requested path: it is granted and
    the table holds the fresh lock under its normalized form, or it is
    turned down by a surviving incompatible lock of another agent, which
    stays, and the conflict is reported. *)
Lemma acquireLocks_path_cases lm req now p :
  p ∈ LockRequest.paths req →
  let res := (LockManager.acquireLocks lm req now).1 in
  let lm' := (LockManager.acquireLocks lm req now).2 in
  let k := LockManager.normalizePath lm p in
  (p ∈ LockResult.acquired res ∧ (p ∉ LockResult.failed res) ∧
   LockManager.locks lm' !! k = Some (LockManager.newLock lm req now k))
  ∨
  (p ∈ LockResult.failed res ∧ (p ∉ LockResult.acquired res) ∧
   ∃ l, LockManager.locks lm !! k = Some l
        ∧ ¬ LockManager.expired now l
        ∧ FileLock.agentId l ≠ LockRequest.agentId req
        ∧ LockManager.isCompatibleLock (FileLock.lockType l) (LockRequest.lockType req)
          = false
        ∧ LockManager.locks lm' !! k = Some l
        ∧ ∃ cs, LockResult.conflicts res = Some cs
                ∧ Conflict.mk p (FileLock.agentId l) ∈ cs).
Proof.
  intros Hp res lm' k. subst res lm' k.
  rewrite acquireLocks_locks. rewrite acquireLocks_unfold. cbn [fst snd].
  cbn [LockResult.acquired LockResult.failed LockResult.success LockResult.conflicts].
  set (m0 := LockManager.sweep now (LockManager.locks lm)).
  set (ok := filter (λ q, ¬ turnedDown lm req m0 q) (LockRequest.paths req)).
  set (ko := filter (turnedDown lm req m0) (LockRequest.paths req)).
  assert (Hok : ∀ q, q ∈ ok → ¬ turnedDown lm req m0 q).
  { intros q Hq. by apply list_elem_of_filter in Hq as [? _]. }
  destruct (decide (turnedDown lm req m0 p)) as [Hdown|Hup].
  - right.
    destruct (turnedDown_inv _ _ _ _ Hdown) as (l & Hl & Hagent & Hcompat).
    apply lookup_sweep in Hl as Hl'. destruct Hl' as [Hl0 Hlive].
    split; [by apply list_elem_of_filter|].
    split; [intros Hq; apply list_elem_of_filter in Hq; tauto|].
    exists l. split; [done|]. split; [unfold LockManager.expired; lia|].
    split; [done|]. split; [done|]. split.
    { rewrite (grantAll_turnedDown lm req now m0 ok p Hok Hdown). done. }
    assert (Conflict.mk p (FileLock.agentId l) ∈ omap (conflictOf lm m0) ko) as Hin.
    { apply list_elem_of_omap. exists p. split.
      - by apply list_elem_of_filter.
      - unfold conflictOf. by rewrite Hl. }
    destruct (omap (conflictOf lm m0) ko) as [|c cs] eqn:Hcs.
    { by apply not_elem_of_nil in Hin. }
    by exists (c :: cs).
  - left.
    split; [by apply list_elem_of_filter|].
    split; [intros Hq; apply list_elem_of_filter in Hq; tauto|].
    rewrite lookup_grantAll. rewrite decide_True; [done|].
    apply list_elem_of_fmap. exists p. split; [done|].
    by apply list_elem_of_filter.
Qed.

(** C6 (as the code has it).  After the sweep every requested path is
    either granted, and then the table holds under its normalized form a
    fresh lock of the requester with
    [expiresAt = now + (request.timeoutMs || defaultTimeout)] - an absent
    or zero timeout selects the default - or it is turned down by a lock
    of another agent that survived the sweep and is not compatible, and
    then it is listed in [failed] with the descriptor [{path, heldBy}] and
    that lock stays.  [success] holds exactly when [failed] is empty, and
    whenever something was granted the table, grants included, is
    written to disk, whatever [success] says. *)
Theorem acquireLocks_postcondition lm req now p :
  p ∈ LockRequest.paths req →
  let res := (LockManager.acquireLocks lm req now).1 in
  let lm' := (LockManager.acquireLocks lm req now).2 in
  let k := LockManager.normalizePath lm p in
  ((p ∈ LockResult.acquired res ∧ (p ∉ LockResult.failed res) ∧
    LockManager.locks lm' !! k
    = Some (FileLock.mk k (LockRequest.agentId req) (LockRequest.taskId req) now
              (now + number_or (LockRequest.timeoutMs req) (LockManager.defaultTimeout lm))
              (LockRequest.lockType req)))
   ∨
   (p ∈ LockResult.failed res ∧ (p ∉ LockResult.acquired res) ∧
    ∃ l, LockManager.locks lm !! k = Some l
         ∧ ¬ LockManager.expired now l
         ∧ FileLock.agentId l ≠ LockRequest.agentId req
         ∧ LockManager.isCompatibleLock (FileLock.lockType l) (LockRequest.lockType req)
           = false
         ∧ LockManager.locks lm' !! k = Some l
         ∧ ∃ cs, LockResult.conflicts res = Some cs
                 ∧ Conflict.mk p (FileLock.agentId l) ∈ cs))
  ∧ (LockResult.success res = true ↔ LockResult.failed res = [])
  ∧ (LockResult.acquired res ≠ [] → LockManager.disk lm' = LockManager.locks lm').
Proof.
  intros Hp res lm' k. split; [|split].
  - exact (acquireLocks_path_cases lm req now p Hp).
  - subst res. rewrite acquireLocks_unfold. simpl.
    destruct (filter _ _); simpl; split; done.
  - subst res lm'. rewrite acquireLocks_unfold. simpl.
    unfold LockManager.saveLocks_if. destruct (filter _ _); [done|]. reflexivity.
Qed.

(** C10.  The table is a map, so a normalized path carries at most one
    record.  When a requested path already carries a lock that does not
    turn the request down - a lock of the requester of any type, or a
    read lock of anybody under a read request - the path is granted and
    the record is replaced by a fresh one: owned by the requester, with
    [lockedAt = now] and a new [expiresAt]; ownership of a shared read
    lock thereby moves to the requester. *)
Theorem acquireLocks_replaces_record lm req now p l :
  p ∈ LockRequest.paths req →
  LockManager.locks lm !! LockManager.normalizePath lm p = Some l →
  FileLock.agentId l = LockRequest.agentId req
  ∨ (FileLock.lockType l = read ∧ LockRequest.lockType req = read) →
  let res := (LockManager.acquireLocks lm req now).1 in
  let lm' := (LockManager.acquireLocks lm req now).2 in
  let k := LockManager.normalizePath lm p in
  p ∈ LockResult.acquired res
  ∧ LockManager.locks lm' !! k
    = Some (FileLock.mk k (LockRequest.agentId req) (LockRequest.taskId req) now
              (now + number_or (LockRequest.timeoutMs req) (LockManager.defaultTimeout lm))
              (LockRequest.lockType req))
  ∧ NoDup (map_to_list (LockManager.locks lm')).*1.
Proof.
  intros Hp Hl Hmine res lm' k.
  pose proof (acquireLocks_path_cases lm req now p Hp) as Hcase.
  fold res lm' k in Hcase.
  split; [|split].
  - destruct Hcase as [(Hacq & _)|(_ & _ & l' & Hl' & _ & Hagent & Hcompat & _)]; [done|].
    fold k in Hl. rewrite Hl in Hl'. injection Hl' as <-.
    destruct Hmine as [Hsame|[Hr1 Hr2]]; [done|].
    by rewrite Hr1, Hr2 in Hcompat.
  - destruct Hcase as [(_ & _ & Hnew)|(_ & _ & l' & Hl' & _ & Hagent & Hcompat & _)]; [done|].
    fold k in Hl. rewrite Hl in Hl'. injection Hl' as <-.
    destruct Hmine as [Hsame|[Hr1 Hr2]]; [done|].
    by rewrite Hr1, Hr2 in Hcompat.
  - apply NoDup_fst_map_to_list.
Qed.

(** C8 (as the code has it).  When no lock of the table has expired and
    no requested path already carries a lock that the request would
    replace (every lock found under a requested path turns the request
    down), releasing what [acquireLocks] reports as acquired restores the
    lock table. *)
Theorem acquire_release_roundtrip lm req now :
  (∀ k l, LockManager.locks lm !! k = Some l → ¬ LockManager.expired now l) →
  (∀ p l, p ∈ LockRequest.paths req →
          LockManager.locks lm !! LockManager.normalizePath lm p = Some l →
          FileLock.agentId l ≠ LockRequest.agentId req
          ∧ LockManager.isCompatibleLock (FileLock.lockType l) (LockRequest.lockType req)
            = false) →
  let res := (LockManager.acquireLocks lm req now).1 in
  let lm' := (LockManager.acquireLocks lm req now).2 in
  LockManager.locks
    (LockManager.releaseLocks lm' (LockRequest.agentId req) (LockResult.acquired res)).2
  = LockManager.locks lm.
Proof.
  intros Hlive Hfree res lm'.
  assert (Hsweep : LockManager.sweep now (LockManager.locks lm) = LockManager.locks lm).
  { apply sweep_id. intros k l Hl. specialize (Hlive k l Hl).
    unfold LockManager.expired in Hlive. lia. }
  apply map_eq. intros k.
  rewrite releaseLocks_locks, release_loop_lookup.
  assert (Hnorm : ∀ q, LockManager.normalizePath lm' q = LockManager.normalizePath lm q).
  { intros q. apply normalizePath_ext. apply acquireLocks_projectPath. }
  assert (LockManager.normalizePath lm' <$> LockResult.acquired res
          = LockManager.normalizePath lm <$> LockResult.acquired res) as ->.
  { apply list_fmap_ext. intros ? q _. apply Hnorm. }
  subst lm'. rewrite acquireLocks_locks. fold res. rewrite Hsweep.
  rewrite lookup_grantAll.
  assert (Hacq : ∀ q, q ∈ LockResult.acquired res →
                      LockManager.locks lm !! LockManager.normalizePath lm q = None).
  { intros q Hq. subst res. rewrite acquireLocks_unfold in Hq. simpl in Hq.
    apply list_elem_of_filter in Hq as [Hup Hin]. rewrite Hsweep in Hup.
    destruct (LockManager.locks lm !! LockManager.normalizePath lm q) as [l|] eqn:Hl;
      [|done].
    destruct (Hfree q l Hin Hl) as [Ha Hc]. destruct Hup.
    unfold turnedDown, LockManager.refuses. rewrite Hl, Hc.
    by rewrite bool_decide_eq_true_2. }
  case_decide as Hin.
  - rewrite decide_True by done.
    apply list_elem_of_fmap in Hin as (q & -> & Hq). symmetry. by apply Hacq.
  - destruct (LockManager.locks lm !! k) as [l|]; [|done].
    rewrite decide_False; [done | tauto].
Qed.

(** Helper for the expiry boundary: the sweep keeps exactly the locks
    with [expiresAt >= now]. *)
Lemma cleanExpiredLocks_keeps lm now k l :
  LockManager.locks (LockManager.cleanExpiredLocks lm now).2 !! k = Some l
  ↔ LockManager.locks lm !! k = Some l ∧ now ≤ FileLock.expiresAt l.
Proof. rewrite cleanExpiredLocks_locks. apply lookup_sweep. Qed.
End lock_manager_properties.

(** * Lock manager: concrete runs *)

Section lock_manager_examples.
#[local] Existing Instance posix.

Lemma acquireLocks_postcondition_witness :
  "x" ∈ LockRequest.paths reqA_xy
  ∧ "x" ∈ LockResult.acquired (LockManager.acquireLocks lm_B_y reqA_xy 1000).1
  ∧ LockManager.locks (LockManager.acquireLocks lm_B_y reqA_xy 1000).2 !! "x"
    = Some (FileLock.mk "x" "A" "tA" 1000 301000 write)
  ∧ LockResult.success (LockManager.acquireLocks lm_B_y reqA_xy 1000).1 = false
  ∧ LockManager.disk (LockManager.acquireLocks lm_B_y reqA_xy 1000).2
    = LockManager.locks (LockManager.acquireLocks lm_B_y reqA_xy 1000).2.
Proof.
  assert (Hin : "x" ∈ LockRequest.paths reqA_xy) by (by left).
  destruct (acquireLocks_postcondition lm_B_y reqA_xy 1000 "x" Hin)
    as (Hcase & Hsucc & Hdisk).
  split; [exact Hin|].
  destruct Hcase as [(Hacq & _ & Hnew)|(Hfail & _)].
  - split; [exact Hacq|]. split; [exact Hnew|]. split; [reflexivity|].
    apply Hdisk. intros Hnil. rewrite Hnil in Hacq. inversion Hacq.
  - vm_compute in Hfail. inversion Hfail as [|? ? ? Hfail']. inversion Hfail'.
Defined.

(** C6 as stated fails for a request with [timeoutMs = 0]: [x] is granted
    (it is not in [failed]), yet its lock does not expire at
    [now + (timeoutMs ?? defaultTimeout) = 1000] but at 301000. *)
Lemma acquireLocks_zero_timeout :
  let lm := LockManager.mk ∅ ∅ "/proj" 300000 in
  let req := LockRequest.mk "A" "tA" ["x"] write (Some 0) in
  let res := (LockManager.acquireLocks lm req 1000).1 in
  let lm' := (LockManager.acquireLocks lm req 1000).2 in
  "x" ∈ LockRequest.paths req
  ∧ LockResult.failed res = []
  ∧ LockManager.locks lm' !! "x" = Some (FileLock.mk "x" "A" "tA" 1000 301000 write)
  ∧ ¬ (∃ l, LockManager.locks lm' !! LockManager.normalizePath lm "x" = Some l
           ∧ FileLock.expiresAt l
             = 1000 + number_nullish (LockRequest.timeoutMs req)
                        (LockManager.defaultTimeout lm)).
Proof.
  intros lm req res lm'.
  split; [by left|]. split; [reflexivity|]. split; [reflexivity|].
  intros (l & Hl & He). vm_compute in Hl. injection Hl as <-. discriminate He.
Qed.

Lemma acquireLocks_replaces_record_witness :
  "x" ∈ LockRequest.paths reqA_read_x
  ∧ LockManager.locks lm_B_reads_x !! "x" = Some lockB_x_read
  ∧ FileLock.lockType lockB_x_read = read
  ∧ LockRequest.lockType reqA_read_x = read
  ∧ "x" ∈ LockResult.acquired (LockManager.acquireLocks lm_B_reads_x reqA_read_x 1000).1
  ∧ LockManager.locks (LockManager.acquireLocks lm_B_reads_x reqA_read_x 1000).2 !! "x"
    = Some (FileLock.mk "x" "A" "tA" 1000 61000 read).
Proof.
  assert (Hin : "x" ∈ LockRequest.paths reqA_read_x) by (by left).
  assert (Hl : LockManager.locks lm_B_reads_x !! LockManager.normalizePath lm_B_reads_x "x"
               = Some lockB_x_read) by reflexivity.
  destruct (acquireLocks_replaces_record lm_B_reads_x reqA_read_x 1000 "x" lockB_x_read
              Hin Hl (or_intror (conj eq_refl eq_refl)))
    as (Hacq & Hnew & _).
  split; [exact Hin|]. split; [exact Hl|]. split; [reflexivity|]. split; [reflexivity|].
  split; [exact Hacq | exact Hnew].
Defined.

Lemma acquire_release_roundtrip_witness :
  LockManager.locks
    (LockManager.releaseLocks (LockManager.acquireLocks lm_B_y reqA_xy 1000).2 "A"
       (LockResult.acquired (LockManager.acquireLocks lm_B_y reqA_xy 1000).1)).2
  = LockManager.locks lm_B_y.
Proof.
  apply (acquire_release_roundtrip lm_B_y reqA_xy 1000).
  - intros k l Hl. unfold lm_B_y in Hl. cbn [LockManager.locks] in Hl.
    apply lookup_singleton_Some in Hl as [_ <-].
    unfold LockManager.expired. simpl. lia.
  - intros p l Hp Hl.
    assert (p = "y") as ->.
    { apply elem_of_cons in Hp as [->|Hp]; [discriminate Hl|].
      apply elem_of_cons in Hp as [->|Hp]; [done | inversion Hp]. }
    unfold lm_B_y in Hl. cbn [LockManager.locks] in Hl.
    apply lookup_singleton_Some in Hl as [_ <-]. split; [discriminate | reflexivity].
Defined.

(** C8 as stated fails when the requester already holds the path: the
    acquire replaces its lock and the release then removes it. *)
Lemma acquire_release_loses_own_lock :
  let mine := FileLock.mk "x" "A" "t0" 0 5000 write in
  let lm := LockManager.mk {["x" := mine]} {["x" := mine]} "/proj" 300000 in
  let req := LockRequest.mk "A" "tA" ["x"] write None in
  let res := (LockManager.acquireLocks lm req 1000).1 in
  let lm' := (LockManager.acquireLocks lm req 1000).2 in
  LockResult.acquired res = ["x"]
  ∧ LockManager.locks lm !! "x" = Some mine
  ∧ LockManager.locks (LockManager.releaseLocks lm' "A" (LockResult.acquired res)).2 !! "x"
    = None
  ∧ LockManager.locks (LockManager.releaseLocks lm' "A" (LockResult.acquired res)).2
    ≠ LockManager.locks lm.
Proof.
  intros mine lm req res lm'.
  split; [reflexivity|]. split; [reflexivity|]. split; [reflexivity|].
  intros Heq. apply (f_equal (λ m, m !! "x")) in Heq. discriminate Heq.
Qed.

(** C7 at the boundary.  A lock of B on [x] with [expiresAt = 1000],
    looked at when [now = 1000]: the sweep keeps it, so [getAllLocks]
    lists it, [isLocked] answers true, [checkConflicts] reports it and
    [acquireLocks] turns A down because of it - whereas [loadLocks], run
    at the same instant on the same record, drops it as expired. *)
Theorem expiry_boundary_lock_survives :
  let due := FileLock.mk "x" "B" "tB" 0 1000 write in
  let lm := LockManager.mk {["x" := due]} {["x" := due]} "/proj" 300000 in
  let req := LockRequest.mk "A" "tA" ["x"] write None in
  FileLock.expiresAt due = 1000
  ∧ (LockManager.cleanExpiredLocks lm 1000).1 = 0
  ∧ (LockManager.getAllLocks lm 1000).1 = [due]
  ∧ (LockManager.isLocked lm "x" 1000).1 = true
  ∧ (LockManager.checkConflicts lm "A" ["x"] 1000).1 = [Conflict.mk "x" "B"]
  ∧ LockResult.failed (LockManager.acquireLocks lm req 1000).1 = ["x"]
  ∧ LockManager.locks
      (LockManager.loadLocks (LockManager.mk ∅ ∅ "/proj" 300000) [due] 1000)
    = ∅.
Proof. intros due lm req. repeat split; reflexivity. Qed.
End lock_manager_examples.

(** * Task server: properties *)

Section task_server_properties.
Context `{PathApi}.
Implicit Types (s : TaskServer.t) (task : Task.t) (agent : AgentInfo.t).
Implicit Types (tid aid id : string) (now : Z).

Lemma lookup_unblockDependentTasks c (m : gmap string Task.t) id :
  TaskServer.unblockDependentTasks c m !! id
  = (λ task,
       match Task.blockedBy task with
       | Some b => Task.set_blockedBy (Some (remove_first c b)) task
       | None => task
       end) <$> m !! id.
Proof. unfold TaskServer.unblockDependentTasks. apply lookup_fmap. Qed.

Lemma status_unblockDependentTasks c (m : gmap string Task.t) id :
  Task.status <$> TaskServer.unblockDependentTasks c m !! id = Task.status <$> m !! id.
Proof.
  rewrite lookup_unblockDependentTasks.
  destruct (m !! id) as [task|]; [|done]. simpl.
  by destruct (Task.blockedBy task).
Qed.

Lemma passDependencies_status s task task1 :
  TaskServer.passDependencies s task = Some task1 →
  Task.status task1 = Task.status task.
Proof.
  unfold TaskServer.passDependencies. intros Hpass.
  repeat case_match; by simplify_eq.
Qed.

Lemma markAssigned_status config task tid aid now :
  Task.status (TaskServer.markAssigned config task tid aid now) = assigned.
Proof. unfold TaskServer.markAssigned. by case_match. Qed.

(** [assignTask] writes no task but its argument. *)
Lemma assignTask_tasks_other s tid aid now id :
  id ≠ tid →
  TaskServer.tasks (TaskServer.assignTask s tid aid now).2 !! id
  = TaskServer.tasks s !! id.
Proof.
  intros Hne. unfold TaskServer.assignTask.
  repeat (case_match || case_bool_decide); simpl; try done;
    by rewrite lookup_insert_ne.
Qed.

(** [assignTask] refuses a task that is not pending and leaves the state
    alone. *)
Lemma assignTask_not_pending s tid aid now task :
  TaskServer.tasks s !! tid = Some task →
  Task.status task ≠ pending →
  TaskServer.assignTask s tid aid now = (None, s).
Proof.
  intros Htask Hst. unfold TaskServer.assignTask. rewrite Htask.
  destruct (TaskServer.agents s !! aid); [|done].
  by rewrite bool_decide_eq_true_2.
Qed.

Lemma completeTask_status s tid aid result now id task :
  TaskServer.tasks s !! id = Some task →
  statusOf (TaskServer.completeTask s tid aid result now) id
  = Some (if decide (id = tid ∧ Task.assignedAgent task = Some aid)
          then completed else Task.status task).
Proof.
  intros Htask. unfold statusOf, TaskServer.completeTask.
  destruct (TaskServer.tasks s !! tid) as [t|] eqn:Ht.
  - case_bool_decide as Hag.
    + rewrite Htask. simpl. rewrite decide_False; [done|].
      intros [-> Ha]. congruence.
    + cbn [TaskServer.tasks]. rewrite status_unblockDependentTasks.
      destruct (decide (id = tid)) as [->|Hne].
      * rewrite lookup_insert_eq. simplify_eq. rewrite decide_True by done.
        simpl. by repeat case_match.
      * rewrite lookup_insert_ne by done. rewrite Htask. simpl.
        rewrite decide_False; [done | tauto].
  - rewrite Htask. simpl. rewrite decide_False; [done|].
    intros [-> _]. congruence.
Qed.

Lemma failTask_status_other s tid aid err now id task :
  TaskServer.tasks s !! id = Some task →
  ¬ (id = tid ∧ Task.assignedAgent task = Some aid) →
  statusOf (TaskServer.failTask s tid aid err now) id = Some (Task.status task).
Proof.
  intros Htask Hnot. unfold statusOf, TaskServer.failTask.
  destruct (TaskServer.tasks s !! tid) as [t|] eqn:Ht; [|by rewrite Htask].
  case_bool_decide as Hag; [by rewrite Htask|].
  cbn [TaskServer.tasks].
  destruct (decide (id = tid)) as [->|Hne].
  - simplify_eq. destruct Hnot. split; [done|].
    by destruct (decide (Task.assignedAgent task = Some aid)).
  - rewrite lookup_insert_ne by done. by rewrite Htask.
Qed.

Lemma unassignTask_status s tid id task :
  TaskServer.tasks s !! id = Some task →
  statusOf (TaskServer.unassignTask s tid) id
  = Some (if decide (id = tid) then pending else Task.status task).
Proof.
  intros Htask. unfold statusOf, TaskServer.unassignTask.
  destruct (TaskServer.tasks s !! tid) as [t|] eqn:Ht.
  - cbn [TaskServer.tasks]. destruct (decide (id = tid)) as [->|Hne].
    + by rewrite lookup_insert_eq.
    + rewrite lookup_insert_ne by done. by rewrite Htask.
  - rewrite Htask. simpl. rewrite decide_False; [done|]. intros ->. congruence.
Qed.

(** C1 (as the code has it).  No operation looks at whether a status is
    terminal.  [assignTask] leaves every status other than pending alone,
    so a terminal status survives it.  [completeTask] tests the assignee
    only: it sets the task named by its argument to completed when the
    caller is the task's [assignedAgent], whatever the current status,
    and changes no other status.  [failTask] leaves the status of every
    task alone except the one named by its argument when the caller is
    its [assignedAgent].  [unassignTask] sets the task named by its
    argument to pending, whatever its status, and changes no other
    status. *)
Theorem terminal_status_guards s tid aid result err now id task :
  TaskServer.tasks s !! id = Some task →
  (Task.status task ≠ pending →
   statusOf (TaskServer.assignTask s tid aid now).2 id = Some (Task.status task))
  ∧ statusOf (TaskServer.completeTask s tid aid result now) id
    = Some (if decide (id = tid ∧ Task.assignedAgent task = Some aid)
            then completed else Task.status task)
  ∧ (¬ (id = tid ∧ Task.assignedAgent task = Some aid) →
     statusOf (TaskServer.failTask s tid aid err now) id = Some (Task.status task))
  ∧ statusOf (TaskServer.unassignTask s tid) id
    = Some (if decide (id = tid) then pending else Task.status task).
Proof.
  intros Htask. split; [|split; [|split]].
  - intros Hst. unfold statusOf. destruct (decide (id = tid)) as [->|Hne].
    + rewrite (assignTask_not_pending s tid aid now task Htask Hst).
      simpl. by rewrite Htask.
    + rewrite assignTask_tasks_other by done. by rewrite Htask.
  - by apply completeTask_status.
  - by apply failTask_status_other.
  - by apply unassignTask_status.
Qed.

Lemma lookup_dropTask tid (m : gmap string FileLock.t) k l :
  LockManager.dropTask tid m !! k = Some l ↔ m !! k = Some l ∧ FileLock.taskId l ≠ tid.
Proof. unfold LockManager.dropTask. by rewrite map_lookup_filter_Some. Qed.

Lemma releaseTaskLocks_locks lm tid :
  LockManager.locks (LockManager.releaseTaskLocks lm tid).2
  = LockManager.dropTask tid (LockManager.locks lm).
Proof.
  unfold LockManager.releaseTaskLocks, LockManager.saveLocks_if. simpl.
  by destruct (nonempty _).
Qed.


Lemma passDependencies_cases s task task1 :
  TaskServer.passDependencies s task = Some task1 →
  task1 = task
  ∨ (task1 = Task.set_blockedBy (Some []) task
     ∧ ∃ b, Task.blockedBy task = Some b ∧ b ≠ []
            ∧ ∀ d, d ∈ b → TaskServer.isBlocker (TaskServer.tasks s) d = false).
Proof.
  unfold TaskServer.passDependencies. intros Hpass.
  destruct (Task.blockedBy task) as [b|] eqn:Hb; [|left; by simplify_eq].
  destruct b as [|d0 b]; cbn [nonempty] in Hpass; [left; by simplify_eq|].
  destruct (filter _ (d0 :: b)) as [|e still] eqn:Hstill; [|done].
  right. cbn [nonempty] in Hpass. simplify_eq.
  split; [done|]. exists (d0 :: b). split; [done|]. split; [done|].
  intros d Hd. destruct (TaskServer.isBlocker (TaskServer.tasks s) d) eqn:Hblk; [|done].
  assert (d ∈ filter (λ depId, TaskServer.isBlocker (TaskServer.tasks s) depId) (d0 :: b))
    as Hin.
  { apply list_elem_of_filter. split; [by rewrite Hblk | done]. }
  rewrite Hstill in Hin. by apply not_elem_of_nil in Hin.
Qed.

Lemma fileConflicts_manager lm task aid now :
  (TaskServer.fileConflicts lm task aid now).1 ≠ [] →
  (TaskServer.fileConflicts lm task aid now).2 = (LockManager.cleanExpiredLocks lm now).2
  ∧ is_Some (Task.targetFiles task).
Proof.
  unfold TaskServer.fileConflicts. destruct (Task.targetFiles task); [|done].
  unfold LockManager.checkConflicts. simpl. eauto.
Qed.

(** C9 (as the code has it).  A refusal decided before the target files
    are looked at leaves the state exactly as it was.  A refusal for a
    file-lock conflict leaves the agents, the queue, the history and
    every other task as they were; the task itself is unchanged except
    that a non-empty [blockedBy] whose entries are all resolved has been
    reset to the empty list, and the lock manager is the one
    [cleanExpiredLocks] leaves: expired locks are gone. *)
Theorem assignTask_refusal_frame s tid aid now :
  (refusedEarly s tid aid → TaskServer.assignTask s tid aid now = (None, s))
  ∧ ((TaskServer.assignTask s tid aid now).1 = None →
     (refusedEarly s tid aid ∧ (TaskServer.assignTask s tid aid now).2 = s)
     ∨ ∃ task task1 files,
         TaskServer.tasks s !! tid = Some task
         ∧ Task.targetFiles task = Some files
         ∧ TaskServer.passDependencies s task = Some task1
         ∧ (task1 = task ∨ task1 = Task.set_blockedBy (Some []) task)
         ∧ (TaskServer.assignTask s tid aid now).2
           = TaskServer.mk (TaskServer.config s) (TaskServer.agents s)
               (<[tid := task1]> (TaskServer.tasks s))
               (TaskServer.taskQueue s) (TaskServer.completedTasks s)
               (LockManager.cleanExpiredLocks (TaskServer.lockManager s) now).2).
Proof.
  unfold refusedEarly, TaskServer.assignTask.
  destruct (TaskServer.tasks s !! tid) as [task|] eqn:Ht; [|split; [done | by left]].
  destruct (TaskServer.agents s !! aid) as [agent|] eqn:Ha; [|split; [done | by left]].
  case_bool_decide as Hst; [split; [done | left; split; [by left | done]]|].
  case_bool_decide as Hidle; [split; [done | left; split; [right; by left | done]]|].
  destruct (TaskServer.passDependencies s task) as [task1|] eqn:Hpass;
    [|split; [done | left; split; [right; by right | done]]].
  split; [intros [?|[?|?]]; done|].
  destruct (nonempty _) eqn:Hcs; [|done]. intros _. right.
  assert ((TaskServer.fileConflicts (TaskServer.lockManager s) task1 aid now).1 ≠ [])
    as Hne by (intros Hnil; by rewrite Hnil in Hcs).
  destruct (fileConflicts_manager _ _ _ _ Hne) as [Hlm [files Hfiles]].
  cbn [snd]. rewrite Hlm.
  exists task, task1, files. split; [done|].
  destruct (passDependencies_cases s task task1 Hpass) as [->|[-> _]].
  - split; [done|]. split; [done|]. split; [by left | done].
  - split; [done|]. split; [done|]. split; [by right | done].
Qed.

(** Releasing over a table in which the agent owns none of the paths is
    the identity, and reports nothing. *)
Lemma release_loop_id lm a ps (m : gmap string FileLock.t) rel :
  (∀ p l, p ∈ ps → m !! LockManager.normalizePath lm p = Some l → FileLock.agentId l ≠ a) →
  foldl (LockManager.releaseStep lm a) (m, rel) ps = (m, rel).
Proof.
  induction ps as [|x ps IH]; intros Hfree; [done|].
  cbn [foldl]. unfold LockManager.releaseStep at 2.
  destruct (m !! LockManager.normalizePath lm x) as [l|] eqn:Hx.
  - rewrite bool_decide_eq_false_2 by (apply (Hfree x); [by left | done]).
    apply IH. intros p l' Hp. apply Hfree. by right.
  - apply IH. intros p l' Hp. apply Hfree. by right.
Qed.

Lemma releaseLocks_projectPath lm a ps :
  LockManager.projectPath (LockManager.releaseLocks lm a ps).2
  = LockManager.projectPath lm.
Proof.
  unfold LockManager.releaseLocks.
  destruct (foldl _ _ ps) as [m rel]. simpl.
  unfold LockManager.saveLocks_if. by destruct (nonempty rel).
Qed.

Lemma releaseLocks_twice lm a ps :
  (LockManager.releaseLocks (LockManager.releaseLocks lm a ps).2 a ps).2
  = (LockManager.releaseLocks lm a ps).2.
Proof.
  set (lm1 := (LockManager.releaseLocks lm a ps).2).
  unfold LockManager.releaseLocks at 1.
  rewrite release_loop_id.
  - simpl. by destruct lm1.
  - intros p l Hp Hl Hown. subst lm1.
    rewrite (normalizePath_ext lm) in Hl by apply releaseLocks_projectPath.
    rewrite releaseLocks_locks, release_loop_lookup in Hl.
    destruct (LockManager.locks lm !! LockManager.normalizePath lm p) as [l0|]; [|done].
    case_decide as Hdec; [done|]. simplify_eq. destruct Hdec. split; [|done].
    apply list_elem_of_fmap. by exists p.
Qed.

Lemma unregisterAgent_removes s aid :
  TaskServer.agents (TaskServer.unregisterAgent s aid) !! aid = None.
Proof.
  unfold TaskServer.unregisterAgent.
  destruct (TaskServer.agents s !! aid) as [agent|] eqn:Ha; [|done].
  unfold TaskServer.set_agents. cbn [TaskServer.agents].
  apply lookup_delete_eq.
Qed.

Lemma unregisterAgent_twice s aid :
  TaskServer.unregisterAgent (TaskServer.unregisterAgent s aid) aid
  = TaskServer.unregisterAgent s aid.
Proof.
  unfold TaskServer.unregisterAgent at 1.
  by rewrite unregisterAgent_removes.
Qed.

Lemma failTask_not_assignee s tid aid err now :
  (∀ task, TaskServer.tasks s !! tid = Some task → Task.assignedAgent task ≠ Some aid) →
  TaskServer.failTask s tid aid err now = s.
Proof.
  intros Hnot. unfold TaskServer.failTask.
  destruct (TaskServer.tasks s !! tid) as [task|]; [|done].
  by rewrite bool_decide_eq_true_2 by (by apply Hnot).
Qed.

Lemma failTask_twice s tid aid err now1 now2 :
  (∀ task, TaskServer.tasks s !! tid = Some task →
           Task.assignedAgent task = Some aid →
           Task.attempts task < Task.maxAttempts task) →
  TaskServer.failTask (TaskServer.failTask s tid aid err now1) tid aid err now2
  = TaskServer.failTask s tid aid err now1.
Proof.
  intros Hretry. apply failTask_not_assignee. intros task'.
  unfold TaskServer.failTask.
  destruct (TaskServer.tasks s !! tid) as [task|] eqn:Ht; [|by rewrite Ht].
  case_bool_decide as Hag.
  - rewrite Ht. by intros [= <-].
  - assert (Task.assignedAgent task = Some aid) as Hag'.
    { by destruct (decide (Task.assignedAgent task = Some aid)). }
    rewrite bool_decide_eq_true_2 by (by apply Hretry).
    cbn [TaskServer.tasks]. rewrite lookup_insert_eq. by intros [= <-].
Qed.

Lemma completeTask_not_assignee s tid aid result now :
  (∀ task, TaskServer.tasks s !! tid = Some task → Task.assignedAgent task ≠ Some aid) →
  TaskServer.completeTask s tid aid result now = s.
Proof.
  intros Hnot. unfold TaskServer.completeTask.
  destruct (TaskServer.tasks s !! tid) as [task|]; [|done].
  by rewrite bool_decide_eq_true_2 by (by apply Hnot).
Qed.

(** One [completeTask] by the assignee: the task keeps its assignee,
    which is why a second one passes the guard as well. *)
Lemma completeTask_by_assignee s tid aid result now task :
  TaskServer.tasks s !! tid = Some task →
  Task.assignedAgent task = Some aid →
  let s' := TaskServer.completeTask s tid aid result now in
  TaskServer.completedTasks s' = TaskServer.completedTasks s ++ [tid]
  ∧ (∃ task', TaskServer.tasks s' !! tid = Some task'
              ∧ Task.assignedAgent task' = Some aid
              ∧ Task.status task' = completed
              ∧ Task.completedAt task' = Some now)
  ∧ (∀ agent, TaskServer.agents s !! aid = Some agent →
              ∃ agent', TaskServer.agents s' !! aid = Some agent'
                        ∧ AgentInfo.completedTasks agent'
                          = AgentInfo.completedTasks agent + 1).
Proof.
  intros Ht Hassignee s'. subst s'. unfold TaskServer.completeTask.
  rewrite Ht, bool_decide_eq_false_2 by (intros Hne; by apply Hne).
  cbn [TaskServer.completedTasks TaskServer.tasks TaskServer.agents].
  split; [done|]. split.
  - rewrite lookup_unblockDependentTasks, lookup_insert_eq. simpl.
    eexists. split; [done|].
    destruct (Task.startedAt task) as [started|]; [destruct (started =? 0)|];
      simpl; by destruct (Task.blockedBy task).
  - intros agent Hagent. rewrite Hagent, lookup_insert_eq. by eexists.
Qed.

(** One [failTask] by the assignee of a task that is out of attempts. *)
Lemma failTask_final s tid aid err now task :
  TaskServer.tasks s !! tid = Some task →
  Task.assignedAgent task = Some aid →
  ¬ Task.attempts task < Task.maxAttempts task →
  let s' := TaskServer.failTask s tid aid err now in
  (∃ task', TaskServer.tasks s' !! tid = Some task'
            ∧ Task.assignedAgent task' = Some aid
            ∧ Task.attempts task' = Task.attempts task
            ∧ Task.maxAttempts task' = Task.maxAttempts task
            ∧ Task.status task' = failed
            ∧ Task.completedAt task' = Some now)
  ∧ (∀ agent, TaskServer.agents s !! aid = Some agent →
              ∃ agent', TaskServer.agents s' !! aid = Some agent'
                        ∧ AgentInfo.failedTasks agent' = AgentInfo.failedTasks agent + 1).
Proof.
  intros Ht Hassignee Hout s'. subst s'. unfold TaskServer.failTask.
  rewrite Ht, bool_decide_eq_false_2 by (intros Hne; by apply Hne).
  rewrite bool_decide_eq_false_2 by done.
  cbn [TaskServer.tasks TaskServer.agents]. split.
  - rewrite lookup_insert_eq. by eexists.
  - intros agent Hagent. rewrite Hagent, lookup_insert_eq. by eexists.
Qed.

(** C3 (as the code has it).  The handler keeps no record of envelope
    ids and deduplicates nothing.  The id of an envelope is read in one
    place, as the [correlationId] of the answer to a [LOCK_REQUEST];
    the state after handling an envelope depends on the sender, the
    type, the payload and the time only.  A second handling of the same
    envelope, at whatever time, leaves the state as the first left it
    for [TASK_UPDATE], [LOCK_RELEASE] and [AGENT_DISCONNECT] envelopes
    and envelopes of other types, for a [TASK_FAILED] envelope unless
    the sender is the assignee of a task with [attempts >= maxAttempts],
    for a [TASK_COMPLETE] envelope that does not come from the assignee
    of the task, and for the heartbeat of an unregistered sender.  The
    other repeats are processed again: a [TASK_COMPLETE] from the
    assignee appends the task id to the history a second time,
    overwrites [completedAt] and counts a second completed task for the
    sender; a [TASK_FAILED] from the assignee of a task that is out of
    attempts overwrites [completedAt] and counts a second failure; a
    [LOCK_REQUEST] is answered a second time under the same
    [correlationId] and every path granted the first time is granted
    again, its lock dated from the second handling; a heartbeat records
    the later time. *)
Theorem handleAgentMessage_repeat s aid (message : Message.t) now1 now2 :
  let s1 := TaskServer.handleAgentMessage s aid message now1 in
  let s2 := TaskServer.handleAgentMessage s1 aid message now2 in
  (∀ message' : Message.t,
      Message.body message' = Message.body message →
      TaskServer.handleAgentMessage s aid message' now1 = s1
      ∧ TaskServer.handleAgentMessage_sent s aid message' now1
        = (λ o, Outbound.mk (Outbound.inbox o) (Outbound.body o) (Outbound.target o)
                  (Some (Message.id message')))
          <$> TaskServer.handleAgentMessage_sent s aid message now1)
  ∧ (absorbedOnRepeat s aid message → s2 = s1)
  ∧ (∀ tid result task,
       Message.body message = TASK_COMPLETE tid result →
       TaskServer.tasks s !! tid = Some task →
       Task.assignedAgent task = Some aid →
       TaskServer.completedTasks s1 = TaskServer.completedTasks s ++ [tid]
       ∧ TaskServer.completedTasks s2 = TaskServer.completedTasks s ++ [tid; tid]
       ∧ Task.completedAt <$> TaskServer.tasks s2 !! tid = Some (Some now2)
       ∧ ∀ agent, TaskServer.agents s !! aid = Some agent →
                  AgentInfo.completedTasks <$> TaskServer.agents s2 !! aid
                  = Some (AgentInfo.completedTasks agent + 2))
  ∧ (∀ tid err task,
       Message.body message = TASK_FAILED tid err →
       TaskServer.tasks s !! tid = Some task →
       Task.assignedAgent task = Some aid →
       ¬ Task.attempts task < Task.maxAttempts task →
       Task.completedAt <$> TaskServer.tasks s2 !! tid = Some (Some now2)
       ∧ ∀ agent, TaskServer.agents s !! aid = Some agent →
                  AgentInfo.failedTasks <$> TaskServer.agents s2 !! aid
                  = Some (AgentInfo.failedTasks agent + 2))
  ∧ (∀ request,
       Message.body message = LOCK_REQUEST request →
       TaskServer.handleAgentMessage_sent s1 aid message now2
       = [Outbound.mk aid
            (LOCK_RESPONSE
               (LockManager.acquireLocks (TaskServer.lockManager s1) request now2).1)
            (Some aid) (Some (Message.id message))]
       ∧ ∀ p, p ∈ LockResult.acquired
                    (LockManager.acquireLocks (TaskServer.lockManager s) request now1).1 →
              p ∈ LockResult.acquired
                    (LockManager.acquireLocks (TaskServer.lockManager s1) request now2).1
              ∧ FileLock.lockedAt
                  <$> LockManager.locks (TaskServer.lockManager s2)
                        !! LockManager.normalizePath (TaskServer.lockManager s) p
                = Some now2)
  ∧ (∀ status progress agent,
       Message.body message = AGENT_HEARTBEAT status progress →
       TaskServer.agents s !! aid = Some agent →
       AgentInfo.lastHeartbeat <$> TaskServer.agents s2 !! aid = Some now2).
Proof.
  intros s1 s2.
  split; [|split; [|split; [|split; [|split]]]].
  - intros message' Hbody.
    unfold s1, TaskServer.handleAgentMessage, TaskServer.handleAgentMessage_sent.
    rewrite Hbody. split; [done|]. by destruct (Message.body message).
  - intros Habs. unfold absorbedOnRepeat in Habs.
    subst s2 s1. unfold TaskServer.handleAgentMessage.
    destruct (Message.body message) as [st pr|tid|tid res|tid e|req|ps| |]; try done.
    + unfold TaskServer.updateHeartbeat at 2. rewrite Habs.
      unfold TaskServer.updateHeartbeat. by rewrite Habs.
    + rewrite (completeTask_not_assignee s tid aid res now1 Habs).
      by apply completeTask_not_assignee.
    + by apply failTask_twice.
    + unfold TaskServer.set_lockManager.
      cbn [TaskServer.lockManager TaskServer.config TaskServer.agents TaskServer.tasks
           TaskServer.taskQueue TaskServer.completedTasks].
      by rewrite releaseLocks_twice.
    + apply unregisterAgent_twice.
  - intros tid result task Hbody Ht Hassignee.
    subst s2 s1. unfold TaskServer.handleAgentMessage. rewrite Hbody.
    destruct (completeTask_by_assignee s tid aid result now1 task Ht Hassignee)
      as (Hh1 & (task1 & Ht1 & Hassignee1 & _) & Hag1).
    destruct (completeTask_by_assignee _ tid aid result now2 task1 Ht1 Hassignee1)
      as (Hh2 & (task2 & Ht2 & _ & _ & Hat2) & Hag2).
    split; [done|]. split; [by rewrite Hh2, Hh1, <- app_assoc|].
    split; [by rewrite Ht2; simpl; rewrite Hat2|].
    intros agent Hagent. destruct (Hag1 agent Hagent) as (agent1 & Hagent1 & Hc1).
    destruct (Hag2 agent1 Hagent1) as (agent2 & Hagent2 & Hc2).
    rewrite Hagent2. simpl. f_equal. lia.
  - intros tid err task Hbody Ht Hassignee Hout.
    subst s2 s1. unfold TaskServer.handleAgentMessage. rewrite Hbody.
    destruct (failTask_final s tid aid err now1 task Ht Hassignee Hout)
      as ((task1 & Ht1 & Hassignee1 & Hatt1 & Hmax1 & _) & Hag1).
    destruct (failTask_final _ tid aid err now2 task1 Ht1 Hassignee1)
      as ((task2 & Ht2 & _ & _ & _ & _ & Hat2) & Hag2); [by rewrite Hatt1, Hmax1|].
    split; [by rewrite Ht2; simpl; rewrite Hat2|].
    intros agent Hagent. destruct (Hag1 agent Hagent) as (agent1 & Hagent1 & Hc1).
    destruct (Hag2 agent1 Hagent1) as (agent2 & Hagent2 & Hc2).
    rewrite Hagent2. simpl. f_equal. lia.
  - intros request Hbody. split.
    { unfold TaskServer.handleAgentMessage_sent. by rewrite Hbody. }
    intros p Hp. subst s2 s1. unfold TaskServer.handleAgentMessage. rewrite Hbody.
    cbn [TaskServer.lockManager TaskServer.set_lockManager].
    set (lm := TaskServer.lockManager s).
    set (lm1 := (LockManager.acquireLocks lm request now1).2).
    assert (p ∈ LockRequest.paths request) as Hpaths.
    { rewrite acquireLocks_unfold in Hp. cbn [fst LockResult.acquired] in Hp.
      by apply list_elem_of_filter in Hp as [_ Hp]. }
    assert (∀ q, LockManager.normalizePath lm1 q = LockManager.normalizePath lm q) as Hnp.
    { intros q. apply normalizePath_ext, acquireLocks_projectPath. }
    destruct (acquireLocks_path_cases lm request now1 p Hpaths)
      as [(_ & _ & Hlock1)|(_ & Hnot & _)]; [|done].
    fold lm1 in Hlock1.
    destruct (acquireLocks_path_cases lm1 request now2 p Hpaths)
      as [(Hacq2 & _ & Hlock2)|(_ & _ & l & Hl & _ & Hforeign & _)].
    + split; [done|]. rewrite Hnp in Hlock2. by rewrite Hlock2.
    + rewrite Hnp, Hlock1 in Hl. injection Hl as <-. by destruct Hforeign.
  - intros status progress agent Hbody Hagent.
    subst s2 s1. unfold TaskServer.handleAgentMessage. rewrite Hbody.
    unfold TaskServer.updateHeartbeat at 2. rewrite Hagent.
    unfold TaskServer.updateHeartbeat, TaskServer.set_agents.
    cbn [TaskServer.agents]. rewrite lookup_insert_eq.
    cbn [TaskServer.agents]. rewrite lookup_insert_eq. simpl.
    destruct status as [st|]; repeat case_bool_decide; done.
Qed.

(** ** Dependency gating *)

Lemma elem_of_remove_first x d (b : list string) :
  d ∈ b → d ≠ x → d ∈ remove_first x b.
Proof.
  intros Hd Hne. induction b as [|y b IH]; [done|]. simpl.
  apply elem_of_cons in Hd as [->|Hd].
  - rewrite decide_False by done. by left.
  - case_decide; [done|]. right. by apply IH.
Qed.

Lemma truthy_Some (x : string) : x ≠ EmptyString → truthy (Some x) = Some x.
Proof. intros Hx. simpl. by apply String.eqb_neq in Hx as ->. Qed.

Lemma isBlocker_false_completed (m : gmap string Task.t) d :
  hasEntry m d → TaskServer.isBlocker m d = false →
  Task.status <$> m !! d = Some completed.
Proof.
  unfold TaskServer.isBlocker, hasEntry. intros Hentry Hblk.
  destruct (m !! d) as [dep|] eqn:Hdep.
  - simpl. apply bool_decide_eq_false in Hblk. f_equal.
    by destruct (decide (Task.status dep = completed)).
  - destruct Hentry as [[dep Hsome]|Hproto]; [done | congruence].
Qed.

Lemma passDependencies_resolved s task task1 b d :
  TaskServer.passDependencies s task = Some task1 →
  Task.blockedBy task = Some b → d ∈ b →
  TaskServer.isBlocker (TaskServer.tasks s) d = false.
Proof.
  intros Hpass Hb Hd.
  destruct (passDependencies_cases s task task1 Hpass) as [->|[_ (b' & Hb' & _ & Hall)]].
  - unfold TaskServer.passDependencies in Hpass. rewrite Hb in Hpass.
    destruct b as [|d0 b]; [by apply not_elem_of_nil in Hd|].
    cbn [nonempty] in Hpass.
    destruct (filter _ (d0 :: b)) as [|e still] eqn:Hstill; [|done].
    destruct (TaskServer.isBlocker (TaskServer.tasks s) d) eqn:Hblk; [|done].
    assert (d ∈ filter (λ depId, TaskServer.isBlocker (TaskServer.tasks s) depId) (d0 :: b))
      as Hin.
    { apply list_elem_of_filter. split; [by rewrite Hblk | done]. }
    rewrite Hstill in Hin. by apply not_elem_of_nil in Hin.
  - rewrite Hb in Hb'. simplify_eq. by apply Hall.
Qed.

Lemma passDependencies_fields s task task1 :
  TaskServer.passDependencies s task = Some task1 →
  Task.status task1 = Task.status task
  ∧ Task.assignedAgent task1 = Task.assignedAgent task
  ∧ Task.dependsOn task1 = Task.dependsOn task
  ∧ (task1 = task ∨ Task.blockedBy task1 = Some []).
Proof.
  intros Hpass.
  destruct (passDependencies_cases s task task1 Hpass) as [->|[-> _]]; simpl; tauto.
Qed.

Lemma markAssigned_fields config task tid aid now :
  Task.dependsOn (TaskServer.markAssigned config task tid aid now) = Task.dependsOn task.
Proof. unfold TaskServer.markAssigned. by case_match. Qed.

Lemma hasEntry_mono (m m' : gmap string Task.t) d :
  (∀ k, is_Some (m !! k) → is_Some (m' !! k)) → hasEntry m d → hasEntry m' d.
Proof. intros Hmono [Hd|Hp]; [left; by apply Hmono | by right]. Qed.

Lemma is_Some_insert (m : gmap string Task.t) tid task k :
  is_Some (m !! k) → is_Some (<[tid := task]> m !! k).
Proof. rewrite lookup_insert_is_Some. destruct (decide (tid = k)); auto. Qed.

(** A task that is not pending has all its dependencies completed. *)
Lemma gated_settled (m : gmap string Task.t) id task :
  gated m → m !! id = Some task → Task.status task ≠ pending →
  ∀ deps d, Task.dependsOn task = Some deps → d ∈ deps →
            Task.status <$> m !! d = Some completed.
Proof.
  intros Hg Hid Hnp deps d Hopt Hd. destruct (Hg id task Hid) as [_ Hdep].
  destruct (Hdep deps d Hopt Hd) as [?|(_ & Hp & _)]; [done | by destruct Hnp].
Qed.

(** So has a task that passes the dependency gate. *)
Lemma gated_passed s tid task task1 :
  gated (TaskServer.tasks s) → TaskServer.tasks s !! tid = Some task →
  TaskServer.passDependencies s task = Some task1 →
  ∀ deps d, Task.dependsOn task = Some deps → d ∈ deps →
            Task.status <$> TaskServer.tasks s !! d = Some completed.
Proof.
  intros Hg Ht Hpass deps d Hopt Hd. destruct (Hg tid task Ht) as [_ Hdep].
  destruct (Hdep deps d Hopt Hd) as [?|(Hex & _ & b & Hb & Hin)]; [done|].
  apply isBlocker_false_completed; [done|].
  by apply (passDependencies_resolved s task task1 b d).
Qed.

(** Replacing a task by one with the same dependencies keeps the
    invariant when a pending result is unassigned, a completed task
    stays completed, and either the result is pending with the same
    [blockedBy] or all dependencies are completed. *)
Lemma gated_update (m : gmap string Task.t) tid task task' :
  gated m → m !! tid = Some task →
  Task.dependsOn task' = Task.dependsOn task →
  (Task.status task' = pending → Task.assignedAgent task' = None) →
  (Task.status task = completed → Task.status task' = completed) →
  ((Task.status task' = pending ∧ Task.blockedBy task' = Task.blockedBy task)
   ∨ (∀ deps d, Task.dependsOn task = Some deps → d ∈ deps →
                Task.status <$> m !! d = Some completed)) →
  gated (<[tid := task']> m).
Proof.
  intros Hg Ht Hdo Hassign Hkeep Hcase.
  assert (Hdone : ∀ d, Task.status <$> m !! d = Some completed →
                       Task.status <$> <[tid := task']> m !! d = Some completed).
  { intros d Hd. destruct (decide (d = tid)) as [->|Hne].
    - rewrite lookup_insert_eq. simpl. rewrite Ht in Hd. simpl in Hd.
      f_equal. apply Hkeep. congruence.
    - by rewrite lookup_insert_ne. }
  assert (Hentry : ∀ d, hasEntry m d → hasEntry (<[tid := task']> m) d).
  { intros d. apply hasEntry_mono. intros k. apply is_Some_insert. }
  intros id t Hlook. destruct (decide (id = tid)) as [->|Hne].
  - rewrite lookup_insert_eq in Hlook. injection Hlook as <-. split; [done|].
    intros deps d Hopt Hd. rewrite Hdo in Hopt.
    destruct Hcase as [[Hp Hb]|Hall].
    + destruct (Hg tid task Ht) as [_ Hdep].
      destruct (Hdep deps d Hopt Hd) as [?|(Hex & _ & Hbl)]; [left; by apply Hdone|].
      right. split; [by apply Hentry|]. split; [done|]. by rewrite Hb.
    + left. apply Hdone. by apply (Hall deps d).
  - rewrite lookup_insert_ne in Hlook by done.
    destruct (Hg id t Hlook) as [Hassign' Hdep]. split; [done|].
    intros deps d Hopt Hd.
    destruct (Hdep deps d Hopt Hd) as [?|(Hex & Hrest)]; [left; by apply Hdone|].
    right. split; [by apply Hentry | done].
Qed.

Lemma gated_unblock x (m : gmap string Task.t) :
  gated m → Task.status <$> m !! x = Some completed →
  gated (TaskServer.unblockDependentTasks x m).
Proof.
  intros Hg Hx id t Hlook. rewrite lookup_unblockDependentTasks in Hlook.
  destruct (m !! id) as [t0|] eqn:Ht0; [|done]. simpl in Hlook. injection Hlook as <-.
  destruct (Hg id t0 Ht0) as [Hassign Hdep].
  split; [by destruct (Task.blockedBy t0)|].
  intros deps d Hopt Hd. rewrite status_unblockDependentTasks.
  assert (Task.dependsOn t0 = Some deps) as Hopt0 by (by destruct (Task.blockedBy t0)).
  destruct (Hdep deps d Hopt0 Hd) as [?|(Hex & Hp & b & Hb & Hin)]; [by left|].
  destruct (decide (d = x)) as [->|Hne]; [by left|].
  right. split.
  { eapply hasEntry_mono; [|done]. intros k [u Hu].
    rewrite lookup_unblockDependentTasks, Hu. by eexists. }
  rewrite Hb. simpl. split; [done|].
  exists (remove_first x b). split; [done|]. by apply elem_of_remove_first.
Qed.

Lemma gated_createTask s tid options now :
  TaskServer.tasks s !! tid = None →
  (∀ deps d, TaskCreateOptions.dependsOn options = Some deps → d ∈ deps →
             hasEntry (TaskServer.tasks s) d) →
  gated (TaskServer.tasks s) →
  gated (TaskServer.tasks (TaskServer.createTask s tid options now).2).
Proof.
  intros Hfresh Hdeps Hg. unfold TaskServer.createTask.
  unfold TaskServer.set_taskQueue, TaskServer.set_tasks. cbn [snd TaskServer.tasks].
  set (m := TaskServer.tasks s) in *.
  assert (Hold : ∀ d (newTask : Task.t),
             is_Some (m !! d) → (<[tid := newTask]> m) !! d = m !! d).
  { intros d newTask [dep Hd]. rewrite lookup_insert_ne; [done|]. intros Heq. subst. congruence. }
  assert (Hentry : ∀ d (newTask : Task.t),
             hasEntry m d → hasEntry (<[tid := newTask]> m) d).
  { intros d newTask. apply hasEntry_mono. intros k. apply is_Some_insert. }
  intros id task Hlook.
  destruct (decide (id = tid)) as [->|Hne].
  - rewrite lookup_insert_eq in Hlook. simplify_eq. cbn. split; [done|].
    intros deps d Hopt Hd. pose proof (Hdeps deps d Hopt Hd) as Hex.
    rewrite Hopt.
    destruct (TaskServer.isBlocker m d) eqn:Hblk.
    + right. split; [by apply Hentry|]. split; [done|].
      assert (d ∈ filter (λ depId, TaskServer.isBlocker m depId) deps) as Hin.
      { apply list_elem_of_filter. split; [by rewrite Hblk | done]. }
      destruct (filter _ deps) as [|e blockers]; [by apply not_elem_of_nil in Hin|].
      by exists (e :: blockers).
    + left. pose proof (isBlocker_false_completed m d Hex Hblk) as Hdone.
      rewrite Hold; [done|]. destruct (m !! d); [eauto | done].
  - rewrite lookup_insert_ne in Hlook by done.
    destruct (Hg id task Hlook) as [Hassign Hdep]. split; [done|].
    intros deps d Hopt Hd.
    destruct (Hdep deps d Hopt Hd) as [Hdone|(Hex & Hpend & Hb)].
    + left. rewrite Hold; [done|]. destruct (m !! d); [eauto | done].
    + right. split; [by apply Hentry | done].
Qed.

(** *** The current task of an agent *)

Lemma truthy_inv (o : option string) x :
  truthy o = Some x → o = Some x ∧ x ≠ EmptyString.
Proof.
  destruct o as [y|]; [|done]. simpl.
  destruct (String.eqb y EmptyString) eqn:He; [done|]. intros [= <-].
  split; [done|]. by apply String.eqb_neq.
Qed.

Lemma heldBy_cleared (m : gmap string Task.t) a agent :
  truthy (AgentInfo.currentTask agent) = None → heldBy m a agent.
Proof. intros Hn tid Ht. congruence. Qed.

Lemma heldBy_same_task (m : gmap string Task.t) a agent agent' :
  AgentInfo.currentTask agent' = AgentInfo.currentTask agent →
  heldBy m a agent → heldBy m a agent'.
Proof. intros Hsame Hh tid. rewrite Hsame. apply Hh. Qed.

Lemma heldBy_unblock x (m : gmap string Task.t) a agent :
  heldBy m a agent → heldBy (TaskServer.unblockDependentTasks x m) a agent.
Proof.
  intros Hh tid Hcur. destruct (Hh tid Hcur) as (t & Ht & Hag & Hnc).
  rewrite lookup_unblockDependentTasks, Ht. simpl. eexists. split; [done|].
  by destruct (Task.blockedBy t).
Qed.

(** Replacing a task while every agent keeps its record or has no
    current task: the claims on the task stay good when assignee and
    non-completion are kept, or when no agent is left with it. *)
Lemma held_replace s tid task task' (ag' : gmap string AgentInfo.t) :
  held s → TaskServer.tasks s !! tid = Some task →
  (∀ a agent, ag' !! a = Some agent →
     TaskServer.agents s !! a = Some agent
     ∨ truthy (AgentInfo.currentTask agent) = None) →
  ((Task.assignedAgent task' = Task.assignedAgent task ∧ Task.status task' ≠ completed)
   ∨ (∀ a agent, ag' !! a = Some agent →
                 truthy (AgentInfo.currentTask agent) ≠ Some tid)) →
  map_Forall (heldBy (<[tid := task']> (TaskServer.tasks s))) ag'.
Proof.
  intros Hh Ht Hag Hcase a agent Ha tid' Hcur.
  destruct (Hag a agent Ha) as [Hold|Hnone]; [|congruence].
  destruct (Hh a agent Hold tid' Hcur) as (t & Htid' & Hassigned & Hnc).
  destruct (decide (tid' = tid)) as [->|Hne].
  - rewrite lookup_insert_eq. destruct Hcase as [[Hsame Hnc']|Hnobody].
    + exists task'. rewrite Ht in Htid'. injection Htid' as <-.
      split; [done|]. split; [congruence | done].
    + by destruct (Hnobody a agent Ha).
  - rewrite lookup_insert_ne by done. by exists t.
Qed.

(** When the assignee of a task loses its current task, no agent is
    left with the task. *)
Lemma nobody_else s tid task aid (ag' : gmap string AgentInfo.t) :
  held s → TaskServer.tasks s !! tid = Some task →
  Task.assignedAgent task = Some aid →
  (∀ a agent, ag' !! a = Some agent →
     (a ≠ aid ∧ TaskServer.agents s !! a = Some agent)
     ∨ truthy (AgentInfo.currentTask agent) = None) →
  ∀ a agent, ag' !! a = Some agent → truthy (AgentInfo.currentTask agent) ≠ Some tid.
Proof.
  intros Hh Ht Hassignee Hag a agent Ha Hcur.
  destruct (Hag a agent Ha) as [[Hne Hold]|Hnone]; [|congruence].
  destruct (Hh a agent Hold tid Hcur) as (t & Ht' & Hassigned & _).
  rewrite Ht in Ht'. injection Ht' as <-. congruence.
Qed.

(** The agents after the assignee [aid] was released. *)
Lemma released_agents s aid (f : AgentInfo.t → AgentInfo.t) :
  (∀ agent, truthy (AgentInfo.currentTask (f agent)) = None) →
  let ag' := match TaskServer.agents s !! aid with
             | Some agent => <[aid := f agent]> (TaskServer.agents s)
             | None => TaskServer.agents s
             end in
  (∀ a agent, ag' !! a = Some agent →
     (a ≠ aid ∧ TaskServer.agents s !! a = Some agent)
     ∨ truthy (AgentInfo.currentTask agent) = None)
  ∧ (TaskServer.agents s !! EmptyString = None → ag' !! EmptyString = None).
Proof.
  intros Hf ag'. subst ag'.
  destruct (TaskServer.agents s !! aid) as [agent0|] eqn:Haid; split.
  - intros a agent [[<- <-]|[Hne Hold]]%lookup_insert_Some; [by right | left; by split].
  - intros Hnone. rewrite lookup_insert_ne; [done|]. intros Heq. subst. congruence.
  - intros a agent Ha. left. split; [|done]. intros ->. congruence.
  - done.
Qed.

Lemma weaken_agents (ag ag' : gmap string AgentInfo.t) aid :
  (∀ a agent, ag' !! a = Some agent →
     (a ≠ aid ∧ ag !! a = Some agent) ∨ truthy (AgentInfo.currentTask agent) = None) →
  ∀ a agent, ag' !! a = Some agent →
    ag !! a = Some agent ∨ truthy (AgentInfo.currentTask agent) = None.
Proof. intros Hag a agent Ha. destruct (Hag a agent Ha) as [[_ ?]|?]; auto. Qed.

(** *** Every operation keeps the invariant *)

Lemma coherent_new config : coherent (TaskServer.new_ config).
Proof.
  unfold coherent, TaskServer.new_. cbn. split; [|split; [|done]].
  - intros id task Hl. by rewrite lookup_empty in Hl.
  - apply map_Forall_empty.
Qed.

Lemma coherent_set_lockManager s lm' :
  coherent s → coherent (TaskServer.set_lockManager lm' s).
Proof. done. Qed.

Lemma coherent_registerAgent s aid info now :
  aid ≠ EmptyString → coherent s →
  coherent (TaskServer.registerAgent s aid info now).2.
Proof.
  intros Hne (Hg & Hh & Hno). unfold TaskServer.registerAgent, TaskServer.set_agents.
  cbn [snd]. split; [done|]. split.
  - apply map_Forall_insert_2; [|done]. by apply heldBy_cleared.
  - cbn. by rewrite lookup_insert_ne.
Qed.

Lemma coherent_updateHeartbeat s aid status now :
  coherent s → coherent (TaskServer.updateHeartbeat s aid status now).
Proof.
  intros (Hg & Hh & Hno). unfold TaskServer.updateHeartbeat.
  destruct (TaskServer.agents s !! aid) as [agent|] eqn:Hagent; [|done].
  unfold TaskServer.set_agents. split; [done|]. split.
  - apply map_Forall_insert_2; [|done].
    apply (heldBy_same_task _ _ agent); [|by apply (Hh aid)].
    destruct status as [st|]; [case_bool_decide|]; done.
  - cbn. rewrite lookup_insert_ne; [done|]. intros Heq. subst. congruence.
Qed.

Lemma coherent_delete_agent s key :
  coherent s → coherent (TaskServer.set_agents (delete key (TaskServer.agents s)) s).
Proof.
  intros (Hg & Hh & Hno). split; [done|]. split.
  - by apply map_Forall_delete.
  - cbn. apply lookup_delete_None. by right.
Qed.

Lemma coherent_createTask s tid options now :
  TaskServer.tasks s !! tid = None →
  (∀ deps d, TaskCreateOptions.dependsOn options = Some deps → d ∈ deps →
             hasEntry (TaskServer.tasks s) d) →
  coherent s → coherent (TaskServer.createTask s tid options now).2.
Proof.
  intros Hfresh Hdeps (Hg & Hh & Hno).
  split; [by apply gated_createTask|]. split; [|done].
  unfold TaskServer.createTask, TaskServer.set_taskQueue, TaskServer.set_tasks.
  intros a agent Ha t Hcur. cbn in Ha |- *.
  destruct (Hh a agent Ha t Hcur) as (task & Ht & Hrest).
  exists task. split; [|done]. rewrite lookup_insert_ne; [done|]. intros Heq. subst. congruence.
Qed.

Lemma coherent_assignTask s tid aid now :
  coherent s → coherent (TaskServer.assignTask s tid aid now).2.
Proof.
  intros (Hg & Hh & Hno). unfold TaskServer.assignTask.
  destruct (TaskServer.tasks s !! tid) as [task|] eqn:Ht; [|done].
  destruct (TaskServer.agents s !! aid) as [agent|] eqn:Hagent; [|done].
  case_bool_decide as Hst; [done|]. case_bool_decide; [done|].
  destruct (TaskServer.passDependencies s task) as [task1|] eqn:Hpass; [|done].
  assert (Task.status task = pending) as Hpend.
  { by destruct (decide (Task.status task = pending)). }
  destruct (passDependencies_fields s task task1 Hpass) as (Hst1 & Hag1 & Hdo1 & _).
  destruct (Hg tid task Ht) as [Hunassigned _].
  pose proof (gated_passed s tid task task1 Hg Ht Hpass) as Hall.
  destruct (nonempty _); cbn [snd].
  - split; [|split; [|done]].
    + cbn. apply (gated_update _ tid task task1);
        [done | done | done | | congruence | by right].
      intros _. rewrite Hag1. by apply Hunassigned.
    + unfold held. cbn [TaskServer.tasks TaskServer.agents].
      apply (held_replace s tid task task1); [done | done | by left |].
      left. split; [done|]. congruence.
  - set (task2 := TaskServer.markAssigned (TaskServer.config s) task1 tid aid now).
    pose proof (markAssigned_status (TaskServer.config s) task1 tid aid now) as Hst2.
    pose proof (markAssigned_fields (TaskServer.config s) task1 tid aid now) as Hdo2.
    fold task2 in Hst2, Hdo2.
    split; [|split].
    + cbn. apply (gated_update _ tid task task2);
        [done | done | congruence | congruence | congruence | by right].
    + intros a agent' Ha t Hcur. cbn in Ha |- *.
      apply lookup_insert_Some in Ha as [[<- <-]|[Hne Hold]].
      * change (truthy (Some tid) = Some t) in Hcur.
        apply truthy_inv in Hcur as [[= <-] _].
        exists task2. rewrite lookup_insert_eq. split; [done|]. split; [|congruence].
        subst task2. unfold TaskServer.markAssigned.
        by destruct (ServerConfig.gitIntegration _).
      * destruct (Hh a agent' Hold t Hcur) as (u & Hu & Hassigned & Hnc).
        destruct (decide (t = tid)) as [->|Hnt].
        -- rewrite Ht in Hu. injection Hu as <-.
           rewrite (Hunassigned Hpend) in Hassigned. done.
        -- exists u. by rewrite lookup_insert_ne.
    + cbn. rewrite lookup_insert_ne; [done|]. intros Heq. subst. congruence.
Qed.

Lemma coherent_startTask s tid aid now :
  statusOf s tid ≠ Some completed →
  coherent s → coherent (TaskServer.startTask s tid aid now).
Proof.
  intros Hnc (Hg & Hh & Hno). unfold TaskServer.startTask.
  destruct (TaskServer.tasks s !! tid) as [task|] eqn:Ht; [|done].
  case_bool_decide as Hguard; [done|].
  assert (Task.assignedAgent task = Some aid) as Hassignee.
  { by destruct (decide (Task.assignedAgent task = Some aid)). }
  assert (Task.status task ≠ completed) as Hnc'.
  { intros Hc. apply Hnc. unfold statusOf. by rewrite Ht, <- Hc. }
  assert (Task.status task ≠ pending) as Hnp.
  { intros Hp. destruct (Hg tid task Ht) as [Hun _]. rewrite (Hun Hp) in Hassignee. done. }
  unfold TaskServer.set_tasks. split; [|split; [|done]].
  - cbn. apply (gated_update _ tid task);
      [done | done | done | done | intros Hc; by destruct Hnc' |].
    right. by apply (gated_settled _ tid task).
  - unfold held. cbn [TaskServer.tasks TaskServer.agents].
    apply (held_replace s tid task); [done | done | by left | by left].
Qed.

Lemma coherent_completeTask s tid aid result now :
  coherent s → coherent (TaskServer.completeTask s tid aid result now).
Proof.
  intros (Hg & Hh & Hno). unfold TaskServer.completeTask.
  destruct (TaskServer.tasks s !! tid) as [task|] eqn:Ht; [|done].
  case_bool_decide as Hguard; [done|].
  assert (Task.assignedAgent task = Some aid) as Hassignee.
  { by destruct (decide (Task.assignedAgent task = Some aid)). }
  assert (Task.status task ≠ pending) as Hnp.
  { intros Hp. destruct (Hg tid task Ht) as [Hun _]. rewrite (Hun Hp) in Hassignee. done. }
  set (task2 := match Task.startedAt _ with Some _ => _ | None => _ end).
  assert (Task.status task2 = completed ∧ Task.dependsOn task2 = Task.dependsOn task)
    as [Hst2 Hdo2].
  { subst task2. simpl. by repeat case_match. }
  clearbody task2.
  destruct (released_agents s aid
              (λ agent, AgentInfo.set_completedTasks (AgentInfo.completedTasks agent + 1)
                          (AgentInfo.set_workingBranch None
                             (AgentInfo.set_currentTask None
                                (AgentInfo.set_status idle agent))))) as [Hag Hempty];
    [done|].
  split; [|split].
  - cbn. apply gated_unblock.
    + apply (gated_update _ tid task);
        [done | done | done | congruence | done |].
      right. by apply (gated_settled _ tid task).
    + rewrite lookup_insert_eq. simpl. by rewrite Hst2.
  - cbn [TaskServer.tasks TaskServer.agents]. unfold held.
    cbn [TaskServer.tasks TaskServer.agents].
    eapply map_Forall_impl; [|intros a agent; apply heldBy_unblock].
    apply (held_replace s tid task).
    + done.
    + done.
    + by apply (weaken_agents _ _ aid).
    + right. by apply (nobody_else s tid task aid).
  - cbn. by apply Hempty.
Qed.

Lemma coherent_failTask s tid aid err now :
  statusOf s tid ≠ Some completed →
  coherent s → coherent (TaskServer.failTask s tid aid err now).
Proof.
  intros Hnc (Hg & Hh & Hno). unfold TaskServer.failTask.
  destruct (TaskServer.tasks s !! tid) as [task|] eqn:Ht; [|done].
  case_bool_decide as Hguard; [done|].
  assert (Task.assignedAgent task = Some aid) as Hassignee.
  { by destruct (decide (Task.assignedAgent task = Some aid)). }
  assert (Task.status task ≠ completed) as Hnc'.
  { intros Hc. apply Hnc. unfold statusOf. by rewrite Ht, <- Hc. }
  assert (Task.status task ≠ pending) as Hnp.
  { intros Hp. destruct (Hg tid task Ht) as [Hun _]. rewrite (Hun Hp) in Hassignee. done. }
  destruct (released_agents s aid
              (λ agent, AgentInfo.set_failedTasks (AgentInfo.failedTasks agent + 1)
                          (AgentInfo.set_workingBranch None
                             (AgentInfo.set_currentTask None
                                (AgentInfo.set_status idle agent))))) as [Hag Hempty];
    [done|].
  split; [|split].
  - cbn. apply (gated_update _ tid task);
      [done | done | by case_bool_decide | by case_bool_decide
      | intros Hc; by destruct Hnc' |].
    right. by apply (gated_settled _ tid task).
  - unfold held. cbn [TaskServer.tasks TaskServer.agents].
    apply (held_replace s tid task).
    + done.
    + done.
    + by apply (weaken_agents _ _ aid).
    + right. by apply (nobody_else s tid task aid).
  - cbn. by apply Hempty.
Qed.

Lemma coherent_unassignTask s tid :
  statusOf s tid ≠ Some completed →
  coherent s → coherent (TaskServer.unassignTask s tid).
Proof.
  intros Hnc (Hg & Hh & Hno). unfold TaskServer.unassignTask.
  destruct (TaskServer.tasks s !! tid) as [task|] eqn:Ht; [|done].
  assert (Task.status task ≠ completed) as Hnc'.
  { intros Hc. apply Hnc. unfold statusOf. by rewrite Ht, <- Hc. }
  set (ag' := match truthy (Task.assignedAgent task) with
              | Some assignee => _
              | None => _
              end).
  assert (Hag : ∀ a agent, ag' !! a = Some agent →
                  TaskServer.agents s !! a = Some agent
                  ∨ truthy (AgentInfo.currentTask agent) = None).
  { subst ag'. intros a agent.
    destruct (truthy (Task.assignedAgent task)) as [b|]; [|by left].
    destruct (TaskServer.agents s !! b) as [agent0|]; [|by left].
    case_bool_decide; [|by left].
    intros [[<- <-]|[_ Hold]]%lookup_insert_Some; [by right | by left]. }
  assert (Hnobody : ∀ a agent, ag' !! a = Some agent →
                      truthy (AgentInfo.currentTask agent) ≠ Some tid).
  { intros a agent Ha Hcur.
    destruct (Hag a agent Ha) as [Hold|Hnone]; [|congruence].
    destruct (Hh a agent Hold tid Hcur) as (t & Ht' & Hassigned & _).
    rewrite Ht in Ht'. injection Ht' as <-.
    assert (a ≠ EmptyString) as Hne by (intros ->; congruence).
    apply truthy_inv in Hcur as [Hcur' _].
    subst ag'. rewrite Hassigned in Ha. rewrite (truthy_Some a Hne) in Ha.
    rewrite Hold in Ha. rewrite bool_decide_eq_true_2 in Ha by done.
    rewrite lookup_insert_eq in Ha. injection Ha as Heq.
    apply (f_equal AgentInfo.currentTask) in Heq. cbn in Heq. congruence. }
  split; [|split].
  - cbn. apply (gated_update _ tid task);
      [done | done | done | done | intros Hc; by destruct Hnc' |].
    destruct (decide (Task.status task = pending)) as [Hp|Hnp].
    + by left.
    + right. by apply (gated_settled _ tid task).
  - unfold held. cbn [TaskServer.tasks TaskServer.agents].
    apply (held_replace s tid task); [done | done | done | by right].
  - cbn. subst ag'.
    destruct (truthy (Task.assignedAgent task)) as [b|]; [|done].
    destruct (TaskServer.agents s !! b) as [agent0|] eqn:Hb; [|done].
    case_bool_decide; [|done].
    rewrite lookup_insert_ne; [done|]. intros Heq. subst. congruence.
Qed.

(** The current task of an agent is not completed. *)
Lemma held_not_completed s a agent tid :
  held s → TaskServer.agents s !! a = Some agent →
  truthy (AgentInfo.currentTask agent) = Some tid →
  statusOf s tid ≠ Some completed.
Proof.
  intros Hh Ha Hcur. destruct (Hh a agent Ha tid Hcur) as (t & Ht & _ & Hnc).
  unfold statusOf. rewrite Ht. simpl. congruence.
Qed.

Lemma coherent_unregisterAgent s aid :
  coherent s → coherent (TaskServer.unregisterAgent s aid).
Proof.
  intros Hs. unfold TaskServer.unregisterAgent.
  destruct (TaskServer.agents s !! aid) as [agent|] eqn:Hagent; [|done].
  apply coherent_delete_agent.
  destruct (truthy (AgentInfo.currentTask agent)) as [t|] eqn:Hcur; [|done].
  apply coherent_unassignTask; [|done].
  by apply (held_not_completed s aid agent t); [apply Hs|..].
Qed.

Lemma coherent_handleAgentMessage s aid message now :
  sparesCompleted s (Message.body message) →
  coherent s → coherent (TaskServer.handleAgentMessage s aid message now).
Proof.
  intros Hspare Hs. unfold TaskServer.handleAgentMessage.
  destruct (Message.body message); try done.
  - by apply coherent_updateHeartbeat.
  - by apply coherent_completeTask.
  - by apply coherent_failTask.
  - by apply coherent_unregisterAgent.
Qed.

Lemma coherent_heartbeatStep now s key :
  coherent s → coherent (TaskServer.heartbeatStep now s key).
Proof.
  intros Hs. unfold TaskServer.heartbeatStep.
  destruct (TaskServer.agents s !! key) as [agent|] eqn:Hagent; [|done].
  case_bool_decide; [|done].
  set (s1 := TaskServer.set_agents _ s).
  assert (coherent s1) as Hs1.
  { destruct Hs as (Hg & Hh & Hno). subst s1. split; [done|]. split.
    - apply map_Forall_insert_2; [|done].
      apply (heldBy_same_task _ _ agent); [done | by apply (Hh key)].
    - cbn. rewrite lookup_insert_ne; [done|]. intros Heq. subst. congruence. }
  apply coherent_set_lockManager.
  destruct (truthy (AgentInfo.currentTask agent)) as [t|] eqn:Hcur; [|done].
  apply coherent_unassignTask; [|done].
  apply (held_not_completed s1 key (AgentInfo.set_status offline agent) t);
    [apply Hs1 | | done].
  subst s1. cbn. by rewrite lookup_insert_eq.
Qed.

Lemma coherent_cleanupStep now s key :
  coherent s → coherent (TaskServer.cleanupStep now s key).
Proof.
  intros Hs. unfold TaskServer.cleanupStep.
  destruct (TaskServer.agents s !! key) as [agent|]; [|done].
  case_bool_decide; [|done].
  by apply coherent_set_lockManager, coherent_delete_agent.
Qed.

Lemma coherent_tryTasks clock aid : ∀ rest n s before,
  coherent s → coherent (TaskServer.tryTasks clock aid n s before rest).1.2.
Proof.
  induction rest as [|key rest IH]; intros n s before Hs; cbn [TaskServer.tryTasks];
    [done|].
  destruct (TaskServer.tasks s !! key) as [task|]; [|by apply IH].
  destruct (TaskServer.hasBlockers task); [by apply IH|].
  pose proof (coherent_assignTask s (Task.id task) aid (clock n) Hs) as Hs1.
  destruct (TaskServer.assignTask s (Task.id task) aid (clock n)) as [[t'|] s1];
    cbn [fst snd] in *; [done | by apply IH].
Qed.

Lemma coherent_autoAssign_loop clock idle : ∀ n s pending,
  coherent s →
  coherent (foldl (TaskServer.autoAssignStep clock) (n, s, pending) idle).1.2.
Proof.
  induction idle as [|a idle IH]; intros n s pending Hs; cbn [foldl]; [done|].
  assert (coherent (TaskServer.autoAssignStep clock (n, s, pending) a).1.2) as Hs1.
  { unfold TaskServer.autoAssignStep. destruct pending as [|k pending]; [done|].
    destruct (TaskServer.agents s !! a) as [agent|]; [|done].
    by apply coherent_tryTasks. }
  destruct (TaskServer.autoAssignStep clock (n, s, pending) a) as [[n1 s1] p1].
  by apply IH.
Qed.

Lemma coherent_fold {A} (step : TaskServer.t → A → TaskServer.t) (l : list A) :
  (∀ s x, coherent s → coherent (step s x)) →
  ∀ s, coherent s → coherent (foldl step s l).
Proof.
  intros Hstep. induction l as [|x l IH]; intros s Hs; cbn [foldl]; [done|].
  by apply IH, Hstep.
Qed.

Lemma reachable_coherent s : reachable s → coherent s.
Proof.
  induction 1.
  - apply coherent_new.
  - by apply coherent_registerAgent.
  - by apply coherent_unregisterAgent.
  - by apply coherent_updateHeartbeat.
  - by apply coherent_createTask.
  - by apply coherent_assignTask.
  - by apply coherent_startTask.
  - by apply coherent_completeTask.
  - by apply coherent_failTask.
  - by apply coherent_unassignTask.
  - by apply coherent_handleAgentMessage.
  - unfold TaskServer.checkAgentHeartbeats_in.
    apply coherent_fold; [|done]. intros. by apply coherent_heartbeatStep.
  - unfold TaskServer.cleanupDisconnectedAgents_in.
    apply coherent_fold; [|done]. intros. by apply coherent_cleanupStep.
  - unfold TaskServer.autoAssignTasks_in. by apply coherent_autoAssign_loop.
Qed.

(** C4 (as the code has it).  In every state reached from a fresh
    coordinator by the operations of the server, in any order and with
    any arguments - agents registering under non-empty ids, tasks being
    created under fresh ids with every id of [dependsOn] found in
    [state.tasks], and [startTask], [failTask] and [unassignTask]
    (direct or through a [TASK_FAILED] envelope) not being applied to a
    completed task - every completed task has each id of its
    [dependsOn] referring to an existing completed task. *)
Theorem completed_dependencies_completed s id task deps d :
  reachable s →
  TaskServer.tasks s !! id = Some task →
  Task.status task = completed →
  Task.dependsOn task = Some deps →
  d ∈ deps →
  ∃ dep, TaskServer.tasks s !! d = Some dep ∧ Task.status dep = completed.
Proof.
  intros Hreach Htask Hst Hopt Hd.
  destruct (proj1 (reachable_coherent s Hreach) id task Htask) as [_ Hdep].
  destruct (Hdep deps d Hopt Hd) as [Hdone|(_ & Hp & _)]; [|congruence].
  destruct (TaskServer.tasks s !! d) as [dep|]; [|done].
  exists dep. split; [done|]. simpl in Hdone. congruence.
Qed.

Lemma unassignTask_agent s tid task key agent :
  TaskServer.tasks s !! tid = Some task →
  Task.assignedAgent task = Some key → key ≠ EmptyString →
  TaskServer.agents s !! key = Some agent →
  AgentInfo.currentTask agent = Some tid →
  AgentInfo.status <$> TaskServer.agents (TaskServer.unassignTask s tid) !! key
  = Some idle.
Proof.
  intros Htask Hassigned Hkey Hagent Hcur. unfold TaskServer.unassignTask.
  rewrite Htask, Hassigned, (truthy_Some key Hkey). cbn [TaskServer.agents].
  rewrite Hagent, Hcur. rewrite bool_decide_eq_true_2 by done.
  by rewrite lookup_insert_eq.
Qed.

(** The loop body of [checkAgentHeartbeats] does not leave a silent
    agent offline when it holds a task assigned to it: [unassignTask]
    sets it back to idle. *)
Lemma heartbeatStep_resets_offline s key now agent tid task :
  TaskServer.agents s !! key = Some agent →
  now - AgentInfo.lastHeartbeat agent > ServerConfig.heartbeatTimeout (TaskServer.config s) →
  AgentInfo.currentTask agent = Some tid → tid ≠ EmptyString →
  TaskServer.tasks s !! tid = Some task →
  Task.assignedAgent task = Some key → key ≠ EmptyString →
  AgentInfo.status <$> TaskServer.agents (TaskServer.heartbeatStep now s key) !! key
  = Some idle.
Proof.
  intros Hagent Hsilent Hcur Htid Htask Hassigned Hkey.
  unfold TaskServer.heartbeatStep. rewrite Hagent.
  rewrite bool_decide_eq_true_2 by done.
  rewrite Hcur, (truthy_Some tid Htid).
  set (s1 := TaskServer.set_agents _ s).
  unfold TaskServer.set_lockManager. cbn [TaskServer.agents].
  apply (unassignTask_agent s1 tid task key (AgentInfo.set_status offline agent));
    try done.
  subst s1. cbn [TaskServer.set_agents TaskServer.agents]. by rewrite lookup_insert_eq.
Qed.
End task_server_properties.

(** * Task server: concrete runs *)

Section task_server_examples.
#[local] Existing Instance posix.

Lemma terminal_status_guards_witness :
  ∃ task, TaskServer.tasks st_done !! "t1" = Some task
          ∧ Task.status task = completed
          ∧ statusOf (TaskServer.assignTask st_done "t1" "A1" 20).2 "t1" = Some completed
          ∧ statusOf (TaskServer.completeTask st_done "t1" "A2" result0 20) "t1"
            = Some completed
          ∧ statusOf (TaskServer.failTask st_done "t1" "A2" "late" 20) "t1"
            = Some completed
          ∧ statusOf (TaskServer.unassignTask st_done "t2") "t1" = Some completed.
Proof.
  assert (∃ task, TaskServer.tasks st_done !! "t1" = Some task
                  ∧ Task.status task = completed
                  ∧ Task.assignedAgent task = Some "A1") as (task & Hl & Hst & Hag).
  { eexists. split; [vm_compute; reflexivity|]. split; reflexivity. }
  exists task. split; [exact Hl|]. split; [exact Hst|].
  destruct (terminal_status_guards st_done "t1" "A1" result0 "late" 20 "t1" task Hl)
    as (Hassign & _).
  destruct (terminal_status_guards st_done "t1" "A2" result0 "late" 20 "t1" task Hl)
    as (_ & Hcomplete & Hfail & _).
  destruct (terminal_status_guards st_done "t2" "A2" result0 "late" 20 "t1" task Hl)
    as (_ & _ & _ & Hun).
  rewrite Hst in *.
  split; [apply Hassign; discriminate|].
  split.
  { rewrite Hcomplete. rewrite decide_False; [reflexivity|].
    intros [_ Hbad]. rewrite Hag in Hbad. discriminate Hbad. }
  split.
  { apply Hfail. intros [_ Hbad]. rewrite Hag in Hbad. discriminate Hbad. }
  rewrite Hun. rewrite decide_False; [reflexivity | discriminate].
Defined.

(** C1 as stated fails: a completed task is pending again after
    [unassignTask], and after [failTask] by the agent that completed it;
    a failed task is completed by [completeTask] of its assignee. *)
Lemma completed_task_reopened :
  statusOf st_done "t1" = Some completed
  ∧ statusOf (TaskServer.unassignTask st_done "t1") "t1" = Some pending
  ∧ statusOf (TaskServer.failTask st_done "t1" "A1" "late" 20) "t1" = Some pending.
Proof. repeat split; vm_compute; reflexivity. Qed.

(** C2.  A1 was last heard at time 0 and holds [t1] with its write lock
    on [x]; the heartbeat check runs at 40000 with a timeout of 30000.
    The task is pending, unassigned and first in the queue and the locks
    are gone, but the agent is idle, not offline: [unassignTask], called
    after the status was set, resets it. *)
Theorem heartbeat_timeout_leaves_agent_idle :
  let s' := TaskServer.checkAgentHeartbeats st_assigned 40000 in
  AgentInfo.lastHeartbeat <$> TaskServer.agents st_assigned !! "A1" = Some 0
  ∧ ServerConfig.heartbeatTimeout (TaskServer.config st_assigned) = 30000
  ∧ AgentInfo.currentTask <$> TaskServer.agents st_assigned !! "A1" = Some (Some "t1")
  ∧ AgentInfo.status <$> TaskServer.agents s' !! "A1" = Some idle
  ∧ statusOf s' "t1" = Some pending
  ∧ Task.assignedAgent <$> TaskServer.tasks s' !! "t1" = Some None
  ∧ TaskServer.taskQueue s' = ["t1"]
  ∧ LockManager.locks (TaskServer.lockManager s') = ∅.
Proof. repeat split; vm_compute; reflexivity. Qed.

(** C3 as stated fails for [TASK_COMPLETE]: handled twice, the task id is
    twice in the history and the agent's counter is 2. *)
Lemma task_complete_handled_twice :
  let once := TaskServer.handleAgentMessage st_assigned "A1" msg_complete 10 in
  let twice := TaskServer.handleAgentMessage once "A1" msg_complete 10 in
  TaskServer.completedTasks once = ["t1"]
  ∧ TaskServer.completedTasks twice = ["t1"; "t1"]
  ∧ AgentInfo.completedTasks <$> TaskServer.agents once !! "A1" = Some 1
  ∧ AgentInfo.completedTasks <$> TaskServer.agents twice !! "A1" = Some 2
  ∧ twice ≠ once.
Proof.
  intros once twice.
  split; [vm_compute; reflexivity|]. split; [vm_compute; reflexivity|].
  split; [vm_compute; reflexivity|]. split; [vm_compute; reflexivity|].
  intros Heq. apply (f_equal TaskServer.completedTasks) in Heq.
  vm_compute in Heq. discriminate Heq.
Qed.

Lemma handleAgentMessage_repeat_witness :
  absorbedOnRepeat st_assigned "A1" msg_failed
  ∧ TaskServer.handleAgentMessage
      (TaskServer.handleAgentMessage st_assigned "A1" msg_failed 10) "A1" msg_failed 11
    = TaskServer.handleAgentMessage st_assigned "A1" msg_failed 10
  ∧ TaskServer.completedTasks
      (TaskServer.handleAgentMessage
         (TaskServer.handleAgentMessage st_assigned "A1" msg_complete 10)
         "A1" msg_complete 11)
    = TaskServer.completedTasks st_assigned ++ ["t1"; "t1"].
Proof.
  assert (absorbedOnRepeat st_assigned "A1" msg_failed) as Habs.
  { intros task Hl _. vm_compute in Hl. injection Hl as <-. reflexivity. }
  split; [exact Habs|]. split.
  - destruct (handleAgentMessage_repeat st_assigned "A1" msg_failed 10 11)
      as (_ & Hsame & _).
    exact (Hsame Habs).
  - assert (∃ task, TaskServer.tasks st_assigned !! "t1" = Some task
                    ∧ Task.assignedAgent task = Some "A1") as (task & Ht & Hassignee).
    { eexists. split; [vm_compute; reflexivity | reflexivity]. }
    destruct (handleAgentMessage_repeat st_assigned "A1" msg_complete 10 11)
      as (_ & _ & Hagain & _).
    destruct (Hagain "t1" result0 task eq_refl Ht Hassignee) as (_ & Htwice & _).
    exact Htwice.
Defined.

(** C4 as stated fails: the unknown dependency never blocks, and the
    task is completed while [ghost] names no task. *)
Lemma completed_with_unknown_dependency :
  statusOf st_ghost "c1" = Some completed
  ∧ Task.dependsOn <$> TaskServer.tasks st_ghost !! "c1" = Some (Some ["ghost"])
  ∧ TaskServer.tasks st_ghost !! "ghost" = None.
Proof. repeat split; vm_compute; reflexivity. Qed.

(** The conditions on the other operations are needed as well.  Once
    [p] and its dependent [c] are completed, [unassignTask], [failTask]
    and [startTask] each move [p] out of [completed], and [createTask]
    under the id [p] replaces it by a pending task. *)
Lemma completed_dependency_reopened :
  statusOf st_pc_done "c" = Some completed
  ∧ Task.dependsOn <$> TaskServer.tasks st_pc_done !! "c" = Some (Some ["p"])
  ∧ statusOf (TaskServer.unassignTask st_pc_done "p") "c" = Some completed
  ∧ statusOf (TaskServer.unassignTask st_pc_done "p") "p" = Some pending
  ∧ statusOf (TaskServer.failTask st_pc_done "p" "A1" "late" 7) "c" = Some completed
  ∧ statusOf (TaskServer.failTask st_pc_done "p" "A1" "late" 7) "p" = Some pending
  ∧ statusOf (TaskServer.handleAgentMessage st_pc_done "A1"
                (Message.mk "m" 7 "A1" (TASK_FAILED "p" "late")) 7) "p" = Some pending
  ∧ statusOf (TaskServer.startTask st_pc_done "p" "A1" 7) "c" = Some completed
  ∧ statusOf (TaskServer.startTask st_pc_done "p" "A1" 7) "p" = Some in_progress
  ∧ statusOf (TaskServer.createTask st_pc_done "p" optP 7).2 "c" = Some completed
  ∧ statusOf (TaskServer.createTask st_pc_done "p" optP 7).2 "p" = Some pending.
Proof. repeat split; vm_compute; reflexivity. Qed.

(** So is the condition on agent ids: with an agent registered under
    the empty id, every other operation being used as [reachable]
    allows, the heartbeat check returns the completed [p] to pending
    while [c], which depends on it, is completed. *)
Lemma nameless_agent_reopens_dependency :
  statusOf st_nameless "c" = Some completed
  ∧ Task.dependsOn <$> TaskServer.tasks st_nameless !! "c" = Some (Some ["p"])
  ∧ statusOf st_nameless "p" = Some pending.
Proof. repeat split; vm_compute; reflexivity. Qed.

Lemma completed_dependencies_completed_witness :
  reachable (TaskServer.checkAgentHeartbeats_in ["A1"] st_pc_done 100000)
  ∧ statusOf (TaskServer.checkAgentHeartbeats_in ["A1"] st_pc_done 100000) "c"
    = Some completed
  ∧ ∃ dep, TaskServer.tasks (TaskServer.checkAgentHeartbeats_in ["A1"] st_pc_done 100000)
             !! "p" = Some dep
           ∧ Task.status dep = completed.
Proof.
  set (s := TaskServer.checkAgentHeartbeats_in ["A1"] st_pc_done 100000).
  assert (reachable s) as Hreach.
  { subst s. apply reach_checkAgentHeartbeats. unfold st_pc_done.
    apply reach_completeTask, reach_assignTask, reach_completeTask, reach_assignTask.
    unfold st_pc. apply reach_createTask.
    - unfold st_p. apply reach_createTask.
      + unfold st_A. apply reach_registerAgent; [apply reach_new | discriminate].
      + reflexivity.
      + intros deps d Hopt. discriminate Hopt.
    - reflexivity.
    - intros deps d Hopt Hd. injection Hopt as <-.
      apply elem_of_cons in Hd as [->|Hd]; [|inversion Hd].
      left. eexists. vm_compute. reflexivity. }
  split; [exact Hreach|]. split; [vm_compute; reflexivity|].
  assert (∃ task, TaskServer.tasks s !! "c" = Some task
                  ∧ Task.status task = completed
                  ∧ Task.dependsOn task = Some ["p"]) as (task & Hl & Hst & Hdo).
  { eexists. split; [vm_compute; reflexivity|]. split; reflexivity. }
  apply (completed_dependencies_completed s "c" task ["p"] "p" Hreach Hl Hst Hdo).
  by left.
Defined.



(** C9 as stated fails: refused at time 100 for the conflict on [x],
    [assignTask] has meanwhile swept B's expired lock on [y]. *)
Lemma assignTask_refusal_sweeps :
  let out := TaskServer.assignTask st_B_locks "t1" "A1" 100 in
  out.1 = None
  ∧ FileLock.expiresAt <$> LockManager.locks (TaskServer.lockManager st_B_locks) !! "y"
    = Some 10
  ∧ LockManager.locks (TaskServer.lockManager out.2) !! "y" = None
  ∧ out.2 ≠ st_B_locks.
Proof.
  intros out.
  split; [vm_compute; reflexivity|]. split; [vm_compute; reflexivity|].
  split; [vm_compute; reflexivity|].
  intros Heq.
  apply (f_equal (λ s, FileLock.expiresAt
                         <$> LockManager.locks (TaskServer.lockManager s) !! "y")) in Heq.
  vm_compute in Heq. discriminate Heq.
Qed.

Lemma assignTask_refusal_frame_witness :
  refusedEarly st_A "nope" "A1"
  ∧ TaskServer.assignTask st_A "nope" "A1" 5 = (None, st_A)
  ∧ (TaskServer.assignTask st_B_locks "t1" "A1" 100).1 = None
  ∧ TaskServer.agents (TaskServer.assignTask st_B_locks "t1" "A1" 100).2
    = TaskServer.agents st_B_locks
  ∧ TaskServer.taskQueue (TaskServer.assignTask st_B_locks "t1" "A1" 100).2
    = TaskServer.taskQueue st_B_locks.
Proof.
  assert (refusedEarly st_A "nope" "A1") as Hearly by exact I.
  assert ((TaskServer.assignTask st_B_locks "t1" "A1" 100).1 = None) as Hnone
    by (vm_compute; reflexivity).
  destruct (assignTask_refusal_frame st_A "nope" "A1" 5) as [Hsame _].
  destruct (assignTask_refusal_frame st_B_locks "t1" "A1" 100) as [_ Hframe].
  split; [exact Hearly|]. split; [exact (Hsame Hearly)|]. split; [exact Hnone|].
  destruct (Hframe Hnone) as [[_ ->]|(task & task1 & files & _ & _ & _ & _ & ->)];
    split; reflexivity.
Defined.
End task_server_examples.

(** * Lock manager: further properties *)

Section lock_manager_more.
Context `{PathApi}.
Implicit Types (lm : LockManager.t) (m : gmap string FileLock.t).
Implicit Types (req : LockRequest.t) (now : Z) (p k a : string).

Lemma keyed_insert m k l : keyed m → FileLock.path l = k → keyed (<[k := l]> m).
Proof.
  intros Hm Hl k' l'. destruct (decide (k = k')) as [->|Hne].
  - rewrite lookup_insert_eq. by intros [= <-].
  - rewrite lookup_insert_ne by done. apply Hm.
Qed.

Lemma keyed_subseteq m m' : m' ⊆ m → keyed m → keyed m'.
Proof. intros Hsub Hm k l Hl. apply Hm. by eapply lookup_weaken. Qed.

Lemma keyed_grantAll lm req now m ps : keyed m → keyed (grantAll lm req now m ps).
Proof.
  intros Hm k l. rewrite lookup_grantAll. case_decide; [|apply Hm].
  by intros [= <-].
Qed.

Lemma keyed_release_loop lm a ps m rel :
  keyed m → keyed (foldl (LockManager.releaseStep lm a) (m, rel) ps).1.
Proof.
  intros Hm k l. rewrite release_loop_lookup.
  destruct (m !! k) as [l0|] eqn:Hk; [|done].
  case_decide; [done|]. intros [= <-]. by apply Hm.
Qed.

Lemma keyed_loadLocks lm data now :
  keyed (LockManager.locks lm) → keyed (LockManager.locks (LockManager.loadLocks lm data now)).
Proof.
  unfold LockManager.loadLocks. cbn [LockManager.set_locks LockManager.locks].
  generalize (LockManager.locks lm) as m.
  induction data as [|x data IH]; intros m Hm; [done|].
  cbn [foldl]. apply IH. case_bool_decide; [|done]. by apply keyed_insert.
Qed.

(** X1.  Every lock is stored under its own [path]: the invariant holds
    for the empty table and every operation of the lock manager keeps
    it, loading the file included. *)
Theorem lock_paths_are_keys lm :
  keyed (LockManager.locks lm) →
  (∀ req now, keyed (LockManager.locks (LockManager.acquireLocks lm req now).2))
  ∧ (∀ a ps, keyed (LockManager.locks (LockManager.releaseLocks lm a ps).2))
  ∧ (∀ a, keyed (LockManager.locks (LockManager.releaseAllLocks lm a).2))
  ∧ (∀ t, keyed (LockManager.locks (LockManager.releaseTaskLocks lm t).2))
  ∧ (∀ a p add, keyed (LockManager.locks (LockManager.extendLock lm a p add).2))
  ∧ (∀ p now, keyed (LockManager.locks (LockManager.isLocked lm p now).2))
  ∧ (∀ p, keyed (LockManager.locks (LockManager.forceRelease lm p).2))
  ∧ (∀ a ps now, keyed (LockManager.locks (LockManager.checkConflicts lm a ps now).2))
  ∧ (∀ now, keyed (LockManager.locks (LockManager.getAllLocks lm now).2))
  ∧ (∀ data now, keyed (LockManager.locks (LockManager.loadLocks lm data now))).
Proof.
  intros Hm.
  assert (Hsweep : ∀ now, keyed (LockManager.sweep now (LockManager.locks lm))).
  { intros now. eapply keyed_subseteq; [apply map_filter_subseteq | done]. }
  repeat split.
  - intros req now. rewrite acquireLocks_locks. by apply keyed_grantAll.
  - intros a ps. rewrite releaseLocks_locks. by apply keyed_release_loop.
  - intros a. unfold LockManager.releaseAllLocks, LockManager.saveLocks_if. simpl.
    destruct (nonempty _); simpl;
      (eapply keyed_subseteq; [apply map_filter_subseteq | done]).
  - intros t. rewrite releaseTaskLocks_locks.
    eapply keyed_subseteq; [apply map_filter_subseteq | done].
  - intros a p add. unfold LockManager.extendLock.
    destruct (LockManager.locks lm !! LockManager.normalizePath lm p) as [l|] eqn:Hl;
      [|done].
    case_bool_decide; [done|]. simpl. apply keyed_insert; [done|].
    simpl. by apply Hm.
  - intros p now. unfold LockManager.isLocked.
    destruct (LockManager.locks lm !! LockManager.normalizePath lm p) as [l|]; [|done].
    case_bool_decide; [|done]. simpl.
    eapply keyed_subseteq; [apply delete_subseteq | done].
  - intros p. unfold LockManager.forceRelease.
    destruct (LockManager.locks lm !! LockManager.normalizePath lm p) as [l|]; [|done].
    simpl. eapply keyed_subseteq; [apply delete_subseteq | done].
  - intros a ps now. unfold LockManager.checkConflicts. cbn [snd].
    rewrite cleanExpiredLocks_locks. apply Hsweep.
  - intros now. unfold LockManager.getAllLocks. cbn [snd].
    rewrite cleanExpiredLocks_locks. apply Hsweep.
  - intros data now. by apply keyed_loadLocks.
Qed.

Lemma filter_all {A} (P : A → Prop) `{∀ x, Decision (P x)} (l : list A) :
  (∀ x, x ∈ l → P x) → filter P l = l.
Proof.
  induction l as [|x l IH]; intros Hall; [done|].
  rewrite filter_cons, decide_True by (apply Hall; by left).
  f_equal. apply IH. intros y Hy. apply Hall. by right.
Qed.

Lemma filter_none {A} (P : A → Prop) `{∀ x, Decision (P x)} (l : list A) :
  (∀ x, x ∈ l → ¬ P x) → filter P l = [].
Proof.
  induction l as [|x l IH]; intros Hall; [done|].
  rewrite filter_cons, decide_False by (apply Hall; by left).
  apply IH. intros y Hy. apply Hall. by right.
Qed.

(** ** Loading the file *)

Lemma load_loop_miss now (data : list FileLock.t) m k :
  (∀ l, l ∈ data → FileLock.path l = k → ¬ now < FileLock.expiresAt l) →
  foldl (λ m lock,
           if bool_decide (now < FileLock.expiresAt lock)
           then <[FileLock.path lock := lock]> m else m) m data !! k
  = m !! k.
Proof.
  revert m. induction data as [|x data IH]; intros m Hmiss; [done|].
  cbn [foldl]. rewrite IH by (intros l Hl; apply Hmiss; by right).
  case_bool_decide as Hlive; [|done].
  rewrite lookup_insert_ne; [done|]. intros Hk.
  by apply (Hmiss x); [left| |].
Qed.

Lemma load_loop_hit now (data : list FileLock.t) m l :
  NoDup (FileLock.path <$> data) →
  l ∈ data → now < FileLock.expiresAt l →
  foldl (λ m lock,
           if bool_decide (now < FileLock.expiresAt lock)
           then <[FileLock.path lock := lock]> m else m) m data !! FileLock.path l
  = Some l.
Proof.
  revert m. induction data as [|x data IH]; intros m Hnd Hl Hlive.
  { by apply not_elem_of_nil in Hl. }
  rewrite fmap_cons in Hnd. apply NoDup_cons in Hnd as [Hx Hnd].
  cbn [foldl]. apply elem_of_cons in Hl as [->|Hl].
  - rewrite load_loop_miss.
    + rewrite bool_decide_eq_true_2 by done. apply lookup_insert_eq.
    + intros l' Hl' Hpath. destruct Hx. rewrite <- Hpath.
      apply list_elem_of_fmap. by exists l'.
  - by apply IH.
Qed.

(** X2.  Restart.  A lock manager that starts empty at time [now] and
    loads the records [saveLocks] wrote holds exactly the saved locks
    with [expiresAt > now], whatever the order of the records in the
    file - provided every saved lock sat under its own path, which the
    operations of the lock manager maintain. *)
Theorem loadLocks_restores_saved lm (data : list FileLock.t) now d0 root timeout :
  keyed (LockManager.locks lm) →
  data ≡ₚ (map_to_list (LockManager.disk (LockManager.saveLocks lm))).*2 →
  LockManager.locks (LockManager.loadLocks (LockManager.mk ∅ d0 root timeout) data now)
  = filter (λ kv, now < FileLock.expiresAt kv.2) (LockManager.locks lm).
Proof.
  intros Hkeyed Hdata. cbn [LockManager.saveLocks LockManager.disk] in Hdata.
  set (m := LockManager.locks lm) in *.
  unfold LockManager.loadLocks. cbn [LockManager.set_locks LockManager.locks].
  assert (Hin : ∀ l, l ∈ data ↔ ∃ k, m !! k = Some l).
  { intros l. rewrite Hdata, list_elem_of_fmap. split.
    - intros ([k l'] & -> & Hkl). exists k. by apply elem_of_map_to_list.
    - intros [k Hk]. exists (k, l). split; [done|]. by apply elem_of_map_to_list. }
  assert (Hnd : NoDup (FileLock.path <$> data)).
  { rewrite Hdata. rewrite <- list_fmap_compose.
    assert ((FileLock.path ∘ snd) <$> map_to_list m = (map_to_list m).*1) as ->.
    { apply list_fmap_ext. intros i [k l] Hi. simpl.
      apply Hkeyed. apply elem_of_map_to_list. by eapply list_elem_of_lookup_2. }
    apply NoDup_fst_map_to_list. }
  apply map_eq. intros k.
  destruct (m !! k) as [l|] eqn:Hk.
  - destruct (decide (now < FileLock.expiresAt l)) as [Hlive|Hdead].
    + rewrite (map_lookup_filter_Some_2 _ m k l) by done.
      rewrite <- (Hkeyed k l Hk). apply load_loop_hit; [done| |done].
      apply Hin. by exists k.
    + rewrite load_loop_miss.
      * rewrite lookup_empty. symmetry. apply map_lookup_filter_None. right.
        intros l' Hl'. simpl. congruence.
      * intros l' Hl' Hpath. apply Hin in Hl' as [k' Hk'].
        rewrite (Hkeyed k' l' Hk') in Hpath. by simplify_eq.
  - rewrite load_loop_miss.
    + rewrite lookup_empty. symmetry. apply map_lookup_filter_None. by left.
    + intros l' Hl' Hpath. apply Hin in Hl' as [k' Hk'].
      rewrite (Hkeyed k' l' Hk') in Hpath. by simplify_eq.
Qed.

(** ** Releasing *)

Lemma release_loop_released lm a ps m rel :
  ∃ new,
    (foldl (LockManager.releaseStep lm a) (m, rel) ps).2 = rel ++ new
    ∧ (∀ p, p ∈ new →
            p ∈ ps ∧ ∃ l, m !! LockManager.normalizePath lm p = Some l
                          ∧ FileLock.agentId l = a)
    ∧ (∀ p l, p ∈ ps → m !! LockManager.normalizePath lm p = Some l →
              FileLock.agentId l = a →
              LockManager.normalizePath lm p ∈ LockManager.normalizePath lm <$> new).
Proof.
  revert m rel. induction ps as [|x ps IH]; intros m rel.
  { exists []. rewrite app_nil_r. split; [done|]. split.
    - intros p Hp. by apply not_elem_of_nil in Hp.
    - intros p l Hp. by apply not_elem_of_nil in Hp. }
  cbn [foldl]. unfold LockManager.releaseStep at 2.
  destruct (m !! LockManager.normalizePath lm x) as [lx|] eqn:Hx.
  - case_bool_decide as Hown.
    + destruct (IH (delete (LockManager.normalizePath lm x) m) (rel ++ [x]))
        as (new & Heq & Hsound & Hcover).
      exists (x :: new). split; [by rewrite Heq, <- app_assoc|]. split.
      * intros p Hp. apply elem_of_cons in Hp as [->|Hp].
        -- split; [by left | eauto].
        -- destruct (Hsound p Hp) as (Hin & l & Hl & Hl').
           split; [by right|]. exists l. split; [|done].
           by apply lookup_delete_Some in Hl as [_ Hl].
      * intros p l Hp Hl Ha. rewrite fmap_cons.
        destruct (decide (LockManager.normalizePath lm p = LockManager.normalizePath lm x))
          as [->|Hne]; [by left|].
        right. apply (Hcover p l); [|by rewrite lookup_delete_ne|done].
        apply elem_of_cons in Hp as [->|Hp]; [done | done].
    + destruct (IH m rel) as (new & Heq & Hsound & Hcover).
      exists new. split; [done|]. split.
      * intros p Hp. destruct (Hsound p Hp) as [Hin Hl]. split; [by right | done].
      * intros p l Hp Hl Ha. apply (Hcover p l); [|done|done].
        apply elem_of_cons in Hp as [->|Hp]; [|done]. congruence.
  - destruct (IH m rel) as (new & Heq & Hsound & Hcover).
    exists new. split; [done|]. split.
    * intros p Hp. destruct (Hsound p Hp) as [Hin Hl]. split; [by right | done].
    * intros p l Hp Hl Ha. apply (Hcover p l); [|done|done].
      apply elem_of_cons in Hp as [->|Hp]; [|done]. congruence.
Qed.

(** X3.  [releaseLocks] removes exactly the locks under the requested
    paths that the agent owns.  It never adds or alters a lock; a lock of
    another agent, or under a path that was not requested, stays; every
    reported path was requested and owned, and every requested path the
    agent owned is gone and reported (under some spelling with the same
    normal form); when nothing is reported the manager, the file
    included, is unchanged. *)
Theorem releaseLocks_owner_only lm a ps :
  let released := (LockManager.releaseLocks lm a ps).1 in
  let lm' := (LockManager.releaseLocks lm a ps).2 in
  (∀ k l, LockManager.locks lm' !! k = Some l → LockManager.locks lm !! k = Some l)
  ∧ (∀ k l, LockManager.locks lm !! k = Some l →
            FileLock.agentId l ≠ a ∨ k ∉ LockManager.normalizePath lm <$> ps →
            LockManager.locks lm' !! k = Some l)
  ∧ (∀ p l, p ∈ ps → LockManager.locks lm !! LockManager.normalizePath lm p = Some l →
            FileLock.agentId l = a →
            LockManager.locks lm' !! LockManager.normalizePath lm p = None
            ∧ LockManager.normalizePath lm p ∈ LockManager.normalizePath lm <$> released)
  ∧ (∀ p, p ∈ released →
          p ∈ ps ∧ ∃ l, LockManager.locks lm !! LockManager.normalizePath lm p = Some l
                        ∧ FileLock.agentId l = a)
  ∧ (released = [] → lm' = lm).
Proof.
  intros released lm'.
  destruct (release_loop_released lm a ps (LockManager.locks lm) [])
    as (new & Heq & Hsound & Hcover).
  assert (released = new) as Hrel.
  { subst released. unfold LockManager.releaseLocks.
    destruct (foldl _ _ ps) as [m rel] eqn:Hloop. by simpl in *. }
  assert (Hlook : ∀ k, LockManager.locks lm' !! k
                       = match LockManager.locks lm !! k with
                         | Some l =>
                             if decide (k ∈ LockManager.normalizePath lm <$> ps
                                        ∧ FileLock.agentId l = a)
                             then None else Some l
                         | None => None
                         end).
  { intros k. subst lm'. by rewrite releaseLocks_locks, release_loop_lookup. }
  split; [|split; [|split; [|split]]].
  - intros k l. rewrite Hlook. destruct (LockManager.locks lm !! k); [|done].
    by case_decide.
  - intros k l Hl Hkeep. rewrite Hlook, Hl. rewrite decide_False; [done | tauto].
  - intros p l Hp Hl Ha. split.
    + rewrite Hlook, Hl. rewrite decide_True; [done|]. split; [|done].
      apply list_elem_of_fmap. by exists p.
    + rewrite Hrel. by apply (Hcover p l).
  - intros p. rewrite Hrel. apply Hsound.
  - intros Hnil. subst lm'. unfold LockManager.releaseLocks.
    destruct (foldl _ _ ps) as [m rel] eqn:Hloop.
    assert (rel = []) as -> by (subst released; unfold LockManager.releaseLocks in Hnil;
                                 by rewrite Hloop in Hnil).
    simpl. assert (m = LockManager.locks lm) as ->; [|by destruct lm].
    apply map_eq. intros k.
    pose proof (release_loop_lookup lm a ps (LockManager.locks lm) [] k) as Hk.
    rewrite Hloop in Hk. simpl in Hk. rewrite Hk.
    destruct (LockManager.locks lm !! k) as [l|] eqn:Hl; [|done].
    rewrite decide_False; [done|]. intros [Hin Ha].
    apply list_elem_of_fmap in Hin as (p & -> & Hp).
    pose proof (Hcover p l Hp Hl Ha) as Hc. rewrite <- Hrel, Hnil in Hc.
    by apply not_elem_of_nil in Hc.
Qed.

(** ** Checking, then acquiring *)

Lemma conflictsOf_nil lm a ps :
  LockManager.conflictsOf lm a ps = [] →
  ∀ p l, p ∈ ps → LockManager.locks lm !! LockManager.normalizePath lm p = Some l →
         FileLock.agentId l = a.
Proof.
  unfold LockManager.conflictsOf. intros Hnil p l Hp Hl.
  destruct (decide (FileLock.agentId l = a)) as [|Hne]; [done|].
  assert (Conflict.mk p (FileLock.agentId l)
          ∈ omap (λ filePath,
                    match LockManager.locks lm !! LockManager.normalizePath lm filePath with
                    | Some lock =>
                        if bool_decide (FileLock.agentId lock ≠ a)
                        then Some (Conflict.mk filePath (FileLock.agentId lock))
                        else None
                    | None => None
                    end) ps) as Hin.
  { apply list_elem_of_omap. exists p. split; [done|].
    rewrite Hl. by rewrite bool_decide_eq_true_2. }
  rewrite Hnil in Hin. by apply not_elem_of_nil in Hin.
Qed.

Lemma clear_paths_granted lm a ps taskId lockType timeoutMs now :
  LockManager.conflictsOf lm a ps = [] →
  LockManager.acquireLocks lm (LockRequest.mk a taskId ps lockType timeoutMs) now
  = (LockResult.mk true ps [] None,
     LockManager.saveLocks_if (nonempty ps)
       (LockManager.set_locks
          (grantAll lm (LockRequest.mk a taskId ps lockType timeoutMs) now
             (LockManager.sweep now (LockManager.locks lm)) ps)
          (LockManager.cleanExpiredLocks lm now).2)).
Proof.
  intros Hclear. rewrite acquireLocks_unfold.
  set (req := LockRequest.mk a taskId ps lockType timeoutMs).
  set (m0 := LockManager.sweep now (LockManager.locks lm)).
  assert (Hup : ∀ p, p ∈ ps → ¬ turnedDown lm req m0 p).
  { intros p Hp Hdown.
    destruct (turnedDown_inv _ _ _ _ Hdown) as (l & Hl & Hagent & _).
    apply lookup_sweep in Hl as [Hl _].
    by pose proof (conflictsOf_nil lm a ps Hclear p l Hp Hl). }
  cbn [LockRequest.paths req].
  rewrite (filter_all (λ p, ¬ turnedDown lm req m0 p) ps Hup).
  by rewrite (filter_none (turnedDown lm req m0) ps Hup).
Qed.

(** X4.  When [checkConflicts] reports nothing for an agent and a list of
    paths, a request of that agent for those paths, made on the manager
    the check leaves, at whatever time and for whatever lock type, task
    and timeout, is granted in full. *)
Theorem checkConflicts_clear_then_acquire lm a ps now taskId lockType timeoutMs now' :
  (LockManager.checkConflicts lm a ps now).1 = [] →
  let res :=
    (LockManager.acquireLocks (LockManager.checkConflicts lm a ps now).2
       (LockRequest.mk a taskId ps lockType timeoutMs) now').1 in
  LockResult.success res = true
  ∧ LockResult.acquired res = ps
  ∧ LockResult.failed res = []
  ∧ LockResult.conflicts res = None.
Proof.
  unfold LockManager.checkConflicts. cbn [fst snd]. intros Hclear.
  by rewrite (clear_paths_granted _ a ps taskId lockType timeoutMs now' Hclear).
Qed.

(** ** Reading *)

Lemma elem_of_getAllLocks lm now l :
  l ∈ (LockManager.getAllLocks lm now).1
  ↔ ∃ k, LockManager.locks lm !! k = Some l ∧ now ≤ FileLock.expiresAt l.
Proof.
  unfold LockManager.getAllLocks. cbn [fst]. rewrite cleanExpiredLocks_locks.
  rewrite list_elem_of_fmap. split.
  - intros ([k l'] & -> & Hkl). exists k. apply lookup_sweep.
    by apply elem_of_map_to_list.
  - intros (k & Hl). exists (k, l). split; [done|].
    apply elem_of_map_to_list. by apply lookup_sweep.
Qed.

Lemma cleanExpiredLocks_twice lm now :
  (LockManager.cleanExpiredLocks (LockManager.cleanExpiredLocks lm now).2 now).2
  = (LockManager.cleanExpiredLocks lm now).2.
Proof.
  apply cleanExpiredLocks_id. intros k l. rewrite cleanExpiredLocks_locks, lookup_sweep.
  tauto.
Qed.

(** X5.  The read operations agree.  [getAllLocks] lists exactly the
    locks of the table with [expiresAt >= now]; listing again at the same
    time gives the same list and changes nothing; and, the locks sitting
    under their own paths, [isLocked] answers true for a path exactly
    when [getAllLocks] lists a lock for its normal form.  [isLocked]
    never writes the file. *)
Theorem isLocked_agrees_with_getAllLocks lm p now :
  keyed (LockManager.locks lm) →
  ((LockManager.isLocked lm p now).1 = true
   ↔ ∃ l, l ∈ (LockManager.getAllLocks lm now).1
          ∧ FileLock.path l = LockManager.normalizePath lm p)
  ∧ (∀ l, l ∈ (LockManager.getAllLocks lm now).1
          ↔ ∃ k, LockManager.locks lm !! k = Some l ∧ now ≤ FileLock.expiresAt l)
  ∧ LockManager.getAllLocks (LockManager.getAllLocks lm now).2 now
    = LockManager.getAllLocks lm now
  ∧ LockManager.disk (LockManager.isLocked lm p now).2 = LockManager.disk lm.
Proof.
  intros Hkeyed. split; [|split; [|split]].
  - unfold LockManager.isLocked.
    destruct (LockManager.locks lm !! LockManager.normalizePath lm p) as [l|] eqn:Hl.
    + case_bool_decide as Hexp; cbn [fst]; split; try done.
      * intros (l' & Hin & Hpath). apply elem_of_getAllLocks in Hin as (k & Hk & Hlive).
        rewrite (Hkeyed k l' Hk) in Hpath. simplify_eq. lia.
      * intros _. exists l. split; [|by apply Hkeyed].
        apply elem_of_getAllLocks. exists (LockManager.normalizePath lm p).
        split; [done | lia].
    + cbn [fst]. split; [done|].
      intros (l' & Hin & Hpath). apply elem_of_getAllLocks in Hin as (k & Hk & _).
      rewrite (Hkeyed k l' Hk) in Hpath. by simplify_eq.
  - apply elem_of_getAllLocks.
  - unfold LockManager.getAllLocks. cbn [fst snd]. by rewrite cleanExpiredLocks_twice.
  - unfold LockManager.isLocked.
    destruct (LockManager.locks lm !! LockManager.normalizePath lm p) as [l|]; [|done].
    by case_bool_decide.
Qed.

(** X6.  [extendLock] is for the owner and does not look at the clock.
    Called by the agent that holds the lock under the path, it answers
    true, moves [expiresAt] by [additionalMs] and nothing else, leaves
    every other lock alone and writes the file; the lock then counts as
    held up to the new deadline, also when the old one had passed.
    Called by anybody else, or for a path without a lock, it answers
    false and changes nothing. *)
Theorem extendLock_owner_only lm a p additionalMs :
  let out := LockManager.extendLock lm a p additionalMs in
  let k := LockManager.normalizePath lm p in
  (∀ l, LockManager.locks lm !! k = Some l → FileLock.agentId l = a →
        out.1 = true
        ∧ LockManager.locks out.2 !! k
          = Some (FileLock.mk (FileLock.path l) (FileLock.agentId l) (FileLock.taskId l)
                    (FileLock.lockedAt l) (FileLock.expiresAt l + additionalMs)
                    (FileLock.lockType l))
        ∧ (∀ k', k' ≠ k → LockManager.locks out.2 !! k' = LockManager.locks lm !! k')
        ∧ LockManager.disk out.2 = LockManager.locks out.2
        ∧ ∀ now, (LockManager.isLocked out.2 p now).1
                 = bool_decide (now ≤ FileLock.expiresAt l + additionalMs))
  ∧ ((∀ l, LockManager.locks lm !! k = Some l → FileLock.agentId l ≠ a) →
     out = (false, lm)).
Proof.
  intros out k. subst out k. unfold LockManager.extendLock. split.
  - intros l Hl Ha. rewrite Hl. rewrite bool_decide_eq_false_2 by (intros Hne; by apply Hne).
    cbn [fst snd]. split; [done|].
    cbn [LockManager.saveLocks LockManager.set_locks LockManager.locks LockManager.disk].
    split; [by rewrite lookup_insert_eq|]. split.
    { intros k' Hne. by rewrite lookup_insert_ne. }
    split; [done|].
    intros now. set (lm2 := LockManager.saveLocks _).
    assert (LockManager.normalizePath lm2 p = LockManager.normalizePath lm p) as Hn
      by reflexivity.
    assert (LockManager.locks lm2 !! LockManager.normalizePath lm2 p
            = Some (FileLock.set_expiresAt (FileLock.expiresAt l + additionalMs) l)) as Hl2.
    { rewrite Hn. subst lm2. cbn [LockManager.saveLocks LockManager.set_locks LockManager.locks].
      apply lookup_insert_eq. }
    unfold LockManager.isLocked. rewrite Hl2.
    cbn [FileLock.expiresAt FileLock.set_expiresAt].
    case_bool_decide as Hexp; cbn [fst]; symmetry.
    + apply bool_decide_eq_false_2. lia.
    + apply bool_decide_eq_true_2. lia.
  - intros Hnot. destruct (LockManager.locks lm !! LockManager.normalizePath lm p)
      as [l|] eqn:Hl; [|done].
    by rewrite bool_decide_eq_true_2 by (by apply Hnot).
Qed.
End lock_manager_more.

(** * Lock manager: further concrete runs *)

Section lock_manager_more_examples.
#[local] Existing Instance posix.

Lemma keyed_lm_A_x_B_y : keyed (LockManager.locks lm_A_x_B_y).
Proof.
  intros k l Hl. unfold lm_A_x_B_y in Hl. cbn [LockManager.locks] in Hl.
  apply lookup_insert_Some in Hl as [[<- <-]|[_ Hl]]; [reflexivity|].
  apply lookup_singleton_Some in Hl as [<- <-]. reflexivity.
Qed.

Lemma lock_paths_are_keys_witness :
  keyed (LockManager.locks lm_A_x_B_y)
  ∧ keyed (LockManager.locks (LockManager.acquireLocks lm_A_x_B_y reqA_xy 1000).2).
Proof.
  split; [exact keyed_lm_A_x_B_y|].
  destruct (lock_paths_are_keys lm_A_x_B_y keyed_lm_A_x_B_y) as (Hacq & _).
  apply Hacq.
Defined.
End lock_manager_more_examples.

(** * Task server: further properties *)

Section task_server_more.
Context `{PathApi}.
Implicit Types (s : TaskServer.t) (task : Task.t) (agent : AgentInfo.t).
Implicit Types (tid aid id : string) (now : Z).

Lemma passDependencies_targetFiles s task task1 :
  TaskServer.passDependencies s task = Some task1 →
  Task.targetFiles task1 = Task.targetFiles task
  ∧ Task.attempts task1 = Task.attempts task
  ∧ ∀ b, Task.blockedBy task1 = Some b → nonempty b = false.
Proof.
  unfold TaskServer.passDependencies. intros Hpass.
  destruct (Task.blockedBy task) as [b|] eqn:Hb.
  - destruct (nonempty b) eqn:Hne.
    + destruct (nonempty (filter _ b)); [done|]. simplify_eq. simpl.
      split; [done|]. split; [done|]. by intros b' [= <-].
    + simplify_eq. split; [done|]. split; [done|]. rewrite Hb. by intros b' [= <-].
  - simplify_eq. split; [done|]. split; [done|]. by rewrite Hb.
Qed.

Lemma markAssigned_more config task tid aid now :
  let task' := TaskServer.markAssigned config task tid aid now in
  Task.assignedAgent task' = Some aid
  ∧ Task.assignedAt task' = Some now
  ∧ Task.attempts task' = Task.attempts task + 1
  ∧ Task.targetFiles task' = Task.targetFiles task
  ∧ Task.blockedBy task' = Task.blockedBy task.
Proof. unfold TaskServer.markAssigned. by destruct (ServerConfig.gitIntegration config). Qed.

(** X7.  A successful [assignTask].  The task was pending with every
    entry of [blockedBy] resolved and the agent idle; afterwards the task
    is assigned to the agent with one more attempt and an empty
    [blockedBy], the agent is working on it, the first occurrence of its
    id has left the queue, no other task or agent has changed, and every
    target file carries a fresh write lock of the agent for the task
    that expires [defaultTimeout] after [now]. *)
Theorem assignTask_success s tid aid now task' s' :
  TaskServer.assignTask s tid aid now = (Some task', s') →
  ∃ task agent,
    TaskServer.tasks s !! tid = Some task
    ∧ Task.status task = pending
    ∧ TaskServer.agents s !! aid = Some agent
    ∧ AgentInfo.status agent = idle
    ∧ (∀ b d, Task.blockedBy task = Some b → d ∈ b →
              TaskServer.isBlocker (TaskServer.tasks s) d = false)
    ∧ TaskServer.tasks s' !! tid = Some task'
    ∧ Task.status task' = assigned
    ∧ Task.assignedAgent task' = Some aid
    ∧ Task.assignedAt task' = Some now
    ∧ Task.attempts task' = Task.attempts task + 1
    ∧ (∀ b, Task.blockedBy task' = Some b → b = [])
    ∧ (∃ agent', TaskServer.agents s' !! aid = Some agent'
                 ∧ AgentInfo.status agent' = working
                 ∧ AgentInfo.currentTask agent' = Some tid)
    ∧ (∀ id, id ≠ tid → TaskServer.tasks s' !! id = TaskServer.tasks s !! id)
    ∧ (∀ id, id ≠ aid → TaskServer.agents s' !! id = TaskServer.agents s !! id)
    ∧ TaskServer.taskQueue s' = remove_first tid (TaskServer.taskQueue s)
    ∧ TaskServer.completedTasks s' = TaskServer.completedTasks s
    ∧ ∀ files p, Task.targetFiles task = Some files → p ∈ files →
        LockManager.locks (TaskServer.lockManager s')
          !! LockManager.normalizePath (TaskServer.lockManager s) p
        = Some (FileLock.mk (LockManager.normalizePath (TaskServer.lockManager s) p)
                  aid tid now
                  (now + LockManager.defaultTimeout (TaskServer.lockManager s)) write).
Proof.
  unfold TaskServer.assignTask.
  destruct (TaskServer.tasks s !! tid) as [task|] eqn:Ht; [|done].
  destruct (TaskServer.agents s !! aid) as [agent|] eqn:Ha; [|done].
  case_bool_decide as Hst; [done|]. case_bool_decide as Hidle; [done|].
  destruct (TaskServer.passDependencies s task) as [task1|] eqn:Hpass; [|done].
  destruct (nonempty _) eqn:Hcs; [done|]. intros [= <- <-].
  exists task, agent.
  destruct (passDependencies_fields s task task1 Hpass) as (Hst1 & _ & _ & _).
  destruct (passDependencies_targetFiles s task task1 Hpass) as (Hfiles1 & Hatt1 & Hb1).
  destruct (markAssigned_more (TaskServer.config s) task1 tid aid now)
    as (Hag2 & Hat2 & Hatt2 & Hfiles2 & Hb2).
  pose proof (markAssigned_status (TaskServer.config s) task1 tid aid now) as Hst2.
  set (task2 := TaskServer.markAssigned (TaskServer.config s) task1 tid aid now) in *.
  cbn [TaskServer.tasks TaskServer.agents TaskServer.taskQueue TaskServer.completedTasks
       TaskServer.lockManager].
  split; [done|]. split; [by destruct (decide (Task.status task = pending))|].
  split; [done|]. split; [by destruct (decide (AgentInfo.status agent = idle))|].
  split; [intros b d Hb Hd; by apply (passDependencies_resolved s task task1 b d)|].
  split; [by rewrite lookup_insert_eq|]. split; [done|]. split; [done|].
  split; [done|]. split; [by rewrite Hatt2, Hatt1|].
  split.
  { intros b Hb. rewrite Hb2 in Hb. specialize (Hb1 b Hb). by destruct b. }
  split.
  { eexists. rewrite lookup_insert_eq. split; [done|]. by simpl. }
  split; [intros id Hne; by rewrite lookup_insert_ne|].
  split; [intros id Hne; by rewrite lookup_insert_ne|].
  split; [done|]. split; [done|].
  intros files p Hfiles Hp.
  unfold TaskServer.lockTargetFiles. rewrite Hfiles2, Hfiles1, Hfiles.
  unfold TaskServer.fileConflicts in *. rewrite Hfiles1, Hfiles in *.
  unfold LockManager.checkConflicts in *. cbn [fst snd] in *.
  set (lm := TaskServer.lockManager s) in *.
  set (lm1 := (LockManager.cleanExpiredLocks lm now).2) in *.
  assert (LockManager.conflictsOf lm1 aid files = []) as Hclear.
  { by destruct (LockManager.conflictsOf lm1 aid files). }
  rewrite (clear_paths_granted lm1 aid files tid write None now Hclear). cbn [snd].
  assert (∀ q, LockManager.normalizePath lm1 q = LockManager.normalizePath lm q) as Hn.
  { intros q. apply normalizePath_ext, cleanExpiredLocks_projectPath. }
  assert (LockManager.locks
            (LockManager.saveLocks_if (nonempty files)
               (LockManager.set_locks
                  (grantAll lm1 (LockRequest.mk aid tid files write None) now
                     (LockManager.sweep now (LockManager.locks lm1)) files)
                  (LockManager.cleanExpiredLocks lm1 now).2))
          = grantAll lm1 (LockRequest.mk aid tid files write None) now
              (LockManager.sweep now (LockManager.locks lm1)) files) as ->.
  { unfold LockManager.saveLocks_if. by destruct (nonempty files). }
  rewrite lookup_grantAll. rewrite decide_True.
  - unfold LockManager.newLock. cbn. f_equal. f_equal.
    unfold LockManager.saveLocks_if. by case_bool_decide.
  - apply list_elem_of_fmap. exists p. by rewrite Hn.
Qed.

(** X8.  Mutual exclusion through [assignTask].  While a target file of
    the task carries a lock of another agent that has not expired -
    whatever the type of the lock - [assignTask] refuses. *)
Theorem assignTask_refused_by_foreign_lock s tid aid now task files p l :
  TaskServer.tasks s !! tid = Some task →
  Task.targetFiles task = Some files →
  p ∈ files →
  LockManager.locks (TaskServer.lockManager s)
    !! LockManager.normalizePath (TaskServer.lockManager s) p = Some l →
  FileLock.agentId l ≠ aid →
  now ≤ FileLock.expiresAt l →
  (TaskServer.assignTask s tid aid now).1 = None.
Proof.
  intros Ht Hfiles Hp Hl Hother Hlive. unfold TaskServer.assignTask. rewrite Ht.
  destruct (TaskServer.agents s !! aid) as [agent|]; [|done].
  case_bool_decide; [done|]. case_bool_decide; [done|].
  destruct (TaskServer.passDependencies s task) as [task1|] eqn:Hpass; [|done].
  destruct (passDependencies_targetFiles s task task1 Hpass) as (Hfiles1 & _).
  destruct (nonempty _) eqn:Hcs; [done|]. exfalso.
  unfold TaskServer.fileConflicts in Hcs. rewrite Hfiles1, Hfiles in Hcs.
  unfold LockManager.checkConflicts in Hcs. cbn [fst] in Hcs.
  set (lm := TaskServer.lockManager s) in *.
  set (lm1 := (LockManager.cleanExpiredLocks lm now).2) in *.
  assert (LockManager.conflictsOf lm1 aid files = []) as Hclear.
  { by destruct (LockManager.conflictsOf lm1 aid files). }
  apply Hother. apply (conflictsOf_nil lm1 aid files Hclear p l Hp).
  rewrite (normalizePath_ext lm) by apply cleanExpiredLocks_projectPath.
  apply cleanExpiredLocks_keeps. done.
Qed.

(** ** Unregistering *)

Lemma lookup_dropAgent a (m : gmap string FileLock.t) k l :
  LockManager.dropAgent a m !! k = Some l ↔ m !! k = Some l ∧ FileLock.agentId l ≠ a.
Proof. unfold LockManager.dropAgent. by rewrite map_lookup_filter_Some. Qed.

Lemma releaseAllLocks_locks lm a :
  LockManager.locks (LockManager.releaseAllLocks lm a).2
  = LockManager.dropAgent a (LockManager.locks lm).
Proof.
  unfold LockManager.releaseAllLocks, LockManager.saveLocks_if. simpl.
  by destruct (nonempty _).
Qed.

Lemma unassignTask_unfold s tid task :
  TaskServer.tasks s !! tid = Some task →
  ∃ agents',
    TaskServer.unassignTask s tid
    = TaskServer.mk (TaskServer.config s) agents'
        (<[tid := Task.set_assignedAt None
                    (Task.set_assignedAgent None (Task.set_status pending task))]>
           (TaskServer.tasks s))
        (tid :: TaskServer.taskQueue s) (TaskServer.completedTasks s)
        (LockManager.releaseTaskLocks (TaskServer.lockManager s) tid).2.
Proof. intros Ht. unfold TaskServer.unassignTask. rewrite Ht. eauto. Qed.

Lemma unassignTask_unknown s tid :
  TaskServer.tasks s !! tid = None → TaskServer.unassignTask s tid = s.
Proof. intros Ht. unfold TaskServer.unassignTask. by rewrite Ht. Qed.

(** X9.  [unregisterAgent] of a registered agent.  The agent is gone
    from the registry; no lock in its name is left, and no lock was added
    or altered; the task named by its [currentTask], if it exists, is
    pending, unassigned and first in the queue whatever its status
    was, and no other task has changed; the history is untouched. *)
Theorem unregisterAgent_effects s aid agent :
  TaskServer.agents s !! aid = Some agent →
  let s' := TaskServer.unregisterAgent s aid in
  TaskServer.agents s' !! aid = None
  ∧ (∀ k l, LockManager.locks (TaskServer.lockManager s') !! k = Some l →
            LockManager.locks (TaskServer.lockManager s) !! k = Some l
            ∧ FileLock.agentId l ≠ aid)
  ∧ (∀ tid task, truthy (AgentInfo.currentTask agent) = Some tid →
                 TaskServer.tasks s !! tid = Some task →
                 (∃ task', TaskServer.tasks s' !! tid = Some task'
                           ∧ Task.status task' = pending
                           ∧ Task.assignedAgent task' = None)
                 ∧ TaskServer.taskQueue s' = tid :: TaskServer.taskQueue s
                 ∧ ∀ k l, LockManager.locks (TaskServer.lockManager s') !! k = Some l →
                          FileLock.taskId l ≠ tid)
  ∧ (∀ id, truthy (AgentInfo.currentTask agent) ≠ Some id →
           TaskServer.tasks s' !! id = TaskServer.tasks s !! id)
  ∧ TaskServer.completedTasks s' = TaskServer.completedTasks s.
Proof.
  intros Ha s'. subst s'. unfold TaskServer.unregisterAgent. rewrite Ha.
  set (s1 := TaskServer.set_lockManager _ s).
  assert (Hl1 : ∀ k l, LockManager.locks (TaskServer.lockManager s1) !! k = Some l
                       ↔ LockManager.locks (TaskServer.lockManager s) !! k = Some l
                         ∧ FileLock.agentId l ≠ aid).
  { intros k l. subst s1. cbn [TaskServer.set_lockManager TaskServer.lockManager].
    by rewrite releaseAllLocks_locks, lookup_dropAgent. }
  unfold TaskServer.set_agents.
  cbn [TaskServer.agents TaskServer.tasks TaskServer.taskQueue TaskServer.completedTasks
       TaskServer.lockManager TaskServer.config].
  split; [apply lookup_delete_eq|].
  destruct (truthy (AgentInfo.currentTask agent)) as [cur|] eqn:Hcur.
  - destruct (TaskServer.tasks s1 !! cur) as [task|] eqn:Ht.
    + destruct (unassignTask_unfold s1 cur task Ht) as [agents' ->].
      cbn [TaskServer.agents TaskServer.tasks TaskServer.taskQueue
           TaskServer.completedTasks TaskServer.lockManager TaskServer.config].
      split; [|split; [|split]].
      * intros k l. rewrite releaseTaskLocks_locks, lookup_dropTask.
        intros [Hl _]. by apply Hl1.
      * intros tid task0 [= <-] Ht0. split; [|split].
        -- eexists. rewrite lookup_insert_eq. split; [done|]. by simpl.
        -- done.
        -- intros k l. rewrite releaseTaskLocks_locks, lookup_dropTask. tauto.
      * intros id Hne. rewrite lookup_insert_ne; [done|]. congruence.
      * done.
    + rewrite (unassignTask_unknown s1 cur Ht).
      split; [|split; [|split]].
      * intros k l Hl. by apply Hl1.
      * intros tid task0 [= <-] Ht0. subst s1. simpl in Ht. congruence.
      * done.
      * done.
  - split; [|split; [|split]].
    + intros k l Hl. by apply Hl1.
    + done.
    + done.
    + done.
Qed.

(** ** Heartbeats *)

Lemma heartbeatStep_quiet s key now :
  (∀ agent, TaskServer.agents s !! key = Some agent →
            now - AgentInfo.lastHeartbeat agent
            ≤ ServerConfig.heartbeatTimeout (TaskServer.config s)) →
  TaskServer.heartbeatStep now s key = s.
Proof.
  intros Hquiet. unfold TaskServer.heartbeatStep.
  destruct (TaskServer.agents s !! key) as [agent|]; [|done].
  rewrite bool_decide_eq_false_2; [done|]. specialize (Hquiet agent eq_refl). lia.
Qed.

(** X10.  A heartbeat check in which no agent has been silent for more
    than [heartbeatTimeout] changes nothing, in whatever order the
    agents are visited.  Silence of exactly the timeout is not a
    timeout. *)
Theorem quiet_check_changes_nothing s now :
  (∀ key agent, TaskServer.agents s !! key = Some agent →
                now - AgentInfo.lastHeartbeat agent
                ≤ ServerConfig.heartbeatTimeout (TaskServer.config s)) →
  (∀ keys, TaskServer.checkAgentHeartbeats_in keys s now = s)
  ∧ TaskServer.checkAgentHeartbeats s now = s.
Proof.
  intros Hquiet.
  assert (Hall : ∀ keys, TaskServer.checkAgentHeartbeats_in keys s now = s).
  { unfold TaskServer.checkAgentHeartbeats_in.
    induction keys as [|key keys IH]; [done|].
    cbn [foldl]. rewrite heartbeatStep_quiet; [done|]. intros agent. apply Hquiet. }
  split; [done|]. apply Hall.
Qed.

(** X11.  [updateHeartbeat] of a registered agent records the time and,
    when a status is given, the status; it touches no other agent, no
    task, no lock and no queue; and until [heartbeatTimeout] has passed
    since that time the heartbeat check leaves the agent alone. *)
Theorem updateHeartbeat_keeps_alive s aid status t0 now agent :
  TaskServer.agents s !! aid = Some agent →
  now - t0 ≤ ServerConfig.heartbeatTimeout (TaskServer.config s) →
  let s' := TaskServer.updateHeartbeat s aid status t0 in
  TaskServer.agents s' !! aid
  = Some (AgentInfo.set_status (default (AgentInfo.status agent) status)
            (AgentInfo.set_lastHeartbeat t0 agent))
  ∧ (∀ id, id ≠ aid → TaskServer.agents s' !! id = TaskServer.agents s !! id)
  ∧ TaskServer.tasks s' = TaskServer.tasks s
  ∧ TaskServer.taskQueue s' = TaskServer.taskQueue s
  ∧ TaskServer.completedTasks s' = TaskServer.completedTasks s
  ∧ TaskServer.lockManager s' = TaskServer.lockManager s
  ∧ TaskServer.heartbeatStep now s' aid = s'.
Proof.
  intros Ha Hnow s'.
  assert (Hs' : TaskServer.agents s' !! aid
                = Some (AgentInfo.set_status (default (AgentInfo.status agent) status)
                          (AgentInfo.set_lastHeartbeat t0 agent))).
  { subst s'. unfold TaskServer.updateHeartbeat. rewrite Ha.
    cbn [TaskServer.set_agents TaskServer.agents]. rewrite lookup_insert_eq. f_equal.
    destruct status as [st|]; [|by destruct agent].
    case_bool_decide as Hne; [done|]. simpl.
    assert (st = AgentInfo.status agent) as ->
      by (by destruct (decide (st = AgentInfo.status agent))).
    by destruct agent. }
  split; [done|].
  assert (TaskServer.config s' = TaskServer.config s) as Hcfg.
  { subst s'. unfold TaskServer.updateHeartbeat. by rewrite Ha. }
  repeat split; try (subst s'; unfold TaskServer.updateHeartbeat; by rewrite Ha).
  - intros id Hne. subst s'. unfold TaskServer.updateHeartbeat. rewrite Ha.
    cbn [TaskServer.set_agents TaskServer.agents]. by rewrite lookup_insert_ne.
  - apply heartbeatStep_quiet. intros agent'. rewrite Hs', Hcfg. intros [= <-].
    by simpl.
Qed.

(** ** Creating and completing *)

Lemma omap_lookup_insert_fresh (m : gmap string Task.t) tid task (q : list string) :
  tid ∉ q → omap (λ id, <[tid := task]> m !! id) q = omap (λ id, m !! id) q.
Proof.
  intros Hq. induction q as [|x q IH]; [done|].
  apply not_elem_of_cons in Hq as [Hx Hq]. cbn [omap list_omap].
  rewrite lookup_insert_ne by done. by rewrite IH.
Qed.

(** X12.  [createTask] under an id that no task and no queue entry uses.
    The new task is pending, unassigned, with no attempt out of three;
    its [blockedBy] lists exactly the ids of [dependsOn] that name a task
    that is not completed or, naming no task, name a member of
    [Object.prototype] (and is absent when there is none); every other
    task, the agents and the locks are untouched; the id goes to the
    back of the queue, so the task is the last of [getPendingTasks] and
    the tasks pending before keep their order. *)
Theorem createTask_appends s tid options now :
  TaskServer.tasks s !! tid = None →
  tid ∉ TaskServer.taskQueue s →
  let task := (TaskServer.createTask s tid options now).1 in
  let s' := (TaskServer.createTask s tid options now).2 in
  TaskServer.tasks s' !! tid = Some task
  ∧ Task.status task = pending
  ∧ Task.assignedAgent task = None
  ∧ Task.attempts task = 0
  ∧ Task.maxAttempts task = 3
  ∧ (∀ d, d ∈ default [] (Task.blockedBy task)
          ↔ d ∈ default [] (TaskCreateOptions.dependsOn options)
            ∧ ((∃ dep, TaskServer.tasks s !! d = Some dep ∧ Task.status dep ≠ completed)
               ∨ (TaskServer.tasks s !! d = None ∧ isPrototypeName d = true)))
  ∧ Task.blockedBy task ≠ Some []
  ∧ (∀ id, id ≠ tid → TaskServer.tasks s' !! id = TaskServer.tasks s !! id)
  ∧ TaskServer.agents s' = TaskServer.agents s
  ∧ TaskServer.lockManager s' = TaskServer.lockManager s
  ∧ TaskServer.taskQueue s' = TaskServer.taskQueue s ++ [tid]
  ∧ TaskServer.getPendingTasks s' = TaskServer.getPendingTasks s ++ [task].
Proof.
  intros Hfresh Hq task s'. subst task s'. unfold TaskServer.createTask.
  cbn [fst snd]. unfold TaskServer.set_taskQueue, TaskServer.set_tasks.
  cbn [TaskServer.tasks TaskServer.agents TaskServer.taskQueue TaskServer.lockManager].
  set (task := Task.mk tid _ _ _ _ _ _ _ _ _ _ _ _ _ _ _ _ _ _ _ _ _).
  split; [by rewrite lookup_insert_eq|]. split; [done|]. split; [done|].
  split; [done|]. split; [done|].
  split.
  { intros d. subst task. cbn [Task.blockedBy].
    destruct (TaskCreateOptions.dependsOn options) as [deps|]; cbn [default].
    - set (blockers := filter (λ depId, TaskServer.isBlocker (TaskServer.tasks s) depId) deps).
      assert (d ∈ blockers
              ↔ d ∈ deps
                ∧ ((∃ dep, TaskServer.tasks s !! d = Some dep
                           ∧ Task.status dep ≠ completed)
                   ∨ (TaskServer.tasks s !! d = None ∧ isPrototypeName d = true)))
        as Hb.
      { subst blockers. rewrite list_elem_of_filter. unfold TaskServer.isBlocker.
        destruct (TaskServer.tasks s !! d) as [dep|].
        - rewrite bool_decide_spec. split.
          + intros [Hst Hd]. split; [done|]. left. by exists dep.
          + intros [Hd [(dep' & [= <-] & Hst)|[Hnone _]]]; done.
        - split.
          + intros [Hproto Hd]. split; [done|]. right. split; [done|].
            by apply Is_true_true.
          + intros [Hd [(dep' & Hdep & _)|[_ Hproto]]]; [done|].
            split; [|done]. by apply Is_true_true. }
      destruct blockers as [|b0 bs] eqn:Hbl; cbn [nonempty default]; [|done].
      rewrite <- Hb. split; intros Hin; by apply not_elem_of_nil in Hin.
    - split; [intros Hin; by apply not_elem_of_nil in Hin|].
      intros [Hin _]. by apply not_elem_of_nil in Hin. }
  split.
  { subst task. cbn [Task.blockedBy].
    destruct (TaskCreateOptions.dependsOn options) as [deps|]; [|done].
    by destruct (filter _ deps). }
  split; [intros id Hne; by rewrite lookup_insert_ne|].
  split; [done|]. split; [done|]. split; [done|].
  unfold TaskServer.getPendingTasks. cbn [TaskServer.tasks TaskServer.taskQueue].
  rewrite omap_app, filter_app. rewrite omap_lookup_insert_fresh by done.
  f_equal. cbn [omap list_omap]. by rewrite lookup_insert_eq.
Qed.

Lemma remove_first_not_elem x (b : list string) : NoDup b → x ∉ remove_first x b.
Proof.
  induction 1 as [|y b Hy Hnd IH]; [apply not_elem_of_nil|].
  simpl. case_decide as Hyx; [by subst|].
  apply not_elem_of_cons. split; [congruence | done].
Qed.

Lemma completeTask_unfold s tid aid result now task :
  TaskServer.tasks s !! tid = Some task →
  Task.assignedAgent task = Some aid →
  ∃ task2,
    Task.status task2 = completed
    ∧ Task.completedAt task2 = Some now
    ∧ Task.result task2 = Some result
    ∧ Task.blockedBy task2 = Task.blockedBy task
    ∧ Task.startedAt task2 = Task.startedAt task
    ∧ Task.actualMinutes task2
      = match Task.startedAt task with
        | Some started =>
            if started =? 0 then Task.actualMinutes task
            else Some (TaskServer.minutesBetween started now)
        | None => Task.actualMinutes task
        end
    ∧ TaskServer.completeTask s tid aid result now
      = TaskServer.mk (TaskServer.config s)
          match TaskServer.agents s !! aid with
          | Some agent =>
              <[aid := AgentInfo.set_completedTasks (AgentInfo.completedTasks agent + 1)
                         (AgentInfo.set_workingBranch None
                            (AgentInfo.set_currentTask None
                               (AgentInfo.set_status idle agent)))]> (TaskServer.agents s)
          | None => TaskServer.agents s
          end
          (TaskServer.unblockDependentTasks tid (<[tid := task2]> (TaskServer.tasks s)))
          (TaskServer.taskQueue s) (TaskServer.completedTasks s ++ [tid])
          (LockManager.releaseTaskLocks (TaskServer.lockManager s) tid).2.
Proof.
  intros Ht Hag. unfold TaskServer.completeTask. rewrite Ht.
  rewrite bool_decide_eq_false_2 by (intros Hne; by apply Hne).
  set (task1 := Task.set_result (Some result)
                  (Task.set_completedAt (Some now) (Task.set_status completed task))).
  exists (match Task.startedAt task1 with
          | Some started =>
              if started =? 0 then task1
              else Task.set_actualMinutes (Some (TaskServer.minutesBetween started now)) task1
          | None => task1
          end).
  subst task1. cbn [Task.startedAt Task.set_result Task.set_completedAt Task.set_status].
  destruct (Task.startedAt task) as [started|] eqn:Hs; [destruct (started =? 0)|];
    cbn; rewrite ?Hs; done.
Qed.

(** X13.  [completeTask] by the assignee.  The task is completed with
    the completion time and the result; its id is appended to the
    history; the locks taken for it are released and no other lock is
    touched; the agent, if registered, is idle without a task and has
    one more completed task; the queue is untouched; and the first
    occurrence of the id is removed from every [blockedBy], so a
    [blockedBy] without repetitions no longer contains it. *)
Theorem completeTask_effects s tid aid result now task :
  TaskServer.tasks s !! tid = Some task →
  Task.assignedAgent task = Some aid →
  let s' := TaskServer.completeTask s tid aid result now in
  (∃ task', TaskServer.tasks s' !! tid = Some task'
            ∧ Task.status task' = completed
            ∧ Task.completedAt task' = Some now
            ∧ Task.result task' = Some result)
  ∧ TaskServer.completedTasks s' = TaskServer.completedTasks s ++ [tid]
  ∧ TaskServer.taskQueue s' = TaskServer.taskQueue s
  ∧ (∀ k l, LockManager.locks (TaskServer.lockManager s') !! k = Some l
            ↔ LockManager.locks (TaskServer.lockManager s) !! k = Some l
              ∧ FileLock.taskId l ≠ tid)
  ∧ (∀ agent, TaskServer.agents s !! aid = Some agent →
              ∃ agent', TaskServer.agents s' !! aid = Some agent'
                        ∧ AgentInfo.status agent' = idle
                        ∧ AgentInfo.currentTask agent' = None
                        ∧ AgentInfo.completedTasks agent'
                          = AgentInfo.completedTasks agent + 1)
  ∧ (∀ id, id ≠ aid → TaskServer.agents s' !! id = TaskServer.agents s !! id)
  ∧ (∀ id u, TaskServer.tasks s !! id = Some u →
             ∃ u', TaskServer.tasks s' !! id = Some u'
                   ∧ Task.blockedBy u' = remove_first tid <$> Task.blockedBy u
                   ∧ ∀ b, Task.blockedBy u = Some b → NoDup b →
                          tid ∉ default [] (Task.blockedBy u')).
Proof.
  intros Ht Hag s'. subst s'.
  destruct (completeTask_unfold s tid aid result now task Ht Hag)
    as (task2 & Hst2 & Hat2 & Hres2 & Hb2 & _ & _ & ->).
  cbn [TaskServer.tasks TaskServer.agents TaskServer.taskQueue TaskServer.completedTasks
       TaskServer.lockManager].
  assert (Hu : ∀ id u, (<[tid := task2]> (TaskServer.tasks s)) !! id = Some u →
                       ∃ u', TaskServer.unblockDependentTasks tid
                               (<[tid := task2]> (TaskServer.tasks s)) !! id = Some u'
                             ∧ Task.status u' = Task.status u
                             ∧ Task.completedAt u' = Task.completedAt u
                             ∧ Task.result u' = Task.result u
                             ∧ Task.blockedBy u' = remove_first tid <$> Task.blockedBy u).
  { intros id u Hl. rewrite lookup_unblockDependentTasks, Hl. simpl.
    eexists. split; [done|]. destruct (Task.blockedBy u) eqn:Hbu; simpl; by rewrite ?Hbu. }
  split.
  { destruct (Hu tid task2 (lookup_insert_eq _ _ _)) as (u' & Hl & Hs & Hc & Hr & _).
    exists u'. by rewrite Hs, Hc, Hr. }
  split; [done|]. split; [done|].
  split; [intros k l; by rewrite releaseTaskLocks_locks, lookup_dropTask|].
  split.
  { intros agent Ha. rewrite Ha. eexists. rewrite lookup_insert_eq. split; [done|].
    by simpl. }
  split.
  { intros id Hne. destruct (TaskServer.agents s !! aid); [|done].
    by rewrite lookup_insert_ne. }
  intros id u Hid.
  assert (∃ u0, (<[tid := task2]> (TaskServer.tasks s)) !! id = Some u0
                ∧ Task.blockedBy u0 = Task.blockedBy u) as (u0 & Hl0 & Hb0).
  { destruct (decide (id = tid)) as [->|Hne].
    - exists task2. rewrite lookup_insert_eq. split; [done|]. simplify_eq. done.
    - exists u. by rewrite lookup_insert_ne. }
  destruct (Hu id u0 Hl0) as (u' & Hl & _ & _ & _ & Hb).
  exists u'. split; [done|]. rewrite Hb, Hb0. split; [done|].
  intros b Hbu Hnd. rewrite Hbu. simpl. by apply remove_first_not_elem.
Qed.

(** X14.  Minutes of work.  When the assignee starts a task at time
    [t1] (not 0) and completes it at [t2], the task records both times
    and [actualMinutes] is their distance in minutes rounded to the
    nearest minute, half a minute rounding up. *)
Theorem started_task_minutes s tid aid result t1 t2 task :
  TaskServer.tasks s !! tid = Some task →
  Task.assignedAgent task = Some aid →
  t1 ≠ 0 →
  let s' := TaskServer.completeTask (TaskServer.startTask s tid aid t1) tid aid result t2 in
  ∃ task' minutes,
    TaskServer.tasks s' !! tid = Some task'
    ∧ Task.startedAt task' = Some t1
    ∧ Task.completedAt task' = Some t2
    ∧ Task.actualMinutes task' = Some minutes
    ∧ 60000 * minutes - 30000 ≤ t2 - t1 < 60000 * minutes + 30000.
Proof.
  intros Ht Hag Ht1 s'. subst s'.
  set (task1 := Task.set_startedAt (Some t1) (Task.set_status in_progress task)).
  assert (TaskServer.startTask s tid aid t1
          = TaskServer.set_tasks (<[tid := task1]> (TaskServer.tasks s)) s) as ->.
  { unfold TaskServer.startTask. rewrite Ht.
    by rewrite bool_decide_eq_false_2 by (intros Hne; by apply Hne). }
  set (s1 := TaskServer.set_tasks _ s).
  assert (TaskServer.tasks s1 !! tid = Some task1) as Ht1'.
  { subst s1. cbn [TaskServer.set_tasks TaskServer.tasks]. apply lookup_insert_eq. }
  destruct (completeTask_unfold s1 tid aid result t2 task1 Ht1' Hag)
    as (task2 & _ & Hat2 & _ & Hb2 & Hstart2 & Hmin2 & ->).
  cbn [TaskServer.tasks]. rewrite lookup_unblockDependentTasks, lookup_insert_eq.
  simpl. eexists. exists (TaskServer.minutesBetween t1 t2).
  split; [done|].
  assert (Hm : Task.actualMinutes task2 = Some (TaskServer.minutesBetween t1 t2)).
  { rewrite Hmin2. subst task1. simpl. by apply Z.eqb_neq in Ht1 as ->. }
  assert (Hs : Task.startedAt task2 = Some t1) by (by rewrite Hstart2).
  split; [by destruct (Task.blockedBy task2)|].
  split; [by destruct (Task.blockedBy task2)|].
  split; [by destruct (Task.blockedBy task2)|].
  unfold TaskServer.minutesBetween.
  pose proof (Z.div_mod (t2 - t1 + 30000) 60000 ltac:(lia)) as Hdm.
  pose proof (Z.mod_pos_bound (t2 - t1 + 30000) 60000 ltac:(lia)) as Hmb.
  lia.
Qed.

(** ** Removing stale agents *)

Lemma cleanupStep_frame s now x :
  let s1 := TaskServer.cleanupStep now s x in
  (∀ k agent, TaskServer.agents s1 !! k = Some agent
              ↔ TaskServer.agents s !! k = Some agent
                ∧ (k = x → now - AgentInfo.lastHeartbeat agent ≤ 300000))
  ∧ (∀ k l, LockManager.locks (TaskServer.lockManager s1) !! k = Some l
            ↔ LockManager.locks (TaskServer.lockManager s) !! k = Some l
              ∧ (FileLock.agentId l = x →
                 ∀ agent, TaskServer.agents s !! x = Some agent →
                          now - AgentInfo.lastHeartbeat agent ≤ 300000))
  ∧ TaskServer.tasks s1 = TaskServer.tasks s
  ∧ TaskServer.taskQueue s1 = TaskServer.taskQueue s
  ∧ TaskServer.completedTasks s1 = TaskServer.completedTasks s.
Proof.
  intros s1. subst s1. unfold TaskServer.cleanupStep.
  destruct (TaskServer.agents s !! x) as [ax|] eqn:Hx.
  - case_bool_decide as Hstale.
    + unfold TaskServer.set_lockManager, TaskServer.set_agents.
      cbn [TaskServer.agents TaskServer.tasks TaskServer.taskQueue
           TaskServer.completedTasks TaskServer.lockManager].
      split; [|split; [|done]].
      * intros k agent. rewrite lookup_delete_Some. split.
        -- intros [Hne Hk]. split; [done|]. intros ->. done.
        -- intros [Hk Hfresh]. split; [|done]. intros <-. simplify_eq.
           specialize (Hfresh eq_refl). lia.
      * intros k l. rewrite releaseAllLocks_locks, lookup_dropAgent. split.
        -- intros [Hl Hne]. split; [done|]. intros Heq. done.
        -- intros [Hl Hfresh]. split; [done|]. intros Heq.
           specialize (Hfresh Heq ax eq_refl). lia.
    + split; [|split; [|done]].
      * intros k agent. split; [|tauto]. intros Hk. split; [done|].
        intros ->. simplify_eq. lia.
      * intros k l. split; [|tauto]. intros Hl. split; [done|].
        intros _ agent [= <-]. lia.
  - split; [|split; [|done]].
    + intros k agent. split; [|tauto]. intros Hk. split; [done|]. intros ->. congruence.
    + intros k l. split; [|tauto]. intros Hl. split; [done|]. by intros _ agent.
Qed.

Lemma cleanup_loop keys s now :
  let s' := TaskServer.cleanupDisconnectedAgents_in keys s now in
  (∀ k agent, TaskServer.agents s' !! k = Some agent
              ↔ TaskServer.agents s !! k = Some agent
                ∧ (k ∈ keys → now - AgentInfo.lastHeartbeat agent ≤ 300000))
  ∧ (∀ k l, LockManager.locks (TaskServer.lockManager s') !! k = Some l
            ↔ LockManager.locks (TaskServer.lockManager s) !! k = Some l
              ∧ (FileLock.agentId l ∈ keys →
                 ∀ agent, TaskServer.agents s !! FileLock.agentId l = Some agent →
                          now - AgentInfo.lastHeartbeat agent ≤ 300000))
  ∧ TaskServer.tasks s' = TaskServer.tasks s
  ∧ TaskServer.taskQueue s' = TaskServer.taskQueue s
  ∧ TaskServer.completedTasks s' = TaskServer.completedTasks s.
Proof.
  unfold TaskServer.cleanupDisconnectedAgents_in. revert s.
  induction keys as [|x keys IH]; intros s.
  { cbn [foldl]. split; [|split; [|done]].
    - intros k agent. split; [|tauto]. intros Hk. split; [done|].
      intros Hin. by apply not_elem_of_nil in Hin.
    - intros k l. split; [|tauto]. intros Hl. split; [done|].
      intros Hin. by apply not_elem_of_nil in Hin. }
  cbn [foldl].
  destruct (cleanupStep_frame s now x) as (Ha1 & Hl1 & Ht1 & Hq1 & Hc1).
  destruct (IH (TaskServer.cleanupStep now s x)) as (Ha & Hl & Ht & Hq & Hc).
  split; [|split; [|split; [|split]]].
  - intros k agent. rewrite Ha, Ha1, elem_of_cons. split.
    + intros [[Hk Hx] Hkeys]. split; [done|]. intros [->|Hin]; auto.
    + intros [Hk Hfresh]. split; [split; [done|]|]; auto.
  - intros k l. rewrite Hl, Hl1, elem_of_cons. split.
    + intros [[Hk Hx] Hkeys]. split; [done|]. intros Hin agent Hagent.
      destruct (decide (FileLock.agentId l = x)) as [Heq|Hne].
      * apply (Hx Heq). by rewrite <- Heq.
      * destruct Hin as [Heq|Hin]; [done|].
        destruct (decide (now - AgentInfo.lastHeartbeat agent ≤ 300000)) as [|Hstale];
          [done|].
        apply (Hkeys Hin). apply Ha1. split; [done|]. intros Heq. done.
    + intros [Hk Hfresh]. split; [split; [done|]|].
      * intros Heq agent Hagent. apply Hfresh; [by left | by rewrite Heq].
      * intros Hin agent Hagent. apply Hfresh; [by right|]. by apply Ha1 in Hagent as [? _].
  - by rewrite Ht.
  - by rewrite Hq.
  - by rewrite Hc.
Qed.

(** X15.  [cleanupDisconnectedAgents], in whatever order it visits the
    registry.  Exactly the agents silent for more than five minutes are
    removed, the others are kept as they are; exactly the locks held in
    the name of a removed agent are released; tasks, queue and history
    are not touched, so a task of a removed agent stays assigned to
    it. *)
Theorem cleanupDisconnectedAgents_effects keys s now :
  (∀ k, is_Some (TaskServer.agents s !! k) → k ∈ keys) →
  let s' := TaskServer.cleanupDisconnectedAgents_in keys s now in
  (∀ k agent, TaskServer.agents s' !! k = Some agent
              ↔ TaskServer.agents s !! k = Some agent
                ∧ now - AgentInfo.lastHeartbeat agent ≤ 300000)
  ∧ (∀ k l, LockManager.locks (TaskServer.lockManager s') !! k = Some l
            ↔ LockManager.locks (TaskServer.lockManager s) !! k = Some l
              ∧ ∀ agent, TaskServer.agents s !! FileLock.agentId l = Some agent →
                         now - AgentInfo.lastHeartbeat agent ≤ 300000)
  ∧ TaskServer.tasks s' = TaskServer.tasks s
  ∧ TaskServer.taskQueue s' = TaskServer.taskQueue s
  ∧ TaskServer.completedTasks s' = TaskServer.completedTasks s.
Proof.
  intros Hkeys s'. subst s'.
  destruct (cleanup_loop keys s now) as (Ha & Hl & Ht & Hq & Hc).
  split; [|split; [|done]].
  - intros k agent. rewrite Ha. split; [|tauto].
    intros [Hk Hfresh]. split; [done|]. apply Hfresh, Hkeys. by rewrite Hk.
  - intros k l. rewrite Hl. split.
    + intros [Hk Hfresh]. split; [done|]. intros agent Hagent.
      apply Hfresh; [|done]. apply Hkeys. by rewrite Hagent.
    + intros [Hk Hfresh]. split; [done|]. intros _. apply Hfresh.
Qed.

(** ** What a message of one agent can do to another *)

(** X16.  The handlers check the sender where the operation has an
    owner.  A [TASK_COMPLETE] or [TASK_FAILED] envelope from an agent
    that is not the assignee of the task changes nothing, and a
    [LOCK_RELEASE] removes no lock of another agent and touches no task
    or agent.  A [LOCK_REQUEST] is handled in the name its payload
    gives, whoever sent it: every lock it grants belongs to the agent
    and the task of the payload, the answer goes to the sender with the
    id of the envelope as [correlationId], and no task, agent or queue
    entry is touched. *)
Theorem messages_respect_ownership s a (message : Message.t) now :
  (∀ tid result,
      Message.body message = TASK_COMPLETE tid result →
      (∀ task, TaskServer.tasks s !! tid = Some task → Task.assignedAgent task ≠ Some a) →
      TaskServer.handleAgentMessage s a message now = s)
  ∧ (∀ tid err,
       Message.body message = TASK_FAILED tid err →
       (∀ task, TaskServer.tasks s !! tid = Some task → Task.assignedAgent task ≠ Some a) →
       TaskServer.handleAgentMessage s a message now = s)
  ∧ (∀ ps,
       Message.body message = LOCK_RELEASE ps →
       let s' := TaskServer.handleAgentMessage s a message now in
       (∀ k l, LockManager.locks (TaskServer.lockManager s) !! k = Some l →
               FileLock.agentId l ≠ a →
               LockManager.locks (TaskServer.lockManager s') !! k = Some l)
       ∧ TaskServer.tasks s' = TaskServer.tasks s
       ∧ TaskServer.agents s' = TaskServer.agents s
       ∧ TaskServer.taskQueue s' = TaskServer.taskQueue s)
  ∧ (∀ request,
       Message.body message = LOCK_REQUEST request →
       let s' := TaskServer.handleAgentMessage s a message now in
       let lockResult :=
         (LockManager.acquireLocks (TaskServer.lockManager s) request now).1 in
       (∀ p, p ∈ LockResult.acquired lockResult →
             ∃ l, LockManager.locks (TaskServer.lockManager s')
                    !! LockManager.normalizePath (TaskServer.lockManager s) p = Some l
                  ∧ FileLock.agentId l = LockRequest.agentId request
                  ∧ FileLock.taskId l = LockRequest.taskId request
                  ∧ FileLock.lockedAt l = now)
       ∧ TaskServer.handleAgentMessage_sent s a message now
         = [Outbound.mk a (LOCK_RESPONSE lockResult) (Some a) (Some (Message.id message))]
       ∧ TaskServer.tasks s' = TaskServer.tasks s
       ∧ TaskServer.agents s' = TaskServer.agents s
       ∧ TaskServer.taskQueue s' = TaskServer.taskQueue s).
Proof.
  unfold TaskServer.handleAgentMessage. split; [|split; [|split]].
  - intros tid result -> Hnot. unfold TaskServer.completeTask.
    destruct (TaskServer.tasks s !! tid) as [task|]; [|done].
    by rewrite bool_decide_eq_true_2 by (by apply Hnot).
  - intros tid err -> Hnot. by apply failTask_not_assignee.
  - intros ps ->. split; [|done].
    intros k l Hl Hne. cbn [TaskServer.set_lockManager TaskServer.lockManager].
    rewrite releaseLocks_locks, release_loop_lookup, Hl.
    rewrite decide_False; [done | tauto].
  - intros request Hbody. rewrite Hbody.
    unfold TaskServer.handleAgentMessage_sent. rewrite Hbody.
    cbn [TaskServer.set_lockManager TaskServer.lockManager TaskServer.tasks
         TaskServer.agents TaskServer.taskQueue].
    split; [|done]. intros p Hp.
    assert (p ∈ LockRequest.paths request) as Hpaths.
    { rewrite acquireLocks_unfold in Hp. cbn [fst LockResult.acquired] in Hp.
      by apply list_elem_of_filter in Hp as [_ Hp]. }
    destruct (acquireLocks_path_cases (TaskServer.lockManager s) request now p Hpaths)
      as [(_ & _ & Hlock)|(_ & Hnot & _)]; [|done].
    eexists. split; [exact Hlock|]. done.
Qed.
End task_server_more.

(** * The auto-assignment pass *)

Section sort_facts.
Variable rank : string → Z.

Lemma insertByRank_perm x l : TaskServer.insertByRank rank x l ≡ₚ x :: l.
Proof.
  induction l as [|y l IH]; simpl; [done|].
  case_bool_decide; [|done]. rewrite IH. apply Permutation_swap.
Qed.

Lemma sort_loop_perm l : ∀ acc,
  foldl (λ acc x, TaskServer.insertByRank rank x acc) acc l ≡ₚ acc ++ l.
Proof.
  induction l as [|x l IH]; intros acc; cbn [foldl].
  - by rewrite app_nil_r.
  - rewrite IH, insertByRank_perm. simpl. apply Permutation_middle.
Qed.

Lemma insertByRank_sorted x l :
  rankSorted rank l → rankSorted rank (TaskServer.insertByRank rank x l).
Proof.
  induction l as [|y l IH]; simpl.
  - intros _. split; [constructor | done].
  - intros [Hall Hs]. case_bool_decide as Hle; simpl.
    + split; [|by apply IH]. rewrite insertByRank_perm. by constructor.
    + split; [|done]. constructor; [lia|].
      eapply Forall_impl; [exact Hall|]. intros z Hz. simpl in Hz. lia.
Qed.

Lemma sort_loop_sorted l : ∀ acc,
  rankSorted rank acc →
  rankSorted rank (foldl (λ acc x, TaskServer.insertByRank rank x acc) acc l).
Proof.
  induction l as [|x l IH]; intros acc Hs; cbn [foldl]; [done|].
  by apply IH, insertByRank_sorted.
Qed.

Lemma insertByRank_stable r x l :
  rankSorted rank l →
  filter (λ y, rank y = r) (TaskServer.insertByRank rank x l)
  = filter (λ y, rank y = r) l ++ filter (λ y, rank y = r) [x].
Proof.
  induction l as [|y l IH]; simpl; [done|].
  intros [Hall Hs]. case_bool_decide as Hle.
  - rewrite !filter_cons, IH by done. by case_decide.
  - rewrite (filter_cons _ x (y :: l)), (filter_cons _ x []), filter_nil.
    case_decide as Hx; [|by rewrite app_nil_r].
    assert (filter (λ z, rank z = r) (y :: l) = []) as ->; [|done].
    apply filter_none. intros z Hz Hr.
    apply elem_of_cons in Hz as [->|Hz]; [lia|].
    rewrite Forall_forall in Hall. specialize (Hall z Hz). simpl in Hall. lia.
Qed.

Lemma sort_loop_stable r l : ∀ acc,
  rankSorted rank acc →
  filter (λ y, rank y = r) (foldl (λ acc x, TaskServer.insertByRank rank x acc) acc l)
  = filter (λ y, rank y = r) acc ++ filter (λ y, rank y = r) l.
Proof.
  induction l as [|x l IH]; intros acc Hs; cbn [foldl].
  - by rewrite filter_nil, app_nil_r.
  - rewrite IH by by apply insertByRank_sorted.
    rewrite insertByRank_stable by done.
    rewrite <- app_assoc. f_equal.
    rewrite (filter_cons _ x l), (filter_cons _ x []), filter_nil.
    by case_decide.
Qed.

Lemma rankSorted_lookup l :
  rankSorted rank l →
  ∀ i j x y, (i < j)%nat → l !! i = Some x → l !! j = Some y → rank x ≤ rank y.
Proof.
  induction l as [|z l IH]; [done|]. intros [Hall Hs] i j x y Hij Hi Hj.
  destruct j as [|j]; [lia|]. cbn in Hj. destruct i as [|i].
  - cbn in Hi. simplify_eq. rewrite Forall_forall in Hall.
    apply (Hall y). by eapply list_elem_of_lookup_2.
  - cbn in Hi. apply (IH Hs i j); [lia|done..].
Qed.
End sort_facts.

Section auto_assign.
Context `{PathApi}.
Implicit Types (s : TaskServer.t) (task : Task.t) (agent : AgentInfo.t).

(** X17.  The order in which the auto-assignment pass tries the tasks.
    The list holds the pending entries of the queue, each as often as
    the queue does; a task never comes before one of a more urgent
    priority (critical, high, normal, low); tasks of one priority keep
    their order in the queue. *)
Theorem pending_tried_in_priority_order s :
  let tried := TaskServer.sortByRank (TaskServer.taskRank s) (TaskServer.pendingKeys s) in
  tried ≡ₚ TaskServer.pendingKeys s
  ∧ (∀ i j x y, (i < j)%nat → tried !! i = Some x → tried !! j = Some y →
       TaskServer.taskRank s x ≤ TaskServer.taskRank s y)
  ∧ (∀ r, filter (λ k, TaskServer.taskRank s k = r) tried
          = filter (λ k, TaskServer.taskRank s k = r) (TaskServer.pendingKeys s)).
Proof.
  intros tried. subst tried. unfold TaskServer.sortByRank.
  split; [|split].
  - by rewrite sort_loop_perm.
  - apply rankSorted_lookup. by apply sort_loop_sorted.
  - intros r. by rewrite sort_loop_stable.
Qed.

Lemma assignTask_plain s k a now task agent :
  TaskServer.tasks s !! k = Some task →
  Task.status task = pending →
  TaskServer.hasBlockers task = false →
  Task.targetFiles task = None →
  TaskServer.agents s !! a = Some agent →
  AgentInfo.status agent = idle →
  let task2 := TaskServer.markAssigned (TaskServer.config s) task k a now in
  TaskServer.assignTask s k a now
  = (Some task2,
     TaskServer.mk (TaskServer.config s)
       (<[a := TaskServer.markWorking agent k task2]> (TaskServer.agents s))
       (<[k := task2]> (TaskServer.tasks s))
       (remove_first k (TaskServer.taskQueue s))
       (TaskServer.completedTasks s) (TaskServer.lockManager s)).
Proof.
  intros Hk Hp Hb Hf Ha Hi task2. subst task2.
  unfold TaskServer.assignTask. rewrite Hk, Ha.
  case_bool_decide as H1; [by destruct H1|].
  case_bool_decide as H2; [by destruct H2|].
  assert (TaskServer.passDependencies s task = Some task) as ->.
  { unfold TaskServer.passDependencies, TaskServer.hasBlockers in *.
    destruct (Task.blockedBy task); [by rewrite Hb | done]. }
  unfold TaskServer.fileConflicts. rewrite Hf. cbn [fst snd nonempty].
  unfold TaskServer.lockTargetFiles.
  destruct (markAssigned_more (TaskServer.config s) task k a now) as (_ & _ & _ & -> & _).
  by rewrite Hf.
Qed.

Lemma eligibleKeys_frame s s1 l :
  (∀ x, x ∈ l → TaskServer.tasks s1 !! x = TaskServer.tasks s !! x) →
  eligibleKeys s1 l = eligibleKeys s l.
Proof.
  unfold eligibleKeys. induction l as [|x l IH]; intros Hsame; [done|].
  rewrite !filter_cons, (Hsame x) by by left.
  rewrite IH; [done|]. intros y Hy. apply Hsame. by right.
Qed.

Lemma tryTasks_blocked clock a n s : ∀ rest before,
  eligibleKeys s rest = [] →
  TaskServer.tryTasks clock a n s before rest = (n, s, before ++ rest).
Proof.
  induction rest as [|key rest IH]; intros before; cbn [TaskServer.tryTasks].
  { by rewrite app_nil_r. }
  unfold eligibleKeys. rewrite filter_cons. intros Hnone.
  destruct (TaskServer.tasks s !! key) as [task|] eqn:Hkey; simpl in Hnone.
  - destruct (TaskServer.hasBlockers task) eqn:Hb.
    + rewrite decide_False in Hnone by done.
      rewrite IH by done. by rewrite <- app_assoc.
    + by rewrite decide_True in Hnone.
  - rewrite IH by done. by rewrite <- app_assoc.
Qed.

Lemma tryTasks_first clock a agent n s : ∀ rest before k E,
  TaskServer.agents s !! a = Some agent →
  AgentInfo.status agent = idle →
  (∀ x, x ∈ rest → plainPending s x) →
  eligibleKeys s rest = k :: E →
  ∃ B R task,
    rest = B ++ k :: R
    ∧ eligibleKeys s B = []
    ∧ eligibleKeys s R = E
    ∧ TaskServer.tasks s !! k = Some task
    ∧ Task.status task = pending
    ∧ TaskServer.hasBlockers task = false
    ∧ Task.targetFiles task = None
    ∧ TaskServer.tryTasks clock a n s before rest
      = (S n, (TaskServer.assignTask s k a (clock n)).2, before ++ B ++ R).
Proof.
  intros rest before k E Ha Hi. revert before.
  induction rest as [|key rest IH]; intros before Hplain Hel; [done|].
  unfold eligibleKeys in Hel. rewrite filter_cons in Hel.
  destruct (Hplain key) as (task & Hkey & Hid & Hp & Hf); [by left|].
  cbn [TaskServer.tryTasks]. rewrite Hkey. rewrite Hkey in Hel. simpl in Hel.
  destruct (TaskServer.hasBlockers task) eqn:Hb.
  - rewrite decide_False in Hel by done.
    destruct (IH (before ++ [key])) as (B & R & task' & -> & HB & HR & Hk & Hp' & Hb' & Hf' & Hrun).
    { intros x Hx. apply Hplain. by right. }
    { done. }
    exists (key :: B), R, task'. split; [done|]. split.
    { unfold eligibleKeys. rewrite filter_cons, Hkey. simpl. rewrite Hb.
      by rewrite decide_False by done. }
    split; [done|]. split; [done|]. split; [done|]. split; [done|]. split; [done|].
    rewrite Hrun. by rewrite <- app_assoc.
  - rewrite decide_True in Hel by done. injection Hel as <- <-.
    exists [], rest, task. split; [done|]. split; [done|]. split; [done|].
    split; [done|]. split; [done|]. split; [done|]. split; [done|].
    rewrite Hid.
    by rewrite (assignTask_plain s key a (clock n) task agent) by done.
Qed.

Lemma autoAssign_none clock idle : ∀ n s pending,
  eligibleKeys s pending = [] →
  foldl (TaskServer.autoAssignStep clock) (n, s, pending) idle = (n, s, pending).
Proof.
  induction idle as [|a idle IH]; intros n s pending Hnone; cbn [foldl]; [done|].
  assert (TaskServer.autoAssignStep clock (n, s, pending) a = (n, s, pending)) as ->.
  { unfold TaskServer.autoAssignStep. destruct pending as [|k pending]; [done|].
    destruct (TaskServer.agents s !! a); [|done].
    by rewrite tryTasks_blocked by done. }
  by apply IH.
Qed.

Lemma autoAssign_loop clock idle : ∀ pending n s,
  NoDup idle →
  NoDup pending →
  (∀ a, a ∈ idle → idleAt s a) →
  (∀ k, k ∈ pending → plainPending s k) →
  let s' := (foldl (TaskServer.autoAssignStep clock) (n, s, pending) idle).1.2 in
  let eligible := eligibleKeys s pending in
  (∀ i a k, idle !! i = Some a → eligible !! i = Some k → assignedTo s' k a)
  ∧ (∀ k, k ∉ take (length idle) eligible →
          TaskServer.tasks s' !! k = TaskServer.tasks s !! k)
  ∧ (∀ a, a ∉ take (length eligible) idle →
          TaskServer.agents s' !! a = TaskServer.agents s !! a)
  ∧ TaskServer.taskQueue s'
    = foldl (λ q k, remove_first k q) (TaskServer.taskQueue s)
        (take (length idle) eligible)
  ∧ TaskServer.lockManager s' = TaskServer.lockManager s
  ∧ TaskServer.completedTasks s' = TaskServer.completedTasks s
  ∧ TaskServer.config s' = TaskServer.config s.
Proof.
  induction idle as [|a idle IH]; intros pending n s Hnd_i Hnd_p Hidle Hplain s' eligible.
  { subst s'. cbn [foldl fst snd]. split; [done|]. done. }
  destruct eligible as [|k E] eqn:Hel; subst eligible.
  { subst s'. rewrite autoAssign_none by done. cbn [fst snd].
    split; [by intros i a' k' _ Hk'|]. by rewrite take_nil. }
  destruct (Hidle a) as (agent & Ha & Hida & Hia); [by left|].
  subst s'. cbn [foldl].
  assert (TaskServer.autoAssignStep clock (n, s, pending) a
          = TaskServer.tryTasks clock a n s [] pending) as ->.
  { unfold TaskServer.autoAssignStep. destruct pending; [done|]. by rewrite Ha, Hida. }
  destruct (tryTasks_first clock a agent n s pending [] k E Ha Hia Hplain Hel)
    as (B & R & task & -> & HB & HR & Hk & Hp & Hb & Hf & ->).
  rewrite (assignTask_plain s k a (clock n) task agent) by done.
  cbn [snd app].
  set (task2 := TaskServer.markAssigned (TaskServer.config s) task k a (clock n)).
  set (s1 := TaskServer.mk _ _ _ _ _ _).
  apply NoDup_cons in Hnd_i as [Ha_fresh Hnd_i].
  apply NoDup_app in Hnd_p as (HndB & HBk & HndR).
  apply NoDup_cons in HndR as [Hk_R HndR].
  assert (k ∉ B) as Hk_B.
  { intros Hin. apply (HBk k Hin). by left. }
  assert (∀ x, x ∈ B ++ R → x ≠ k) as Hne_k.
  { intros x Hx ->. apply elem_of_app in Hx as [?|?]; done. }
  assert (eligibleKeys s1 (B ++ R) = E) as Hel1.
  { rewrite (eligibleKeys_frame s).
    - unfold eligibleKeys in *. by rewrite filter_app, HB, HR.
    - intros x Hx. subst s1. cbn [TaskServer.tasks].
      apply lookup_insert_ne. intros ->. by apply (Hne_k x). }
  destruct (IH (B ++ R) (S n) s1) as (IH1 & IH2 & IH3 & IH4 & IH5 & IH6 & IH7).
  { done. }
  { apply NoDup_app. split; [done|]. split; [|done].
    intros x Hx HxR. apply (HBk x Hx). by right. }
  { intros a' Ha'. destruct (Hidle a') as (agent' & Hag' & Hid' & Hst'); [by right|].
    exists agent'. split; [|done]. subst s1. cbn [TaskServer.agents].
    rewrite lookup_insert_ne; [done|]. by intros ->. }
  { intros x Hx. destruct (Hplain x) as (tx & Htx & Hrest).
    { apply elem_of_app in Hx as [?|?]; apply elem_of_app; [by left | right; by right]. }
    exists tx. split; [|done]. subst s1. cbn [TaskServer.tasks].
    rewrite lookup_insert_ne; [done|]. intros ->. by apply (Hne_k x). }
  rewrite Hel1 in IH1, IH2, IH3, IH4.
  assert (k ∉ E) as Hk_E.
  { rewrite <- HR. unfold eligibleKeys. intros Hin.
    by apply list_elem_of_filter in Hin as [_ Hin]. }
  split; [|split; [|split; [|split; [|split; [|split]]]]].
  - intros i a' k' Hi Hk'. destruct i as [|i].
    + cbn in Hi, Hk'. injection Hi as <-. injection Hk' as <-. exists task2.
      exists (TaskServer.markWorking agent k task2).
      rewrite IH2, IH3.
      * subst s1. cbn [TaskServer.tasks TaskServer.agents].
        rewrite !lookup_insert_eq.
        destruct (markAssigned_more (TaskServer.config s) task k a (clock n))
          as (Hag & _).
        split; [done|]. split.
        { subst task2. unfold TaskServer.markAssigned.
          by destruct (ServerConfig.gitIntegration _). }
        done.
      * intros Hin. apply elem_of_take in Hin as (j & Hj & _).
        by apply list_elem_of_lookup_2 in Hj.
      * intros Hin. apply elem_of_take in Hin as (j & Hj & _).
        by apply list_elem_of_lookup_2 in Hj.
    + cbn in Hi, Hk'. by apply (IH1 i).
  - intros x Hx. cbn [length take] in Hx. apply not_elem_of_cons in Hx as [Hne Hx].
    rewrite IH2 by done. subst s1. cbn [TaskServer.tasks].
    by rewrite lookup_insert_ne.
  - intros x Hx. cbn [length take] in Hx. apply not_elem_of_cons in Hx as [Hne Hx].
    rewrite IH3 by done. subst s1. cbn [TaskServer.agents].
    by rewrite lookup_insert_ne.
  - cbn [length take foldl]. by rewrite IH4.
  - by rewrite IH5.
  - by rewrite IH6.
  - by rewrite IH7.
Qed.
Lemma remove_first_NoDup x (q : list string) :
  NoDup q → NoDup (remove_first x q) ∧ ∀ k, k ∈ remove_first x q ↔ k ∈ q ∧ k ≠ x.
Proof.
  induction 1 as [|y q Hy Hnd [IH1 IH2]]; simpl.
  { split; [constructor|]. intros k. split; [by intros ?%not_elem_of_nil | by intros [?%not_elem_of_nil _]]. }
  case_decide as Hyx.
  - subst y. split; [done|]. intros k. rewrite elem_of_cons. split.
    + intros Hk. split; [by right|]. by intros ->.
    + by intros [[->|Hk] Hne].
  - split.
    + apply NoDup_cons. split; [|done]. rewrite IH2. by intros [? _].
    + intros k. rewrite !elem_of_cons, IH2. split.
      * intros [->|[Hk Hne]]; [split; [by left | congruence] | split; [by right | done]].
      * intros [[->|Hk] Hne]; [by left | right; done].
Qed.

Lemma remove_all_NoDup (l q : list string) :
  NoDup q →
  ∀ k, k ∈ foldl (λ q k, remove_first k q) q l ↔ k ∈ q ∧ k ∉ l.
Proof.
  revert q. induction l as [|x l IH]; intros q Hnd k; cbn [foldl].
  { split; [intros Hk; split; [done | apply not_elem_of_nil] | by intros [? _]]. }
  destruct (remove_first_NoDup x q Hnd) as [Hnd' Hin].
  rewrite IH, Hin, not_elem_of_cons by done. tauto.
Qed.

(** X18.  One auto-assignment pass over tasks without target files.
    The idle agents, in the order they are listed, are matched one to
    one with the pending tasks that have no blocker left, in the order
    in which the pass tries them (by priority, and by place in the
    queue within a priority): the [i]-th idle agent gets the [i]-th
    such task and works on it.  Tasks beyond the number of idle agents, blocked tasks and all
    other tasks are left as they are, as are the agents beyond the
    number of such tasks; exactly the tasks handed out leave the queue;
    no lock is touched. *)
Theorem autoAssignTasks_hands_out_in_order agentKeys clock s :
  NoDup agentKeys →
  NoDup (TaskServer.taskQueue s) →
  (∀ a agent, TaskServer.agents s !! a = Some agent → AgentInfo.id agent = a) →
  (∀ k task, k ∈ TaskServer.taskQueue s → TaskServer.tasks s !! k = Some task →
             Task.status task = pending →
             Task.id task = k ∧ Task.targetFiles task = None) →
  let idle := TaskServer.idleAgentKeys agentKeys s in
  let eligible :=
    eligibleKeys s
      (TaskServer.sortByRank (TaskServer.taskRank s) (TaskServer.pendingKeys s)) in
  let s' := TaskServer.autoAssignTasks_in agentKeys clock s in
  (∀ i a k, idle !! i = Some a → eligible !! i = Some k → assignedTo s' k a)
  ∧ (∀ k, k ∉ take (length idle) eligible →
          TaskServer.tasks s' !! k = TaskServer.tasks s !! k)
  ∧ (∀ a, a ∉ take (length eligible) idle →
          TaskServer.agents s' !! a = TaskServer.agents s !! a)
  ∧ (∀ k, k ∈ TaskServer.taskQueue s'
          ↔ k ∈ TaskServer.taskQueue s ∧ k ∉ take (length idle) eligible)
  ∧ TaskServer.lockManager s' = TaskServer.lockManager s
  ∧ TaskServer.completedTasks s' = TaskServer.completedTasks s.
Proof.
  intros Hnd_a Hnd_q Hids Hplain idle eligible s'.
  subst idle eligible s'. unfold TaskServer.autoAssignTasks_in.
  set (pending := TaskServer.sortByRank _ _).
  assert (pending ≡ₚ TaskServer.pendingKeys s) as Hperm.
  { subst pending. unfold TaskServer.sortByRank. by rewrite sort_loop_perm. }
  destruct (autoAssign_loop clock (TaskServer.idleAgentKeys agentKeys s) pending 0%nat s)
    as (H1 & H2 & H3 & H4 & H5 & H6 & _).
  - by apply NoDup_filter.
  - rewrite Hperm. by apply NoDup_filter.
  - intros a Ha. apply list_elem_of_filter in Ha as [Hst _].
    destruct (TaskServer.agents s !! a) as [agent|] eqn:Hagent; [|done].
    exists agent. split; [done|]. split; [by apply Hids|]. by injection Hst.
  - intros k Hk. rewrite Hperm in Hk. apply list_elem_of_filter in Hk as [Hst Hq].
    destruct (TaskServer.tasks s !! k) as [task|] eqn:Htask; [|done].
    injection Hst as Hst. destruct (Hplain k task Hq Htask Hst) as [Hid Hf].
    by exists task.
  - split; [done|]. split; [done|]. split; [done|]. split; [|done].
    intros k. rewrite H4. by apply remove_all_NoDup.
Qed.
End auto_assign.

(** * Configuration: which source decides a setting *)

Section configuration.
Context `{NumberApi}.

Lemma number_or_nonzero o d : d ≠ 0 → number_or o d ≠ 0.
Proof.
  intros Hd. unfold number_or. destruct o as [n|]; [|done].
  destruct (n =? 0) eqn:Hn; [done|]. by apply Z.eqb_neq.
Qed.

Lemma loadConfigFromEnv_fields_read cwd env base base' :
  PartialConfig.projectPath base = PartialConfig.projectPath base' →
  PartialConfig.maxAgents base = PartialConfig.maxAgents base' →
  PartialConfig.lockTimeout base = PartialConfig.lockTimeout base' →
  PartialConfig.taskTimeout base = PartialConfig.taskTimeout base' →
  PartialConfig.stateFile base = PartialConfig.stateFile base' →
  PartialConfig.logFile base = PartialConfig.logFile base' →
  Config.loadConfigFromEnv cwd env base = Config.loadConfigFromEnv cwd env base'.
Proof.
  intros Hp Hm Hl Ht Hs Hf. unfold Config.loadConfigFromEnv.
  by rewrite Hp, Hm, Hl, Ht, Hs, Hf.
Qed.

(** X19.  What a configuration file can set.  Of the file under the
    project root [loadConfig] reads five fields: [maxAgents],
    [lockTimeout], [taskTimeout], [stateFile] and [logFile].  Two files
    that agree on these give the same configuration, whatever they say
    about [projectPath], [heartbeatInterval], [heartbeatTimeout],
    [autoAssign], [gitIntegration] and [branchPrefix]. *)
Theorem loadConfig_fields_read cwd env projectPath found fileConfig fileConfig' :
  let root := string_or projectPath found in
  PartialConfig.maxAgents (fileConfig root) = PartialConfig.maxAgents (fileConfig' root) →
  PartialConfig.lockTimeout (fileConfig root)
  = PartialConfig.lockTimeout (fileConfig' root) →
  PartialConfig.taskTimeout (fileConfig root)
  = PartialConfig.taskTimeout (fileConfig' root) →
  PartialConfig.stateFile (fileConfig root) = PartialConfig.stateFile (fileConfig' root) →
  PartialConfig.logFile (fileConfig root) = PartialConfig.logFile (fileConfig' root) →
  Config.loadConfig cwd env projectPath found fileConfig
  = Config.loadConfig cwd env projectPath found fileConfig'.
Proof.
  intros root Hm Hl Ht Hs Hf. unfold Config.loadConfig.
  by apply loadConfigFromEnv_fields_read.
Qed.

(** X20.  What the environment can set.  Automatic assignment and git
    integration are off exactly when their variable is the string
    [false]; a number variable that is unset or empty does not count,
    so the heartbeat settings are then the defaults and [maxAgents] is
    the file's unless that is absent or 0; the three numbers are never
    0; the lock and task timeouts do not depend on the environment. *)
Theorem loadConfigFromEnv_environment cwd env base :
  let c := Config.server (Config.loadConfigFromEnv cwd env base) in
  (ServerConfig.autoAssign c = false ↔ env !! "AGENT_AUTO_ASSIGN" = Some "false")
  ∧ (ServerConfig.gitIntegration c = false
     ↔ env !! "AGENT_GIT_INTEGRATION" = Some "false")
  ∧ (∀ name, truthy (env !! name) = None → Config.envNumber env name = None)
  ∧ (Config.envNumber env "AGENT_HEARTBEAT_INTERVAL" = None →
     ServerConfig.heartbeatInterval c = 5000)
  ∧ (Config.envNumber env "AGENT_HEARTBEAT_TIMEOUT" = None →
     ServerConfig.heartbeatTimeout c = 30000)
  ∧ (Config.envNumber env "AGENT_MAX_AGENTS" = None →
     ServerConfig.maxAgents c = number_or (PartialConfig.maxAgents base) 10)
  ∧ ServerConfig.maxAgents c ≠ 0
  ∧ ServerConfig.heartbeatInterval c ≠ 0
  ∧ ServerConfig.heartbeatTimeout c ≠ 0
  ∧ (∀ env', ServerConfig.lockTimeout
               (Config.server (Config.loadConfigFromEnv cwd env' base))
             = ServerConfig.lockTimeout c
             ∧ ServerConfig.taskTimeout
                 (Config.server (Config.loadConfigFromEnv cwd env' base))
               = ServerConfig.taskTimeout c).
Proof.
  intros c. subst c. unfold Config.loadConfigFromEnv.
  cbn [Config.server ServerConfig.autoAssign ServerConfig.gitIntegration
       ServerConfig.heartbeatInterval ServerConfig.heartbeatTimeout
       ServerConfig.maxAgents ServerConfig.lockTimeout ServerConfig.taskTimeout
       ServerConfig.DEFAULT_CONFIG].
  split; [|split; [|split; [|split; [|split; [|split; [|split; [|split; [|split]]]]]]]].
  - rewrite bool_decide_eq_false. split; [apply dec_stable | intros -> Hn; by apply Hn].
  - rewrite bool_decide_eq_false. split; [apply dec_stable | intros -> Hn; by apply Hn].
  - intros name Hnone. unfold Config.envNumber, string_or. rewrite Hnone.
    apply parseInt_empty.
  - by intros ->.
  - by intros ->.
  - by intros ->.
  - apply number_or_nonzero. by apply number_or_nonzero.
  - by apply number_or_nonzero.
  - by apply number_or_nonzero.
  - done.
Qed.
End configuration.

(** * Operations in sequence *)

Section lock_exclusion.
Context `{PathApi}.

(** X21.  Mutual exclusion in the lock manager.  While a lock granted
    by [acquireLocks] has not expired ([now' <= expiresAt]),
    [isLocked] reports it, and a request of another agent that names
    the same path (under any spelling with the same normal form) and
    is not a read request against a read lock fails on that path:
    the path is listed as failed and not as acquired, [success] is
    false, and the lock stays as it was granted. *)
Theorem granted_lock_excludes lm req now p req2 q now' :
  p ∈ LockResult.acquired (LockManager.acquireLocks lm req now).1 →
  q ∈ LockRequest.paths req2 →
  LockManager.normalizePath lm q = LockManager.normalizePath lm p →
  LockRequest.agentId req2 ≠ LockRequest.agentId req →
  LockManager.isCompatibleLock (LockRequest.lockType req) (LockRequest.lockType req2)
  = false →
  now' ≤ now + number_or (LockRequest.timeoutMs req) (LockManager.defaultTimeout lm) →
  let lm1 := (LockManager.acquireLocks lm req now).2 in
  let res2 := (LockManager.acquireLocks lm1 req2 now').1 in
  let lm2 := (LockManager.acquireLocks lm1 req2 now').2 in
  (LockManager.isLocked lm1 p now').1 = true
  ∧ LockResult.success res2 = false
  ∧ q ∈ LockResult.failed res2
  ∧ (q ∉ LockResult.acquired res2)
  ∧ LockManager.locks lm2 !! LockManager.normalizePath lm p
    = Some (LockManager.newLock lm req now (LockManager.normalizePath lm p)).
Proof.
  intros Hp Hq Hsame Hother Hincompatible Hlive lm1 res2 lm2.
  set (k := LockManager.normalizePath lm p).
  assert (LockManager.locks lm1 !! k = Some (LockManager.newLock lm req now k)) as Hlock.
  { subst lm1. rewrite acquireLocks_locks, lookup_grantAll.
    rewrite decide_True; [done|]. apply list_elem_of_fmap. by exists p. }
  assert (∀ x, LockManager.normalizePath lm1 x = LockManager.normalizePath lm x) as Hnp.
  { intros x. apply normalizePath_ext. apply acquireLocks_projectPath. }
  set (m0 := LockManager.sweep now' (LockManager.locks lm1)).
  assert (m0 !! k = Some (LockManager.newLock lm req now k)) as Hswept.
  { subst m0. apply lookup_sweep. split; [done|]. simpl. lia. }
  assert (turnedDown lm1 req2 m0 q) as Hdown.
  { unfold turnedDown, LockManager.refuses. rewrite Hnp, Hsame. fold k. rewrite Hswept.
    cbn [FileLock.agentId FileLock.lockType LockManager.newLock].
    rewrite Hincompatible. rewrite bool_decide_eq_true_2 by (intros Heq; by apply Hother).
    done. }
  split.
  { unfold LockManager.isLocked. rewrite Hnp. fold k. rewrite Hlock.
    rewrite bool_decide_eq_false_2; [done|]. simpl. lia. }
  assert (∀ x, x ∈ LockResult.acquired res2 → ¬ turnedDown lm1 req2 m0 x) as Hok.
  { subst res2. rewrite acquireLocks_unfold. cbn [fst LockResult.acquired].
    intros x Hx. by apply list_elem_of_filter in Hx as [? _]. }
  assert (q ∈ LockResult.failed res2) as Hfailed.
  { subst res2. rewrite acquireLocks_unfold. cbn [fst LockResult.failed].
    by apply list_elem_of_filter. }
  split; [|split; [done|split]].
  - subst res2. rewrite acquireLocks_unfold in Hfailed |- *.
    cbn [fst LockResult.failed LockResult.success] in Hfailed |- *.
    destruct (filter _ _); [by apply not_elem_of_nil in Hfailed | done].
  - intros Hin. by apply (Hok q).
  - subst lm2. rewrite acquireLocks_locks. fold m0. fold res2.
    replace k with (LockManager.normalizePath lm1 q) by (by rewrite Hnp, Hsame).
    rewrite grantAll_turnedDown by done.
    by rewrite Hnp, Hsame.
Qed.
End lock_exclusion.


Section sequences.
Context `{PathApi}.
Implicit Types (s : TaskServer.t) (task : Task.t) (agent : AgentInfo.t).

Lemma round_effect s k a err t1 t2 task agent :
  TaskServer.tasks s !! k = Some task →
  Task.status task = pending →
  TaskServer.hasBlockers task = false →
  Task.targetFiles task = None →
  TaskServer.agents s !! a = Some agent →
  AgentInfo.status agent = idle →
  let s2 := TaskServer.failTask (TaskServer.assignTask s k a t1).2 k a err t2 in
  ∃ task2 agent2,
    TaskServer.tasks s2 !! k = Some task2
    ∧ TaskServer.agents s2 !! a = Some agent2
    ∧ AgentInfo.status agent2 = idle
    ∧ AgentInfo.failedTasks agent2 = AgentInfo.failedTasks agent + 1
    ∧ Task.attempts task2 = Task.attempts task + 1
    ∧ Task.maxAttempts task2 = Task.maxAttempts task
    ∧ Task.targetFiles task2 = None
    ∧ TaskServer.hasBlockers task2 = false
    ∧ Task.error task2 = Some err
    ∧ Task.status task2
      = (if bool_decide (Task.attempts task + 1 < Task.maxAttempts task)
         then pending else failed).
Proof.
  intros Hk Hp Hb Hf Ha Hi s2. subst s2.
  rewrite (assignTask_plain s k a t1 task agent) by done. cbn [snd].
  set (task1 := TaskServer.markAssigned (TaskServer.config s) task k a t1).
  assert (Task.assignedAgent task1 = Some a ∧ Task.attempts task1 = Task.attempts task + 1
          ∧ Task.targetFiles task1 = None ∧ Task.blockedBy task1 = Task.blockedBy task
          ∧ Task.maxAttempts task1 = Task.maxAttempts task)
    as (Hag1 & Hatt1 & Hf1 & Hb1 & Hmax1).
  { subst task1. unfold TaskServer.markAssigned.
    by destruct (ServerConfig.gitIntegration _). }
  unfold TaskServer.failTask. cbn [TaskServer.tasks TaskServer.agents].
  rewrite !lookup_insert_eq.
  rewrite bool_decide_eq_false_2 by (intros Hne; by apply Hne).
  rewrite Hatt1, Hmax1.
  eexists _, _. cbn [TaskServer.tasks TaskServer.agents].
  rewrite !lookup_insert_eq.
  split; [done|]. split; [done|]. split; [done|]. split; [done|].
  case_bool_decide; cbn; unfold TaskServer.hasBlockers; cbn;
    rewrite ?Hatt1, ?Hmax1, ?Hf1, ?Hb1; by repeat split.
Qed.

Lemma rounds_effect err k a (rounds : list (Z * Z)) : ∀ s task agent,
  TaskServer.tasks s !! k = Some task →
  Task.status task = pending →
  TaskServer.hasBlockers task = false →
  Task.targetFiles task = None →
  TaskServer.agents s !! a = Some agent →
  AgentInfo.status agent = idle →
  Task.attempts task + Z.of_nat (length rounds) ≤ Task.maxAttempts task →
  let s' :=
    foldl (λ s r, TaskServer.failTask (TaskServer.assignTask s k a r.1).2 k a err r.2)
      s rounds in
  ∃ task' agent',
    TaskServer.tasks s' !! k = Some task'
    ∧ TaskServer.agents s' !! a = Some agent'
    ∧ AgentInfo.failedTasks agent'
      = AgentInfo.failedTasks agent + Z.of_nat (length rounds)
    ∧ Task.attempts task' = Task.attempts task + Z.of_nat (length rounds)
    ∧ Task.maxAttempts task' = Task.maxAttempts task
    ∧ Task.status task'
      = (if bool_decide (rounds = []
                         ∨ Task.attempts task + Z.of_nat (length rounds)
                           < Task.maxAttempts task)
         then pending else failed).
Proof.
  induction rounds as [|r rounds IH]; intros s task agent Hk Hp Hb Hf Ha Hi Hle s'.
  { subst s'. cbn [foldl length]. exists task, agent.
    rewrite bool_decide_eq_true_2 by by left.
    repeat split; try done; lia. }
  subst s'. cbn [foldl].
  destruct (round_effect s k a err r.1 r.2 task agent Hk Hp Hb Hf Ha Hi)
    as (task2 & agent2 & Hk2 & Ha2 & Hi2 & Hfail2 & Hatt2 & Hmax2 & Hf2 & Hb2 & _ & Hst2).
  cbn [length] in Hle |- *.
  destruct rounds as [|r' rounds].
  { cbn [foldl length]. exists task2, agent2.
    split; [done|]. split; [done|]. split; [lia|]. split; [lia|]. split; [done|].
    rewrite Hst2. repeat case_bool_decide; try done; exfalso.
    - match goal with Hn : ¬ (_ ∨ _) |- _ => apply Hn; right; cbn [length]; lia end.
    - match goal with Hd : _ ∨ _ |- _ => destruct Hd as [?|?]; [done | cbn [length] in *; lia] end. }
  cbn [length] in Hle.
  rewrite bool_decide_eq_true_2 in Hst2 by lia.
  destruct (IH (TaskServer.failTask (TaskServer.assignTask s k a r.1).2 k a err r.2)
              task2 agent2 Hk2 Hst2 Hb2 Hf2 Ha2 Hi2)
    as (task' & agent' & Hk' & Ha' & Hfail' & Hatt' & Hmax' & Hst').
  { cbn [length]. lia. }
  exists task', agent'. cbn [length] in *.
  split; [done|]. split; [done|]. split; [lia|]. split; [lia|]. split; [congruence|].
  rewrite Hst'. rewrite Hatt2, Hmax2.
  repeat case_bool_decide; try done; exfalso;
    match goal with
    | Hn : ¬ (_ ∨ _), Hd : _ ∨ _ |- _ =>
        apply Hn; right; destruct Hd as [?|?]; [done | lia]
    end.
Qed.

(** X22.  The retry budget.  Let a pending task without blockers and
    target files be assigned to an idle agent and then failed by it, any
    number [n >= 1] of times in a row, with
    [attempts + n <= maxAttempts].  Every round counts one attempt and
    one failure of the agent; the task is pending after each round
    before [attempts] reaches [maxAttempts] and failed after the round
    in which it does, and from then on [assignTask] refuses it to every
    agent. *)
Theorem retry_budget s k a err (rounds : list (Z * Z)) task agent :
  TaskServer.tasks s !! k = Some task →
  Task.status task = pending →
  TaskServer.hasBlockers task = false →
  Task.targetFiles task = None →
  TaskServer.agents s !! a = Some agent →
  AgentInfo.status agent = idle →
  rounds ≠ [] →
  Task.attempts task + Z.of_nat (length rounds) ≤ Task.maxAttempts task →
  let s' :=
    foldl (λ s r, TaskServer.failTask (TaskServer.assignTask s k a r.1).2 k a err r.2)
      s rounds in
  ∃ task' agent',
    TaskServer.tasks s' !! k = Some task'
    ∧ TaskServer.agents s' !! a = Some agent'
    ∧ AgentInfo.failedTasks agent'
      = AgentInfo.failedTasks agent + Z.of_nat (length rounds)
    ∧ Task.attempts task' = Task.attempts task + Z.of_nat (length rounds)
    ∧ Task.maxAttempts task' = Task.maxAttempts task
    ∧ (Task.attempts task' < Task.maxAttempts task' → Task.status task' = pending)
    ∧ (Task.attempts task' = Task.maxAttempts task' →
       Task.status task' = failed
       ∧ ∀ a' now, TaskServer.assignTask s' k a' now = (None, s')).
Proof.
  intros Hk Hp Hb Hf Ha Hi Hne Hle s'.
  destruct (rounds_effect err k a rounds s task agent Hk Hp Hb Hf Ha Hi Hle)
    as (task' & agent' & Hk' & Ha' & Hfail' & Hatt' & Hmax' & Hst').
  fold s' in Hk', Ha'. exists task', agent'.
  split; [done|]. split; [done|]. split; [done|]. split; [done|]. split; [done|].
  rewrite Hst', Hatt', Hmax'. split.
  - intros Hlt. rewrite bool_decide_eq_true_2; [done|]. by right.
  - intros Heq.
    assert (Task.status task' = failed) as Hfailed.
    { rewrite Hst'. rewrite bool_decide_eq_false_2; [done|]. intros [?|?]; [done|lia]. }
    rewrite bool_decide_eq_false_2 by (intros [?|?]; [done|lia]).
    split; [done|]. intros a' now. unfold TaskServer.assignTask. rewrite Hk'.
    destruct (TaskServer.agents s' !! a'); [|done].
    rewrite bool_decide_eq_true_2; [done|]. by rewrite Hfailed.
Qed.
End sequences.

(** * What every state of a run satisfies *)

Section invariants.
Context `{PathApi}.
Implicit Types (s : TaskServer.t) (m : gmap string Task.t).
Implicit Types (ag : gmap string AgentInfo.t) (lm : LockManager.t).

Lemma agentOk_mono m m' a agent :
  (∀ k, is_Some (m !! k) → is_Some (m' !! k)) → agentOk m a agent → agentOk m' a agent.
Proof.
  intros Hmono (Hid & Hc & Hf & Hcur). repeat split; try done.
  intros tid Ht. by apply Hmono, Hcur.
Qed.

Lemma insert_mono m k task j : is_Some (m !! j) → is_Some (<[k := task]> m !! j).
Proof. rewrite lookup_insert_is_Some. destruct (decide (k = j)); auto. Qed.

Lemma unblock_mono x m j :
  is_Some (m !! j) → is_Some (TaskServer.unblockDependentTasks x m !! j).
Proof. unfold TaskServer.unblockDependentTasks. rewrite lookup_fmap. by intros [t ->]. Qed.

Lemma elem_of_remove_first_inv x d (b : list string) : d ∈ remove_first x b → d ∈ b.
Proof.
  induction b as [|y b IH]; [done|]. simpl. case_decide.
  - intros Hd. by right.
  - intros [->|Hd]%elem_of_cons; [by left | right; by apply IH].
Qed.

Lemma tasksOk_unblock x m :
  map_Forall taskOk m → map_Forall taskOk (TaskServer.unblockDependentTasks x m).
Proof.
  intros Hm k t. unfold TaskServer.unblockDependentTasks. rewrite lookup_fmap.
  destruct (m !! k) as [t0|] eqn:Hk; [|done]. intros [= <-].
  destruct (Hm k t0 Hk) as (Hid & Hmax & Hatt & Hb).
  destruct (Task.blockedBy t0) as [b0|] eqn:Hbb; [|exact (Hm k t0 Hk)].
  repeat split; try done. simpl. intros b d [= <-] Hd.
  apply (Hb b0 d eq_refl). by eapply elem_of_remove_first_inv.
Qed.

Lemma managerOk_set_locks c lm (m' : gmap string FileLock.t) b :
  managerOk c lm → keyed m' →
  managerOk c (LockManager.saveLocks_if b (LockManager.set_locks m' lm)).
Proof. intros (_ & Hp & Hd) Hm'. by destruct b. Qed.

Lemma managerOk_cleanExpiredLocks c lm now :
  managerOk c lm → managerOk c (LockManager.cleanExpiredLocks lm now).2.
Proof.
  intros Hok. unfold LockManager.cleanExpiredLocks. cbn [snd].
  apply managerOk_set_locks; [done|].
  eapply keyed_subseteq; [apply map_filter_subseteq | apply Hok].
Qed.

Lemma managerOk_checkConflicts c lm a ps now :
  managerOk c lm → managerOk c (LockManager.checkConflicts lm a ps now).2.
Proof. apply managerOk_cleanExpiredLocks. Qed.

Lemma managerOk_acquireLocks c lm req now :
  managerOk c lm → managerOk c (LockManager.acquireLocks lm req now).2.
Proof.
  intros Hok. rewrite acquireLocks_unfold. cbn [snd].
  pose proof (managerOk_cleanExpiredLocks c lm now Hok) as Hok1.
  apply managerOk_set_locks; [done|]. apply keyed_grantAll.
  destruct Hok1 as (Hk & _). by rewrite cleanExpiredLocks_locks in Hk.
Qed.

Lemma managerOk_releaseLocks c lm a ps :
  managerOk c lm → managerOk c (LockManager.releaseLocks lm a ps).2.
Proof.
  intros Hok. unfold LockManager.releaseLocks.
  destruct (foldl _ _ ps) as [m rel] eqn:Hloop. cbn [snd].
  apply managerOk_set_locks; [done|].
  pose proof (keyed_release_loop lm a ps (LockManager.locks lm) [] (proj1 Hok)) as Hk.
  by rewrite Hloop in Hk.
Qed.

Lemma managerOk_releaseAllLocks c lm a :
  managerOk c lm → managerOk c (LockManager.releaseAllLocks lm a).2.
Proof.
  intros Hok. unfold LockManager.releaseAllLocks. cbn [snd].
  apply managerOk_set_locks; [done|].
  eapply keyed_subseteq; [apply map_filter_subseteq | apply Hok].
Qed.

Lemma managerOk_releaseTaskLocks c lm t :
  managerOk c lm → managerOk c (LockManager.releaseTaskLocks lm t).2.
Proof.
  intros Hok. unfold LockManager.releaseTaskLocks. cbn [snd].
  apply managerOk_set_locks; [done|].
  eapply keyed_subseteq; [apply map_filter_subseteq | apply Hok].
Qed.

(** A state built from a well-formed one. *)
Lemma wellFormed_mk s ag' m' q' h' lm' :
  wellFormed s →
  map_Forall taskOk m' →
  (∀ k, is_Some (TaskServer.tasks s !! k) → is_Some (m' !! k)) →
  (∀ a g, ag' !! a = Some g → TaskServer.agents s !! a = Some g ∨ agentOk m' a g) →
  (∀ k, k ∈ q' → k ∈ TaskServer.taskQueue s ∨ is_Some (m' !! k)) →
  (∀ k, k ∈ h' → k ∈ TaskServer.completedTasks s ∨ is_Some (m' !! k)) →
  managerOk (TaskServer.config s) lm' →
  wellFormed (TaskServer.mk (TaskServer.config s) ag' m' q' h' lm').
Proof.
  intros (Ht & Ha & Hq & Hh & Hl) Ht' Hmono Ha' Hq' Hh' Hl'.
  split; [done|]. split; [|split; [|split; [|done]]].
  - intros a g Hg. destruct (Ha' a g Hg) as [Hold|Hnew]; [|done].
    eapply agentOk_mono; [done|]. by apply Ha.
  - intros k Hk. destruct (Hq' k Hk) as [Hold|Hnew]; [|done]. by apply Hmono, Hq.
  - intros k Hk. destruct (Hh' k Hk) as [Hold|Hnew]; [|done]. by apply Hmono, Hh.
Qed.

Lemma wellFormed_set_lockManager s lm' :
  wellFormed s → managerOk (TaskServer.config s) lm' →
  wellFormed (TaskServer.set_lockManager lm' s).
Proof.
  intros Hs Hl. unfold TaskServer.set_lockManager.
  apply wellFormed_mk; auto. apply Hs.
Qed.

Lemma wellFormed_new config : wellFormed (TaskServer.new_ config).
Proof.
  unfold TaskServer.new_, wellFormed. cbn.
  split; [apply map_Forall_empty|]. split; [apply map_Forall_empty|].
  split; [by intros k ?%not_elem_of_nil|]. split; [by intros k ?%not_elem_of_nil|].
  split; [|done]. intros k l Hl. cbn in Hl. by rewrite lookup_empty in Hl.
Qed.

Lemma wellFormed_registerAgent s aid info now :
  wellFormed s → wellFormed (TaskServer.registerAgent s aid info now).2.
Proof.
  intros Hs. unfold TaskServer.registerAgent, TaskServer.set_agents. cbn [snd].
  apply wellFormed_mk; auto; try apply Hs.
  intros a g [[<- <-]|[_ Hg]]%lookup_insert_Some; [right | by left].
  by repeat split.
Qed.

Lemma wellFormed_updateHeartbeat s aid status now :
  wellFormed s → wellFormed (TaskServer.updateHeartbeat s aid status now).
Proof.
  intros Hs. unfold TaskServer.updateHeartbeat.
  destruct (TaskServer.agents s !! aid) as [agent|] eqn:Hagent; [|done].
  unfold TaskServer.set_agents.
  apply wellFormed_mk; auto; try apply Hs.
  intros a g [[<- <-]|[_ Hg]]%lookup_insert_Some; [right | by left].
  destruct Hs as (_ & Ha & _). destruct (Ha aid agent Hagent) as (Hid & Hc & Hf & Hcur).
  destruct status as [st|]; [case_bool_decide|]; by repeat split.
Qed.

Lemma wellFormed_createTask s tid options now :
  wellFormed s → wellFormed (TaskServer.createTask s tid options now).2.
Proof.
  intros Hs. unfold TaskServer.createTask, TaskServer.set_taskQueue, TaskServer.set_tasks.
  cbn [snd TaskServer.config TaskServer.agents TaskServer.tasks TaskServer.taskQueue
       TaskServer.completedTasks TaskServer.lockManager].
  apply wellFormed_mk; auto; try apply Hs.
  - apply map_Forall_insert_2; [|apply Hs].
    repeat split; try done. cbn [Task.blockedBy Task.dependsOn].
    intros b d Hb Hd. destruct (TaskCreateOptions.dependsOn options) as [deps|]; [|done].
    exists deps. split; [done|].
    destruct (nonempty _); [|done]. injection Hb as <-.
    by apply list_elem_of_filter in Hd as [_ Hd].
  - intros k. apply insert_mono.
  - intros k [Hk|Hk]%elem_of_app; [by left | right].
    apply list_elem_of_singleton in Hk as ->. by rewrite lookup_insert_eq.
Qed.

Lemma taskOk_passDependencies s k task task1 :
  taskOk k task → TaskServer.passDependencies s task = Some task1 →
  taskOk k task1 ∧ Task.attempts task1 = Task.attempts task.
Proof.
  intros (Hid & Hmax & Hatt & Hb). unfold TaskServer.passDependencies.
  destruct (Task.blockedBy task) as [b|] eqn:Hbb.
  - destruct (nonempty b).
    + destruct (nonempty (filter _ b)); [done|]. intros [= <-].
      split; [|done]. repeat split; try done. simpl. intros b' d [= <-] Hd.
      by apply not_elem_of_nil in Hd.
    + intros [= <-]. split; [|done]. repeat split; try done. by rewrite Hbb.
  - intros [= <-]. split; [|done]. repeat split; try done. by rewrite Hbb.
Qed.

Lemma taskOk_markAssigned config k task aid now :
  taskOk k task → taskOk k (TaskServer.markAssigned config task k aid now).
Proof.
  intros (Hid & Hmax & Hatt & Hb). unfold TaskServer.markAssigned.
  destruct (ServerConfig.gitIntegration config); repeat split; simpl; try done; lia.
Qed.

Lemma managerOk_lockTargetFiles c lm task tid aid now :
  managerOk c lm → managerOk c (TaskServer.lockTargetFiles lm task tid aid now).
Proof.
  intros Hok. unfold TaskServer.lockTargetFiles.
  destruct (Task.targetFiles task); [|done]. by apply managerOk_acquireLocks.
Qed.

Lemma managerOk_fileConflicts c lm task aid now :
  managerOk c lm → managerOk c (TaskServer.fileConflicts lm task aid now).2.
Proof.
  intros Hok. unfold TaskServer.fileConflicts.
  destruct (Task.targetFiles task); [|done]. by apply managerOk_checkConflicts.
Qed.

Lemma wellFormed_assignTask s tid aid now :
  wellFormed s → wellFormed (TaskServer.assignTask s tid aid now).2.
Proof.
  intros Hs. unfold TaskServer.assignTask.
  destruct (TaskServer.tasks s !! tid) as [task|] eqn:Htask; [|done].
  destruct (TaskServer.agents s !! aid) as [agent|] eqn:Hagent; [|done].
  case_bool_decide; [done|]. case_bool_decide; [done|].
  destruct (TaskServer.passDependencies s task) as [task1|] eqn:Hpass; [|done].
  destruct Hs as (Ht & Ha & Hq & Hh & Hl).
  destruct (taskOk_passDependencies s tid task task1 (Ht tid task Htask) Hpass)
    as [Hok1 _].
  assert (wellFormed s) as Hs by done.
  destruct (nonempty _); cbn [snd].
  - apply wellFormed_mk; auto.
    + by apply map_Forall_insert_2.
    + intros k. apply insert_mono.
    + by apply managerOk_fileConflicts.
  - apply wellFormed_mk; auto.
    + apply map_Forall_insert_2; [|done]. by apply taskOk_markAssigned.
    + intros k. apply insert_mono.
    + intros a g [[<- <-]|[_ Hg]]%lookup_insert_Some; [right | by left].
      destruct (Ha aid agent Hagent) as (Hid & Hc & Hf & Hcur).
      repeat split; try done. simpl. intros t [= <-]. by rewrite lookup_insert_eq.
    + intros k Hk. left. by eapply elem_of_remove_first_inv.
    + by apply managerOk_lockTargetFiles, managerOk_fileConflicts.
Qed.

Lemma wellFormed_startTask s tid aid now :
  wellFormed s → wellFormed (TaskServer.startTask s tid aid now).
Proof.
  intros Hs. unfold TaskServer.startTask.
  destruct (TaskServer.tasks s !! tid) as [task|] eqn:Htask; [|done].
  case_bool_decide; [done|]. unfold TaskServer.set_tasks.
  apply wellFormed_mk; auto; try apply Hs.
  - apply map_Forall_insert_2; [|apply Hs].
    destruct Hs as (Ht & _). by destruct (Ht tid task Htask) as (? & ? & ? & ?).
  - intros k. apply insert_mono.
Qed.

Lemma wellFormed_completeTask s tid aid result now :
  wellFormed s → wellFormed (TaskServer.completeTask s tid aid result now).
Proof.
  intros Hs. unfold TaskServer.completeTask.
  destruct (TaskServer.tasks s !! tid) as [task|] eqn:Htask; [|done].
  case_bool_decide; [done|].
  destruct Hs as (Ht & Ha & Hq & Hh & Hl). assert (wellFormed s) as Hs by done.
  apply wellFormed_mk; auto.
  - apply tasksOk_unblock, map_Forall_insert_2; [|done].
    destruct (Ht tid task Htask) as (? & ? & ? & ?).
    cbn [Task.startedAt Task.set_result Task.set_completedAt Task.set_status].
    destruct (Task.startedAt task) as [started|]; [destruct (started =? 0)|];
      by repeat split.
  - intros k Hk. by apply unblock_mono, insert_mono.
  - destruct (TaskServer.agents s !! aid) as [agent|] eqn:Hagent; [|by left].
    intros a g [[<- <-]|[_ Hg]]%lookup_insert_Some; [right | by left].
    destruct (Ha aid agent Hagent) as (Hid & Hc & Hf & Hcur).
    repeat split; simpl; try done. lia.
  - intros k [Hk|Hk]%elem_of_app; [by left | right].
    apply list_elem_of_singleton in Hk as ->.
    apply unblock_mono. by rewrite lookup_insert_eq.
  - by apply managerOk_releaseTaskLocks.
Qed.

Lemma wellFormed_failTask s tid aid err now :
  wellFormed s → wellFormed (TaskServer.failTask s tid aid err now).
Proof.
  intros Hs. unfold TaskServer.failTask.
  destruct (TaskServer.tasks s !! tid) as [task|] eqn:Htask; [|done].
  case_bool_decide; [done|].
  destruct Hs as (Ht & Ha & Hq & Hh & Hl). assert (wellFormed s) as Hs by done.
  apply wellFormed_mk; auto.
  - apply map_Forall_insert_2; [|done].
    destruct (Ht tid task Htask) as (? & ? & ? & ?).
    case_bool_decide; by repeat split.
  - intros k. apply insert_mono.
  - destruct (TaskServer.agents s !! aid) as [agent|] eqn:Hagent; [|by left].
    intros a g [[<- <-]|[_ Hg]]%lookup_insert_Some; [right | by left].
    destruct (Ha aid agent Hagent) as (Hid & Hc & Hf & Hcur).
    repeat split; simpl; try done. lia.
  - case_bool_decide; [|by left].
    intros k [->|Hk]%elem_of_cons; [right | by left]. by rewrite lookup_insert_eq.
  - by apply managerOk_releaseTaskLocks.
Qed.

Lemma wellFormed_unassignTask s tid :
  wellFormed s → wellFormed (TaskServer.unassignTask s tid).
Proof.
  intros Hs. unfold TaskServer.unassignTask.
  destruct (TaskServer.tasks s !! tid) as [task|] eqn:Htask; [|done].
  destruct Hs as (Ht & Ha & Hq & Hh & Hl). assert (wellFormed s) as Hs by done.
  apply wellFormed_mk; auto.
  - apply map_Forall_insert_2; [|done].
    by destruct (Ht tid task Htask) as (? & ? & ? & ?).
  - intros k. apply insert_mono.
  - destruct (truthy (Task.assignedAgent task)) as [assignee|]; [|by left].
    destruct (TaskServer.agents s !! assignee) as [agent|] eqn:Hagent; [|by left].
    case_bool_decide; [|by left].
    intros a g [[<- <-]|[_ Hg]]%lookup_insert_Some; [right | by left].
    destruct (Ha assignee agent Hagent) as (Hid & Hc & Hf & Hcur).
    by repeat split.
  - intros k [->|Hk]%elem_of_cons; [right | by left]. by rewrite lookup_insert_eq.
  - by apply managerOk_releaseTaskLocks.
Qed.

Lemma wellFormed_set_agents s ag' :
  wellFormed s →
  (∀ a g, ag' !! a = Some g →
          TaskServer.agents s !! a = Some g ∨ agentOk (TaskServer.tasks s) a g) →
  wellFormed (TaskServer.set_agents ag' s).
Proof.
  intros Hs Hag. unfold TaskServer.set_agents.
  apply wellFormed_mk; auto; apply Hs.
Qed.

Lemma wellFormed_unregisterAgent s aid :
  wellFormed s → wellFormed (TaskServer.unregisterAgent s aid).
Proof.
  intros Hs. unfold TaskServer.unregisterAgent.
  destruct (TaskServer.agents s !! aid) as [agent|] eqn:Hagent; [|done].
  apply wellFormed_set_agents.
  - destruct (truthy (AgentInfo.currentTask agent)).
    + apply wellFormed_unassignTask, wellFormed_set_lockManager; [done|].
      apply managerOk_releaseAllLocks, Hs.
    + apply wellFormed_set_lockManager; [done|]. apply managerOk_releaseAllLocks, Hs.
  - intros a g [_ Hg]%lookup_delete_Some. by left.
Qed.

Lemma wellFormed_handleAgentMessage s aid message now :
  wellFormed s → wellFormed (TaskServer.handleAgentMessage s aid message now).
Proof.
  intros Hs. unfold TaskServer.handleAgentMessage.
  destruct (Message.body message); try done.
  - by apply wellFormed_updateHeartbeat.
  - by apply wellFormed_completeTask.
  - by apply wellFormed_failTask.
  - apply wellFormed_set_lockManager; [done|]. apply managerOk_acquireLocks, Hs.
  - apply wellFormed_set_lockManager; [done|]. apply managerOk_releaseLocks, Hs.
  - by apply wellFormed_unregisterAgent.
Qed.

Lemma wellFormed_heartbeatStep now s key :
  wellFormed s → wellFormed (TaskServer.heartbeatStep now s key).
Proof.
  intros Hs. unfold TaskServer.heartbeatStep.
  destruct (TaskServer.agents s !! key) as [agent|] eqn:Hagent; [|done].
  case_bool_decide; [|done].
  assert (wellFormed
            (TaskServer.set_agents
               (<[key := AgentInfo.set_status offline agent]> (TaskServer.agents s)) s))
    as Hs1.
  { apply wellFormed_set_agents; [done|].
    intros a g [[<- <-]|[_ Hg]]%lookup_insert_Some; [right | by left].
    destruct Hs as (_ & Ha & _). by destruct (Ha key agent Hagent) as (? & ? & ? & ?). }
  destruct (truthy (AgentInfo.currentTask agent)).
  - apply wellFormed_set_lockManager; [by apply wellFormed_unassignTask|].
    apply managerOk_releaseAllLocks.
    by apply (wellFormed_unassignTask _ _ Hs1).
  - apply wellFormed_set_lockManager; [done|].
    apply managerOk_releaseAllLocks, Hs1.
Qed.

Lemma wellFormed_cleanupStep now s key :
  wellFormed s → wellFormed (TaskServer.cleanupStep now s key).
Proof.
  intros Hs. unfold TaskServer.cleanupStep.
  destruct (TaskServer.agents s !! key) as [agent|] eqn:Hagent; [|done].
  case_bool_decide; [|done].
  assert (wellFormed (TaskServer.set_agents (delete key (TaskServer.agents s)) s)) as Hs1.
  { apply wellFormed_set_agents; [done|].
    intros a g [_ Hg]%lookup_delete_Some. by left. }
  apply wellFormed_set_lockManager; [done|]. apply managerOk_releaseAllLocks, Hs1.
Qed.

Lemma wellFormed_tryTasks clock aid : ∀ rest n s before,
  wellFormed s → wellFormed (TaskServer.tryTasks clock aid n s before rest).1.2.
Proof.
  induction rest as [|key rest IH]; intros n s before Hs; cbn [TaskServer.tryTasks];
    [done|].
  destruct (TaskServer.tasks s !! key) as [task|]; [|by apply IH].
  destruct (TaskServer.hasBlockers task); [by apply IH|].
  destruct (TaskServer.assignTask s (Task.id task) aid (clock n)) as [[t'|] s1] eqn:Hrun;
    cbn [fst snd].
  - replace s1 with (TaskServer.assignTask s (Task.id task) aid (clock n)).2
      by by rewrite Hrun.
    by apply wellFormed_assignTask.
  - apply IH.
    replace s1 with (TaskServer.assignTask s (Task.id task) aid (clock n)).2
      by by rewrite Hrun.
    by apply wellFormed_assignTask.
Qed.

Lemma wellFormed_autoAssign_loop clock idle : ∀ n s pending,
  wellFormed s →
  wellFormed (foldl (TaskServer.autoAssignStep clock) (n, s, pending) idle).1.2.
Proof.
  induction idle as [|a idle IH]; intros n s pending Hs; cbn [foldl]; [done|].
  destruct (TaskServer.autoAssignStep clock (n, s, pending) a) as [[n1 s1] p1] eqn:Hstep.
  apply IH.
  replace s1 with (TaskServer.autoAssignStep clock (n, s, pending) a).1.2
    by by rewrite Hstep.
  unfold TaskServer.autoAssignStep. destruct pending as [|k pending]; [done|].
  destruct (TaskServer.agents s !! a) as [agent|]; [|done].
  by apply wellFormed_tryTasks.
Qed.

Lemma wellFormed_fold {A} (step : TaskServer.t → A → TaskServer.t) (l : list A) :
  (∀ s x, wellFormed s → wellFormed (step s x)) →
  ∀ s, wellFormed s → wellFormed (foldl step s l).
Proof.
  intros Hstep. induction l as [|x l IH]; intros s Hs; cbn [foldl]; [done|].
  by apply IH, Hstep.
Qed.

(** X23.  Every state of a run - a fresh coordinator followed by any
    operations with any arguments, in any order - is well formed:
    every task is stored under its own id, has [maxAttempts] 3 and is
    blocked only by ids of its [dependsOn]; every agent is stored under
    its own id and its [currentTask], if any, names a task; every entry
    of the queue and of the history names a task (no task is ever
    deleted); every lock is stored under its own path; and the lock
    manager keeps the project path and the lock timeout of the
    configuration. *)
Theorem run_wellFormed s : run s → wellFormed s.
Proof.
  induction 1.
  - apply wellFormed_new.
  - by apply wellFormed_registerAgent.
  - by apply wellFormed_unregisterAgent.
  - by apply wellFormed_updateHeartbeat.
  - by apply wellFormed_createTask.
  - by apply wellFormed_assignTask.
  - by apply wellFormed_startTask.
  - by apply wellFormed_completeTask.
  - by apply wellFormed_failTask.
  - by apply wellFormed_unassignTask.
  - by apply wellFormed_handleAgentMessage.
  - unfold TaskServer.checkAgentHeartbeats_in.
    apply wellFormed_fold; [|done]. intros. by apply wellFormed_heartbeatStep.
  - unfold TaskServer.cleanupDisconnectedAgents_in.
    apply wellFormed_fold; [|done]. intros. by apply wellFormed_cleanupStep.
  - unfold TaskServer.autoAssignTasks_in. by apply wellFormed_autoAssign_loop.
Qed.
End invariants.

(** * Further concrete runs *)

Section more_examples.
#[local] Existing Instance posix.
#[local] Existing Instance asciiNumbers.

(** The two locks of [lm_A_x_B_y], read back at time 1000 from the
    records in the other order. *)
Lemma loadLocks_restores_saved_witness :
  LockManager.locks
    (LockManager.loadLocks (LockManager.mk ∅ ∅ "/proj" 300000) [lockB_y; lockA_x] 1000)
  = filter (λ kv, 1000 < FileLock.expiresAt kv.2) (LockManager.locks lm_A_x_B_y).
Proof.
  apply (loadLocks_restores_saved lm_A_x_B_y [lockB_y; lockA_x] 1000 ∅ "/proj" 300000).
  - exact keyed_lm_A_x_B_y.
  - vm_compute. first [reflexivity | apply Permutation_swap].
Defined.

(** A asks about [x] while B holds [y]. *)
Lemma checkConflicts_clear_then_acquire_witness :
  LockResult.success
    (LockManager.acquireLocks (LockManager.checkConflicts lm_B_y "A" ["x"] 1000).2
       (LockRequest.mk "A" "tA" ["x"] write None) 2000).1 = true.
Proof.
  destruct (checkConflicts_clear_then_acquire lm_B_y "A" ["x"] 1000 "tA" write None 2000)
    as (Hsucc & _); [reflexivity|].
  exact Hsucc.
Defined.

Lemma isLocked_agrees_with_getAllLocks_witness :
  (LockManager.isLocked lm_A_x_B_y "x" 1000).1 = true
  ↔ ∃ l, l ∈ (LockManager.getAllLocks lm_A_x_B_y 1000).1
         ∧ FileLock.path l = LockManager.normalizePath lm_A_x_B_y "x".
Proof.
  destruct (isLocked_agrees_with_getAllLocks lm_A_x_B_y "x" 1000 keyed_lm_A_x_B_y)
    as (Hiff & _).
  exact Hiff.
Defined.
(** The assignment of [t1] to [A1] at time 2 that leads to
    [st_assigned]. *)
Lemma assignTask_success_witness :
  ∃ task', TaskServer.assignTask st_t1 "t1" "A1" 2 = (Some task', st_assigned)
           ∧ Task.status task' = assigned
           ∧ Task.attempts task' = 1
           ∧ LockManager.locks (TaskServer.lockManager st_assigned) !! "x"
             = Some (FileLock.mk "x" "A1" "t1" 2 300002 write).
Proof.
  assert (∃ task', TaskServer.assignTask st_t1 "t1" "A1" 2 = (Some task', st_assigned))
    as [task' Hrun].
  { eexists. vm_compute. reflexivity. }
  exists task'. split; [exact Hrun|].
  destruct (assignTask_success st_t1 "t1" "A1" 2 task' st_assigned Hrun)
    as (task & agent & Htask & _ & _ & _ & _ & _ & Hst & _ & _ & Hatt & _ & _ & _ & _ & _
        & _ & Hlocks).
  split; [exact Hst|]. split.
  - rewrite Hatt. vm_compute in Htask. injection Htask as <-. reflexivity.
  - assert (Task.targetFiles task = Some ["x"]) as Hfiles.
    { vm_compute in Htask. injection Htask as <-. reflexivity. }
    assert ("x" ∈ ["x"]) as Hin by (by left).
    exact (Hlocks ["x"] "x" Hfiles Hin).
Defined.

(** B holds [x] until 300000; the task on [x] is not given to A1 at
    time 100. *)
Lemma assignTask_refused_by_foreign_lock_witness :
  (TaskServer.assignTask st_B_locks "t1" "A1" 100).1 = None.
Proof.
  eapply (assignTask_refused_by_foreign_lock st_B_locks "t1" "A1" 100 _ ["x"] "x"
            (FileLock.mk "x" "B" "tB" 0 300000 write)).
  - vm_compute. reflexivity.
  - reflexivity.
  - by left.
  - vm_compute. reflexivity.
  - simpl. discriminate.
  - simpl. lia.
Defined.

(** A1 leaves while [t1] is assigned to it. *)
Lemma unregisterAgent_effects_witness :
  TaskServer.agents (TaskServer.unregisterAgent st_assigned "A1") !! "A1" = None
  ∧ TaskServer.taskQueue (TaskServer.unregisterAgent st_assigned "A1")
    = "t1" :: TaskServer.taskQueue st_assigned.
Proof.
  assert (∃ agent, TaskServer.agents st_assigned !! "A1" = Some agent
                   ∧ truthy (AgentInfo.currentTask agent) = Some "t1")
    as (agent & Hagent & Hcur).
  { eexists. split; vm_compute; reflexivity. }
  assert (∃ task, TaskServer.tasks st_assigned !! "t1" = Some task) as [task Htask].
  { eexists. vm_compute. reflexivity. }
  destruct (unregisterAgent_effects st_assigned "A1" agent Hagent)
    as (Hgone & _ & Htid & _).
  split; [exact Hgone|].
  destruct (Htid "t1" task Hcur Htask) as (_ & Hqueue & _).
  exact Hqueue.
Defined.

(** One second after A1 registered, the check changes nothing. *)
Lemma quiet_check_changes_nothing_witness :
  TaskServer.checkAgentHeartbeats st_assigned 1000 = st_assigned.
Proof.
  destruct (quiet_check_changes_nothing st_assigned 1000) as [_ Hsame]; [|exact Hsame].
  apply (bool_decide_unpack
           (map_Forall (λ _ agent, 1000 - AgentInfo.lastHeartbeat agent
                                    ≤ ServerConfig.heartbeatTimeout
                                        (TaskServer.config st_assigned))
              (TaskServer.agents st_assigned))).
  vm_compute. reflexivity.
Defined.

(** A heartbeat of A1 at 1000; the check at 2000 leaves it alone. *)
Lemma updateHeartbeat_keeps_alive_witness :
  TaskServer.heartbeatStep 2000 (TaskServer.updateHeartbeat st_A "A1" None 1000) "A1"
  = TaskServer.updateHeartbeat st_A "A1" None 1000.
Proof.
  assert (∃ agent, TaskServer.agents st_A !! "A1" = Some agent) as [agent Hagent].
  { eexists. vm_compute. reflexivity. }
  destruct (updateHeartbeat_keeps_alive st_A "A1" None 1000 2000 agent Hagent)
    as (_ & _ & _ & _ & _ & _ & Hstep).
  - simpl. lia.
  - exact Hstep.
Defined.

(** A task created beside the pending [p] with dependencies on [p], on
    an id that names nothing and on [constructor]: blocked by the first
    and the last. *)
Lemma createTask_appends_witness :
  TaskServer.taskQueue (TaskServer.createTask st_p "c" optMixed 2).2 = ["p"; "c"]
  ∧ "p" ∈ default [] (Task.blockedBy (TaskServer.createTask st_p "c" optMixed 2).1)
  ∧ "constructor" ∈ default [] (Task.blockedBy (TaskServer.createTask st_p "c" optMixed 2).1)
  ∧ "ghost" ∉ default [] (Task.blockedBy (TaskServer.createTask st_p "c" optMixed 2).1).
Proof.
  destruct (createTask_appends st_p "c" optMixed 2)
    as (_ & _ & _ & _ & _ & Hblocked & _ & _ & _ & _ & Hqueue & _).
  - reflexivity.
  - apply (bool_decide_unpack _). vm_compute. reflexivity.
  - split; [exact Hqueue|]. split; [|split].
    + apply Hblocked. split; [by left|]. left.
      eexists. split; [vm_compute; reflexivity|]. simpl. discriminate.
    + apply Hblocked. split; [right; right; by left|]. right.
      split; vm_compute; reflexivity.
    + intros Hin. apply Hblocked in Hin as [_ [(dep & Hdep & _)|[_ Hproto]]].
      * vm_compute in Hdep. discriminate Hdep.
      * vm_compute in Hproto. discriminate Hproto.
Defined.

(** A1 completes [t1] at time 10. *)
Lemma completeTask_effects_witness :
  TaskServer.completedTasks (TaskServer.completeTask st_assigned "t1" "A1" result0 10)
  = TaskServer.completedTasks st_assigned ++ ["t1"]
  ∧ ∃ task', TaskServer.tasks (TaskServer.completeTask st_assigned "t1" "A1" result0 10)
               !! "t1" = Some task'
             ∧ Task.status task' = completed.
Proof.
  assert (∃ task, TaskServer.tasks st_assigned !! "t1" = Some task
                  ∧ Task.assignedAgent task = Some "A1") as (task & Htask & Hassignee).
  { eexists. split; vm_compute; reflexivity. }
  destruct (completeTask_effects st_assigned "t1" "A1" result0 10 task Htask Hassignee)
    as ((task' & Hl & Hst & _) & Hhist & _).
  split; [exact Hhist|]. exists task'. split; [exact Hl | exact Hst].
Defined.

(** Started at one minute, completed at 200 seconds: 140 seconds of
    work. *)
Lemma started_task_minutes_witness :
  ∃ task' minutes,
    TaskServer.tasks
      (TaskServer.completeTask (TaskServer.startTask st_assigned "t1" "A1" 60000)
         "t1" "A1" result0 200000) !! "t1" = Some task'
    ∧ Task.actualMinutes task' = Some minutes
    ∧ 60000 * minutes - 30000 ≤ 200000 - 60000 < 60000 * minutes + 30000.
Proof.
  assert (∃ task, TaskServer.tasks st_assigned !! "t1" = Some task
                  ∧ Task.assignedAgent task = Some "A1") as (task & Htask & Hassignee).
  { eexists. split; vm_compute; reflexivity. }
  destruct (started_task_minutes st_assigned "t1" "A1" result0 60000 200000 task
              Htask Hassignee)
    as (task' & minutes & Hl & _ & _ & Hmin & Hbound); [lia|].
  exists task', minutes. split; [exact Hl|]. split; [exact Hmin | exact Hbound].
Defined.

(** Both agents of [st_three_tasks] were last heard of at 0; at 400000
    they are removed. *)
Lemma cleanupDisconnectedAgents_effects_witness :
  TaskServer.tasks (TaskServer.cleanupDisconnectedAgents_in ["A1"; "A2"] st_three_tasks 400000)
  = TaskServer.tasks st_three_tasks
  ∧ ∀ k agent,
      TaskServer.agents
        (TaskServer.cleanupDisconnectedAgents_in ["A1"; "A2"] st_three_tasks 400000) !! k
      = Some agent
      ↔ TaskServer.agents st_three_tasks !! k = Some agent
        ∧ 400000 - AgentInfo.lastHeartbeat agent ≤ 300000.
Proof.
  destruct (cleanupDisconnectedAgents_effects ["A1"; "A2"] st_three_tasks 400000)
    as (Hagents & _ & Htasks & _).
  - intros k [agent Hagent]. revert k agent Hagent.
    apply (bool_decide_unpack
             (map_Forall (λ k _, k ∈ ["A1"; "A2"]) (TaskServer.agents st_three_tasks))).
    vm_compute. reflexivity.
  - split; [exact Htasks | exact Hagents].
Defined.

(** With A1 and A2 idle and the queue [lo], [dep], [hi]: A1 gets the
    critical [hi], A2 the low [lo], and [dep], which waits for [lo],
    stays as it is. *)
Lemma autoAssignTasks_hands_out_in_order_witness :
  assignedTo (TaskServer.autoAssignTasks_in ["A1"; "A2"] clock10 st_three_tasks) "hi" "A1"
  ∧ assignedTo (TaskServer.autoAssignTasks_in ["A1"; "A2"] clock10 st_three_tasks) "lo" "A2"
  ∧ TaskServer.tasks (TaskServer.autoAssignTasks_in ["A1"; "A2"] clock10 st_three_tasks)
      !! "dep"
    = TaskServer.tasks st_three_tasks !! "dep".
Proof.
  destruct (autoAssignTasks_hands_out_in_order ["A1"; "A2"] clock10 st_three_tasks)
    as (Hmatch & Hrest & _).
  - apply (bool_decide_unpack _). vm_compute. reflexivity.
  - apply (bool_decide_unpack _). vm_compute. reflexivity.
  - apply (bool_decide_unpack
             (map_Forall (λ a agent, AgentInfo.id agent = a)
                (TaskServer.agents st_three_tasks))).
    vm_compute. reflexivity.
  - intros k task _. revert k task.
    apply (bool_decide_unpack
             (map_Forall (λ k task, Task.status task = pending →
                            Task.id task = k ∧ Task.targetFiles task = None)
                (TaskServer.tasks st_three_tasks))).
    vm_compute. reflexivity.
  - split; [apply (Hmatch 0%nat); reflexivity|].
    split; [apply (Hmatch 1%nat); reflexivity|].
    apply Hrest. vm_compute. intros Hin.
    apply elem_of_cons in Hin as [Heq|Hin]; [discriminate Heq|].
    apply elem_of_cons in Hin as [Heq|Hin]; [discriminate Heq|].
    by apply not_elem_of_nil in Hin.
Defined.

(** A file that sets the heartbeat, the switches and the branch prefix
    loads like one that does not. *)
Lemma loadConfig_fields_read_witness :
  Config.loadConfig "/cwd" envAgents (Some "/proj") "/found" (λ _, fileHeartbeat)
  = Config.loadConfig "/cwd" envAgents (Some "/proj") "/found" (λ _, fileBare).
Proof.
  apply (loadConfig_fields_read "/cwd" envAgents (Some "/proj") "/found"
           (λ _, fileHeartbeat) (λ _, fileBare)); reflexivity.
Defined.
(** A releases [x] and asks for [y] as well: the lock of B on [y]
    stays. *)
Lemma releaseLocks_owner_only_witness :
  LockManager.locks (LockManager.releaseLocks lm_A_x_B_y "A" ["x"; "y"]).2 !! "y"
  = Some lockB_y.
Proof.
  destruct (releaseLocks_owner_only lm_A_x_B_y "A" ["x"; "y"]) as (_ & Hstays & _).
  apply Hstays; [reflexivity|]. left. simpl. discriminate.
Defined.

(** A extends its lock on [x]; B cannot. *)
Lemma extendLock_owner_only_witness :
  (LockManager.extendLock lm_A_x_B_y "A" "x" 1000).1 = true
  ∧ LockManager.extendLock lm_A_x_B_y "B" "x" 1000 = (false, lm_A_x_B_y).
Proof.
  split.
  - destruct (extendLock_owner_only lm_A_x_B_y "A" "x" 1000) as [Hown _].
    destruct (Hown lockA_x) as [Htrue _]; [reflexivity | reflexivity | exact Htrue].
  - destruct (extendLock_owner_only lm_A_x_B_y "B" "x" 1000) as [_ Hother].
    apply Hother. intros l Hl.
    assert (l = lockA_x) as -> by (injection Hl as <-; reflexivity).
    simpl. discriminate.
Defined.

(** [t1] is assigned to A1: a completion sent by A2 is ignored; and a
    lock that A1 asks for in the name of B belongs to B, the answer
    going to A1. *)
Lemma messages_respect_ownership_witness :
  TaskServer.handleAgentMessage st_assigned "A2" msg_complete 10 = st_assigned
  ∧ (∃ l, LockManager.locks
            (TaskServer.lockManager
               (TaskServer.handleAgentMessage st_assigned "A1" msg_lock_for_B 10)) !! "z"
          = Some l
          ∧ FileLock.agentId l = "B")
  ∧ Outbound.inbox <$> TaskServer.handleAgentMessage_sent st_assigned "A1" msg_lock_for_B 10
    = ["A1"].
Proof.
  split; [|split].
  - destruct (messages_respect_ownership st_assigned "A2" msg_complete 10)
      as (Hcomplete & _).
    apply (Hcomplete "t1" result0); [reflexivity|].
    intros task Htask. vm_compute in Htask. injection Htask as <-. simpl. discriminate.
  - destruct (messages_respect_ownership st_assigned "A1" msg_lock_for_B 10)
      as (_ & _ & _ & Hlock).
    destruct (Hlock (LockRequest.mk "B" "tB" ["z"] write None) eq_refl) as (Hgranted & _).
    destruct (Hgranted "z") as (l & Hl & Hagent & _).
    + apply (bool_decide_unpack _). vm_compute. reflexivity.
    + exists l. split; [exact Hl | exact Hagent].
  - destruct (messages_respect_ownership st_assigned "A1" msg_lock_for_B 10)
      as (_ & _ & _ & Hlock).
    destruct (Hlock (LockRequest.mk "B" "tB" ["z"] write None) eq_refl) as (_ & Hsent & _).
    rewrite Hsent. reflexivity.
Defined.

(** The queue [lo], [dep], [hi] is tried as [hi], [dep], [lo]. *)
Lemma pending_tried_in_priority_order_witness :
  TaskServer.sortByRank (TaskServer.taskRank st_three_tasks)
    (TaskServer.pendingKeys st_three_tasks) = ["hi"; "dep"; "lo"]
  ∧ ["hi"; "dep"; "lo"] ≡ₚ TaskServer.pendingKeys st_three_tasks.
Proof.
  assert (TaskServer.sortByRank (TaskServer.taskRank st_three_tasks)
            (TaskServer.pendingKeys st_three_tasks) = ["hi"; "dep"; "lo"]) as Hsorted.
  { vm_compute. reflexivity. }
  split; [exact Hsorted|].
  destruct (pending_tried_in_priority_order st_three_tasks) as (Hperm & _).
  rewrite Hsorted in Hperm. exact Hperm.
Defined.

(** The heartbeat timeout of the file is not read: without the
    variable it is 30 seconds. *)
Lemma loadConfigFromEnv_environment_witness :
  ServerConfig.heartbeatTimeout
    (Config.server (Config.loadConfigFromEnv "/cwd" envAgents fileHeartbeat)) = 30000
  ∧ ServerConfig.maxAgents
      (Config.server (Config.loadConfigFromEnv "/cwd" envAgents fileHeartbeat)) = 16.
Proof.
  destruct (loadConfigFromEnv_environment "/cwd" envAgents fileHeartbeat)
    as (_ & _ & _ & _ & Htimeout & _).
  split; [apply Htimeout; reflexivity | reflexivity].
Defined.
(** A gets [x] at 1000 for the default five minutes; B asks for it at
    2000. *)
Lemma granted_lock_excludes_witness :
  LockResult.success
    (LockManager.acquireLocks (LockManager.acquireLocks lm_B_y reqA_xy 1000).2
       (LockRequest.mk "B" "tB" ["x"] write None) 2000).1 = false.
Proof.
  destruct (granted_lock_excludes lm_B_y reqA_xy 1000 "x"
              (LockRequest.mk "B" "tB" ["x"] write None) "x" 2000)
    as (_ & Hrefused & _).
  - apply (bool_decide_unpack _). vm_compute. reflexivity.
  - by left.
  - reflexivity.
  - simpl. discriminate.
  - reflexivity.
  - simpl. lia.
  - exact Hrefused.
Defined.

(** The task [p] of [st_p], made by [createTask], is failed by its
    third failure. *)
Lemma retry_budget_witness :
  ∃ task',
    TaskServer.tasks
      (foldl (λ s r, TaskServer.failTask (TaskServer.assignTask s "p" "A1" r.1).2
                       "p" "A1" "boom" r.2)
         st_p [(2, 3); (4, 5); (6, 7)]) !! "p" = Some task'
    ∧ Task.status task' = failed.
Proof.
  assert (∃ task, TaskServer.tasks st_p !! "p" = Some task
                  ∧ Task.status task = pending
                  ∧ TaskServer.hasBlockers task = false
                  ∧ Task.targetFiles task = None
                  ∧ Task.attempts task = 0
                  ∧ Task.maxAttempts task = 3)
    as (task & Htask & Hp & Hb & Hf & Hatt & Hmax).
  { eexists. split; [vm_compute; reflexivity|]. repeat split. }
  assert (∃ agent, TaskServer.agents st_p !! "A1" = Some agent
                   ∧ AgentInfo.status agent = idle) as (agent & Hagent & Hidle).
  { eexists. split; [vm_compute; reflexivity|]. reflexivity. }
  destruct (retry_budget st_p "p" "A1" "boom" [(2, 3); (4, 5); (6, 7)] task agent
              Htask Hp Hb Hf Hagent Hidle)
    as (task' & agent' & Htask' & _ & _ & Hatt' & Hmax' & _ & Hfailed).
  - discriminate.
  - rewrite Hatt, Hmax. simpl. lia.
  - exists task'. split; [exact Htask'|].
    apply Hfailed. rewrite Hatt', Hmax', Hatt, Hmax. reflexivity.
Defined.

(** [st_three_tasks] is a state of a run. *)
Lemma run_wellFormed_witness : wellFormed st_three_tasks.
Proof.
  apply run_wellFormed. unfold st_three_tasks, st_two_agents, st_A.
  repeat constructor.
Defined.
End more_examples.
